(** * Gmail Auto-Label Sender: a shallow embedding of [src/index.ts] and
      [src/utils.ts], and the properties of its workflow engine.

    Conventions of the model.

    - A JavaScript string is a [string]: a sequence of 8-bit code units read
      as the first 256 code points (Latin-1).  Character classes of the
      regular expressions ([\s], [\w]) are the restrictions of the
      ECMAScript classes to that range.
    - The rendered page is a tree of [node]s; an element is referred to by
      its path from the document element, so that a reference stays
      meaningful while the tree is mutated.
    - The host page (the browser and Gmail's own scripts) is a parameter:
      a [host] gives the page's reaction to a click, to an input event and
      to the passing of time.  The script's own effects are threaded through
      a state-and-exception monad over a [world].
    - Timers are ideal: a callback scheduled after [d] ms runs when the
      clock has advanced by exactly [d] ms.
    - The elements whose [value] the script assigns are text inputs: what
      such an input keeps of an assigned string is the string without its
      line feeds and carriage returns. *)

From Stdlib Require Import ZArith String Ascii List Bool Lia.
From stdpp Require Import base tactics option list.

Local Open Scope Z_scope.
Local Open Scope string_scope.
Local Open Scope list_scope.

(** ** Strings *)

Module Str.

Definition chars : string -> list ascii := list_ascii_of_string.
Definition of_chars : list ascii -> string := string_of_list_ascii.

Definition code (c : ascii) : N := N_of_ascii c.

(** ECMAScript [\s] (WhiteSpace and LineTerminator) below U+0100:
    TAB, LF, VT, FF, CR, SPACE and NO-BREAK SPACE. *)
Definition is_space (c : ascii) : bool :=
  let n := code c in
  ((9 <=? n) && (n <=? 13) || (n =? 32) || (n =? 160))%N.

(** LF and CR, the code points that the value of a text input cannot
    hold. *)
Definition is_line_break (c : ascii) : bool :=
  let n := code c in
  ((n =? 10) || (n =? 13))%N.

(** ECMAScript [\w]: [A-Za-z0-9_]. *)
Definition is_word (c : ascii) : bool :=
  let n := code c in
  ((48 <=? n) && (n <=? 57) || (65 <=? n) && (n <=? 90)
   || (97 <=? n) && (n <=? 122) || (n =? 95))%N.

(** [String.prototype.toLowerCase] below U+0100: A-Z and the Latin-1
    capitals U+00C0..U+00DE except the multiplication sign U+00D7. *)
Definition lower_char (c : ascii) : ascii :=
  let n := code c in
  if ((65 <=? n) && (n <=? 90)
      || (192 <=? n) && (n <=? 222) && negb (n =? 215))%N
  then ascii_of_N (n + 32) else c.

Definition toLowerCase (s : string) : string :=
  of_chars (map lower_char (chars s)).

Fixpoint drop_spaces (l : list ascii) : list ascii :=
  match l with
  | c :: l' => if is_space c then drop_spaces l' else l
  | [] => []
  end.

Definition trim_chars (l : list ascii) : list ascii :=
  rev (drop_spaces (rev (drop_spaces l))).

(** [String.prototype.trim]. *)
Definition trim (s : string) : string := of_chars (trim_chars (chars s)).

Fixpoint starts_with (needle hay : list ascii) : bool :=
  match needle, hay with
  | [], _ => true
  | _ :: _, [] => false
  | a :: needle', b :: hay' => Ascii.eqb a b && starts_with needle' hay'
  end.

Fixpoint includes_chars (hay needle : list ascii) : bool :=
  starts_with needle hay
  || match hay with
     | [] => false
     | _ :: hay' => includes_chars hay' needle
     end.

(** [hay.includes(needle)]. *)
Definition includes (hay needle : string) : bool :=
  includes_chars (chars hay) (chars needle).

(** ASCII white space, which separates the tokens of a [class] attribute:
    TAB, LF, FF, CR and SPACE. *)
Definition is_ascii_space (c : ascii) : bool :=
  let n := code c in
  ((n =? 9) || (n =? 10) || (n =? 12) || (n =? 13) || (n =? 32))%N.

(** Splitting on runs of ASCII white space, as [classList] does. *)
Fixpoint tokens_go (cur : list ascii) (l : list ascii) : list string :=
  match l with
  | [] => match cur with [] => [] | _ => [of_chars (rev cur)] end
  | c :: l' =>
      if is_ascii_space c
      then match cur with
           | [] => tokens_go [] l'
           | _ => of_chars (rev cur) :: tokens_go [] l'
           end
      else tokens_go (c :: cur) l'
  end.

Definition tokens (s : string) : list string := tokens_go [] (chars s).

(** A JavaScript string used as a condition: falsy exactly when empty. *)
Definition truthy (s : string) : bool := negb (String.eqb s "").

End Str.

(** ** Regular expressions

    The three expressions of [utils.ts] are sequences of character classes,
    greedy [+] over a class, and the anchors.  The matcher is the
    backtracking matcher of ECMAScript for this fragment: a greedy [+] first
    tries to take one more character and falls back to the continuation;
    [exec] tries the start positions from left to right.  A match is returned
    as the segments consumed by the atoms, in order. *)

Module Regex.

Inductive atom :=
| One (p : ascii -> bool)
| Plus (p : ascii -> bool)
| Bos
| Eos.

Definition regex := list atom.

Definition segments := list (list ascii).

Fixpoint plus_greedy (p : ascii -> bool) (k : list ascii -> option segments)
    (s : list ascii) : option segments :=
  match s with
  | c :: s' =>
      if p c then
        match plus_greedy p k s' with
        | Some (seg :: segs) => Some ((c :: seg) :: segs)
        | _ => cons [c] <$> k s'
        end
      else None
  | [] => None
  end.

Fixpoint match_here (r : regex) (bos : bool) (s : list ascii)
    : option segments :=
  match r with
  | [] => Some []
  | One p :: r' =>
      match s with
      | c :: s' => if p c then cons [c] <$> match_here r' false s' else None
      | [] => None
      end
  | Plus p :: r' => plus_greedy p (match_here r' false) s
  | Bos :: r' => if bos then cons [] <$> match_here r' bos s else None
  | Eos :: r' =>
      match s with
      | [] => cons [] <$> match_here r' bos s
      | _ :: _ => None
      end
  end.

Fixpoint search_from (r : regex) (bos : bool) (s : list ascii)
    : option segments :=
  match match_here r bos s with
  | Some segs => Some segs
  | None =>
      match s with
      | [] => None
      | _ :: s' => search_from r false s'
      end
  end.

(** [re.exec(s)] for an expression without the [g] flag. *)
Definition exec (r : regex) (s : string) : option segments :=
  search_from r true (Str.chars s).

(** [re.test(s)]. *)
Definition test (r : regex) (s : string) : bool :=
  match exec r s with Some _ => true | None => false end.

(** [m[0]]: the whole match. *)
Definition whole (m : segments) : string := Str.of_chars (concat m).

(** The text consumed by the [i]-th atom. *)
Definition segment (i : nat) (m : segments) : string :=
  Str.of_chars (nth i m []).

Definition lit (c : ascii) : ascii -> bool := Ascii.eqb c.
Definition but (c : ascii) : ascii -> bool := fun x => negb (Ascii.eqb c x).

End Regex.

Import Regex.

(** ** [utils.ts]: address validation and extraction *)

(** [[^\s@]] *)
Definition not_space_at (c : ascii) : bool :=
  negb (Str.is_space c) && negb (Ascii.eqb c "@").

(** [[\w.-]] *)
Definition word_dot_dash (c : ascii) : bool :=
  Str.is_word c || Ascii.eqb c "." || Ascii.eqb c "-".

(** [/^[^\s@]+@[^\s@]+\.[^\s@]+$/] *)
Definition email_re : regex :=
  [Bos; Plus not_space_at; One (lit "@"); Plus not_space_at; One (lit ".");
   Plus not_space_at; Eos].

(** [/<([^>]+)>/]; the group is the second atom. *)
Definition bracket_re : regex := [One (lit "<"); Plus (but ">"); One (lit ">")].

(** [/[\w.-]+@[\w.-]+\.\w+/] *)
Definition bare_re : regex :=
  [Plus word_dot_dash; One (lit "@"); Plus word_dot_dash; One (lit ".");
   Plus Str.is_word].

Definition validateEmail (email : string) : bool := test email_re email.

Definition extractEmailAddress (emailString : string) : string :=
  match exec bracket_re emailString with
  | Some m => segment 1 m
  | None =>
      match exec bare_re emailString with
      | Some emailMatch => whole emailMatch
      | None => Str.trim emailString
      end
  end.

(** The text-parsing step of [extractSenderFromElement] (method 3):
    [extracted && validateEmail(extracted)]. *)
Definition parse_sender_text (text : string) : option string :=
  let extracted := extractEmailAddress text in
  if Str.truthy extracted && validateEmail extracted then Some extracted
  else None.

(** ** The rendered page *)

Module Dom.

(** What the script reads of an element: tag and attribute names are in
    lower case, as [querySelector] sees them in an HTML document;
    [value] is the [value] property ([None] when the element has none, as
    for a [div]); [checked] is the [checked] property read as a
    condition. *)
Record edata := {
  tag : string;
  attrs : list (string * string);
  value : option string;
  checked : bool
}.

#[warnings="-register-all"] Inductive node :=
| Text (s : string)
| Elem (d : edata) (kids : list node).

(** An element reference: the child indices from the element up to the
    document element (innermost first). *)
Definition path := list nat.

Fixpoint at_path (n : node) (p : list nat) : option node :=
  match p with
  | [] => Some n
  | i :: p' =>
      match n with
      | Elem _ kids => k ← kids !! i; at_path k p'
      | Text _ => None
      end
  end.

Definition resolve (doc : node) (el : path) : option node :=
  at_path doc (rev el).

Definition data (doc : node) (el : path) : option edata :=
  match resolve doc el with
  | Some (Elem d _) => Some d
  | _ => None
  end.

Definition parentElement (el : path) : option path :=
  match el with
  | [] => None
  | _ :: up => Some up
  end.

Fixpoint assoc (name : string) (l : list (string * string)) : option string :=
  match l with
  | [] => None
  | (k, v) :: l' => if String.eqb k name then Some v else assoc name l'
  end.

Definition getAttribute (d : edata) (name : string) : option string :=
  assoc name (attrs d).

Definition hasAttribute (d : edata) (name : string) : bool :=
  match getAttribute d name with Some _ => true | None => false end.

Definition classList (d : edata) : list string :=
  match getAttribute d "class" with
  | Some c => Str.tokens c
  | None => []
  end.

Fixpoint textContent (n : node) : string :=
  match n with
  | Text s => s
  | Elem _ kids =>
      (fix cat (l : list node) : string :=
         match l with
         | [] => ""
         | k :: l' => String.append (textContent k) (cat l')
         end) kids
  end.

(** The element descendants of a node in document order, each with its
    reference relative to the node. *)
Fixpoint descendants (n : node) : list (path * node) :=
  match n with
  | Text _ => []
  | Elem _ kids =>
      (fix each (i : nat) (l : list node) : list (path * node) :=
         match l with
         | [] => []
         | k :: l' =>
             match k with
             | Elem _ _ => [([i], k)]
             | Text _ => []
             end
             ++ map (fun '(q, m) => (q ++ [i], m)) (descendants k)
             ++ each (S i) l'
         end) 0%nat kids
  end.

(** Selectors: a comma-separated list of compound selectors. *)
Inductive simple :=
| Tag (t : string)
| Class (c : string)
| HasAttr (a : string)
| AttrIs (a v : string).

Definition compound := list simple.
Definition selector := list compound.

Definition matches_simple (d : edata) (s : simple) : bool :=
  match s with
  | Tag t => String.eqb (tag d) t
  | Class c => existsb (String.eqb c) (classList d)
  | HasAttr a => hasAttribute d a
  | AttrIs a v =>
      match getAttribute d a with
      | Some v' => String.eqb v' v
      | None => false
      end
  end.

Definition matches (sel : selector) (n : node) : bool :=
  match n with
  | Elem d _ => existsb (forallb (matches_simple d)) sel
  | Text _ => false
  end.

Definition select (sel : selector) (l : list (path * node))
    : list (path * node) :=
  filter (fun e => matches sel (snd e) = true) l.

(** [el.querySelectorAll(sel)]: the matching proper descendants. *)
Definition querySelectorAll (doc : node) (el : path) (sel : selector)
    : list (path * node) :=
  match resolve doc el with
  | Some n => map (fun '(q, m) => (q ++ el, m)) (select sel (descendants n))
  | None => []
  end.

Definition querySelector (doc : node) (el : path) (sel : selector)
    : option (path * node) :=
  head (querySelectorAll doc el sel).

(** All elements of the document, the document element included. *)
Definition elements (doc : node) : list (path * node) :=
  match doc with
  | Elem _ _ => ([], doc) :: descendants doc
  | Text _ => []
  end.

(** [document.querySelectorAll(sel)]. *)
Definition document_querySelectorAll (doc : node) (sel : selector)
    : list (path * node) :=
  select sel (elements doc).

Definition document_querySelector (doc : node) (sel : selector)
    : option (path * node) :=
  head (document_querySelectorAll doc sel).

Definition has_id (id : string) (e : path * node) : bool :=
  match snd e with
  | Elem d _ =>
      match getAttribute d "id" with
      | Some i => String.eqb i id
      | None => false
      end
  | Text _ => false
  end.

(** [document.getElementById(id)]. *)
Definition getElementById (doc : node) (id : string) : option (path * node) :=
  find (has_id id) (elements doc).

(** In-place update of an element's data. *)
Fixpoint update_at (f : edata -> edata) (p : list nat) (n : node) : node :=
  match n with
  | Text _ => n
  | Elem d kids =>
      match p with
      | [] => Elem (f d) kids
      | i :: p' => Elem d (alter (update_at f p') i kids)
      end
  end.

(** The value sanitization algorithm of a text input: line feeds and
    carriage returns are removed. *)
Definition strip_newlines (v : string) : string :=
  Str.of_chars
    (List.filter (fun c => negb (Str.is_line_break c)) (Str.chars v)).

(** The setter of [value].  The elements the script assigns to are the
    criteria fields of the filter form, which are text inputs: the value
    kept is the assigned string after the sanitization of a text input. *)
Definition set_value (v : string) (d : edata) : edata :=
  {| tag := tag d; attrs := attrs d; value := Some (strip_newlines v);
     checked := checked d |}.

Definition write_value (doc : node) (el : path) (v : string) : node :=
  update_at (set_value v) (rev el) doc.

(** The selectors of the script. *)
Definition sel_email : selector := [[HasAttr "email"]].
Definition sel_sender : selector := [[Class "go"]; [Class "gD"]; [Class "g2"]].
Definition sel_settings : selector := [[Class "Tm"; Class "aeJ"]; [Class "aKh"]].
Definition sel_filter_rows : selector := [[HasAttr "data-filter-id"]].
Definition sel_create_buttons : selector :=
  [[Tag "button"]; [Tag "a"]; [Tag "span"; AttrIs "role" "link"];
   [Tag "div"; AttrIs "role" "link"]].
Definition sel_buttons : selector :=
  [[Tag "button"]; [Tag "span"; AttrIs "role" "link"]].
Definition sel_label : selector := [[Tag "label"]].

End Dom.

Import Dom.

(** ** The page, the host and the effects of the script *)

(** The page as the script sees it: the document tree and the fragment of
    the location, stored without its leading [#] as the URL record does.
    The percent-encoding done by the setter is the identity on what the
    script writes (a constant and a value read from the getter) and is not
    modelled. *)
Record page := {
  doc : node;
  fragment : string
}.

(** The getter of [window.location.hash]. *)
Definition location_hash (p : page) : string :=
  if String.eqb (fragment p) "" then "" else String "#" (fragment p).

Definition strip_hash (v : string) : string :=
  match v with
  | String "#" v' => v'
  | _ => v
  end.

(** The setter of [window.location.hash]: one leading [#] is removed. *)
Definition assign_hash (v : string) (p : page) : page :=
  {| doc := doc p; fragment := strip_hash v |}.

Inductive level := Log | Warn | Err.

(** What the script does to its environment, in the order it does it. *)
Inductive event :=
| Click (el : path)
| SetValue (el : path) (v : string)
| InputEvent (el : path)
| SetHash (v : string)
| Alert (msg : string)
| Prompt (msg : string)
| Console (lvl : level) (args : list string).

(** The environment of the script: the reaction of the page to a click and
    to an input event (handlers run synchronously), what the page does
    while the script is suspended for a number of milliseconds, and the
    answer of the user to a prompt ([None]: cancelled). *)
Record host := {
  on_click : path -> page -> page;
  on_input : path -> page -> page;
  on_wait : Z -> page -> page;
  prompt_answer : string -> option string
}.

Record world := {
  pg : page;
  now : Z;
  trace : list event
}.

Inductive js_error :=
| Error (msg : string)
| TypeError (msg : string).

Definition message (e : js_error) : string :=
  match e with
  | Error m => m
  | TypeError m => m
  end.

(** The result of awaiting a computation: a value, an exception, or a
    promise that never settles. *)
Inductive outcome (A : Type) :=
| Ok (a : A)
| Throw (e : js_error)
| Pending.
Arguments Ok {A} a.
Arguments Throw {A} e.
Arguments Pending {A}.

Definition M (A : Type) : Type := world -> outcome A * world.

#[global] Instance M_ret : MRet M := fun A a w => (Ok a, w).

#[global] Instance M_bind : MBind M := fun A B f m w =>
  match m w with
  | (Ok a, w') => f a w'
  | (Throw e, w') => (Throw e, w')
  | (Pending, w') => (Pending, w')
  end.

Definition throw {A} (e : js_error) : M A := fun w => (Throw e, w).

Definition pending {A} : M A := fun w => (Pending, w).

(** [try { m } catch(err) { handler err }] *)
Definition try_catch {A} (m : M A) (handler : js_error -> M A) : M A :=
  fun w =>
    match m w with
    | (Throw e, w') => handler e w'
    | r => r
    end.

Definition gets {A} (f : world -> A) : M A := fun w => (Ok (f w), w).

Definition emit (e : event) : M unit := fun w =>
  (Ok tt, {| pg := pg w; now := now w; trace := trace w ++ [e] |}).

Definition on_page (f : page -> page) : M unit := fun w =>
  (Ok tt, {| pg := f (pg w); now := now w; trace := trace w |}).

Definition console (lvl : level) (args : list string) : M unit :=
  emit (Console lvl args).

Definition alert (msg : string) : M unit := emit (Alert msg).

Definition the_document : M node := gets (fun w => doc (pg w)).

Definition Date_now : M Z := gets now.

Definition get_hash : M string := gets (fun w => location_hash (pg w)).

Definition set_hash (v : string) : M unit :=
  emit (SetHash v);; on_page (assign_hash v).

(** [el.value = v]: the event records the string assigned, the page holds
    what the setter keeps of it. *)
Definition assign_value (el : path) (v : string) : M unit :=
  emit (SetValue el v);;
  on_page (fun p => {| doc := write_value (doc p) el v; fragment := fragment p |}).

(** The double quote, for the messages that contain one. *)
Definition dq : string := String (ascii_of_nat 34) EmptyString.

Definition cat (l : list string) : string := fold_right String.append "" l.

Section Script.

Variable H : host.

(** The text prefixed to a label name to mark the rule of that label; it
    is defined in [constants.ts]. *)
Variable METADATA_PREFIX : string.

(** [await new Promise(resolve => setTimeout(resolve, ms))], and the time
    between two runs of an interval timer. *)
Definition sleep (ms : Z) : M unit := fun w =>
  (Ok tt, {| pg := on_wait H ms (pg w); now := now w + ms; trace := trace w |}).

(** [el.click()] *)
Definition click (el : path) : M unit :=
  emit (Click el);; on_page (on_click H el).

(** [el.dispatchEvent(new Event("input", { bubbles: true }))] *)
Definition dispatch_input (el : path) : M unit :=
  emit (InputEvent el);; on_page (on_input H el).

Definition prompt (msg : string) : M (option string) :=
  emit (Prompt msg);; mret (prompt_answer H msg).

(** *** [utils.ts]: [findInputByLabel] *)

Definition find_label (d : node) (labelText : string) : option (path * node) :=
  let labels := document_querySelectorAll d sel_label in
  match find (fun l => String.eqb (Str.trim (textContent (snd l))) labelText)
             labels with
  | Some label => Some label
  | None =>
      find (fun l => Str.includes (Str.toLowerCase (textContent (snd l)))
                                  (Str.toLowerCase labelText)) labels
  end.

(** The input found, or the warning logged when there is none. *)
Definition lookup_input (d : node) (labelText : string) : path + string :=
  match find_label d labelText with
  | None =>
      inr (cat ["[Gmail Auto-Label] Could not find label with text: "; dq;
                labelText; dq])
  | Some label =>
      match
        match snd label with
        | Elem ld _ => getAttribute ld "for"
        | Text _ => None
        end
      with
      | None | Some "" =>
          inr (cat ["[Gmail Auto-Label] Label "; dq; labelText; dq;
                    " has no 'for' attribute"])
      | Some inputId =>
          match getElementById d inputId with
          | None =>
              inr (cat ["[Gmail Auto-Label] Could not find input with id: ";
                        dq; inputId; dq])
          | Some input => inl (fst input)
          end
      end
  end.

Definition findInputByLabel (labelText : string) : M (option path) :=
  d ← the_document;
  match lookup_input d labelText with
  | inl input => mret (Some input)
  | inr warning => console Warn [warning];; mret None
  end.

(** *** [utils.ts]: [extractSenderFromElement] *)

(** Method 1: the first descendant with an [email] attribute. *)
Definition method1 (d : node) (current : path) : option string :=
  match querySelector d current sel_email with
  | Some (_, Elem emailEl _) =>
      match getAttribute emailEl "email" with
      | Some email =>
          if Str.truthy email && validateEmail email then Some email else None
      | None => None
      end
  | _ => None
  end.

(** Method 2: the [email] attribute of the element itself. *)
Definition method2 (d : node) (current : path) : option string :=
  match data d current with
  | Some cur =>
      if hasAttribute cur "email" then
        match getAttribute cur "email" with
        | Some email =>
            if Str.truthy email && validateEmail email then Some email
            else None
        | None => None
        end
      else None
  | None => None
  end.

(** Method 3: the text of the first descendant that displays a sender. *)
Definition method3 (d : node) (current : path) : option string :=
  match querySelector d current sel_sender with
  | Some (_, senderEl) => parse_sender_text (textContent senderEl)
  | None => None
  end.

(** One turn of the loop body: the value returned at this level, if any. *)
Definition level_candidate (d : node) (current : path) : option string :=
  match method1 d current with
  | Some email => Some email
  | None =>
      match method2 d current with
      | Some email => Some email
      | None => method3 d current
      end
  end.

(** The loop [for (let i = 0; i < 15 && current; i++)], with [left] the
    number of turns that remain, [15 - i]. *)
Fixpoint walk_up (d : node) (left : nat) (current : option path)
    : option string :=
  match left, current with
  | S left', Some cur =>
      match level_candidate d cur with
      | Some email => Some email
      | None => walk_up d left' (parentElement cur)
      end
  | _, _ => None
  end.

Definition extractSenderFromElement (d : node) (element : path)
    : option string :=
  walk_up d 15 (Some element).

(** *** [index.ts]: the polling waits *)

Definition has_text (text : string) (el : path * node) : bool :=
  Str.includes (textContent (snd el)) text.

(** The callback of the interval timer of [waitForLabels], run every
    100 ms; [fuel] bounds the number of runs.  When both conditions hold in
    one run the promise is resolved first, and the rejection that follows
    has no effect. *)
Fixpoint waitForLabels_poll (fuel : nat) (start timeout : Z) : M unit :=
  match fuel with
  | O => pending
  | S fuel' =>
      sleep 100;;
      d ← the_document;
      t ← Date_now;
      let labels := document_querySelectorAll d sel_label in
      if (0 <? length labels)%nat then mret tt
      else if (timeout <? t - start)%Z then
        throw (Error "Timeout waiting for form labels")
      else waitForLabels_poll fuel' start timeout
  end.

Definition waitForLabels (timeout : Z) : M unit :=
  start ← Date_now;
  waitForLabels_poll (Z.to_nat (timeout / 100) + 2) start timeout.

(** The two timers of [navigateToFiltersSettings]: the interval timer runs
    every 200 ms until the settings content is there and then resolves
    1000 ms later; the other timer resolves 10000 ms after the start.
    Whichever resolves first settles the promise. *)
Fixpoint navigate_poll (fuel : nat) (start : Z) : M unit :=
  match fuel with
  | O => pending
  | S fuel' =>
      t ← Date_now;
      if (start + 10000 <=? t + 200)%Z then sleep (start + 10000 - t)
      else
        sleep 200;;
        d ← the_document;
        match document_querySelector d sel_settings with
        | Some settingsContent =>
            t' ← Date_now;
            sleep (Z.min 1000 (start + 10000 - t'))
        | None => navigate_poll fuel' start
        end
  end.

Definition navigateToFiltersSettings : M unit :=
  console Log ["[Gmail Auto-Label] Navigating to filters settings..."];;
  set_hash "settings/filters";;
  start ← Date_now;
  navigate_poll 50 start.

(** *** [index.ts]: [findFilterByMetadata] *)

(** The loop over the rendered rows. *)
Fixpoint first_row_with (metadataString : string) (rows : list (path * node))
    : option path :=
  match rows with
  | [] => None
  | row :: rows' =>
      if Str.includes (textContent (snd row)) metadataString
      then Some (fst row)
      else first_row_with metadataString rows'
  end.

Definition findFilterByMetadata (d : node) (labelName : string)
    : option path :=
  let metadataString := String.append METADATA_PREFIX labelName in
  let filterRows := document_querySelectorAll d sel_filter_rows in
  first_row_with metadataString filterRows.

(** *** [index.ts]: [createNewFilter] *)

Definition buttonTexts : list string :=
  ["Create a new filter"; "Create new filter"; "New filter"; "Create filter"].

(** The loop over the button texts; the candidates are queried again for
    each text. *)
Fixpoint find_create_button (d : node) (texts : list string) : option path :=
  match texts with
  | [] => None
  | text :: texts' =>
      let buttons := document_querySelectorAll d sel_create_buttons in
      match find (has_text text) buttons with
      | Some createFilterBtn => Some (fst createFilterBtn)
      | None => find_create_button d texts'
      end
  end.

Definition is_checked (d : node) (el : path) : bool :=
  match data d el with
  | Some e => checked e
  | None => false
  end.

Definition createNewFilter (senderEmail labelName : string) : M unit :=
  console Log ["[Gmail Auto-Label] Looking for 'Create filter' button..."];;
  d ← the_document;
  match find_create_button d buttonTexts with
  | None => throw (Error "Could not find 'Create a new filter' button")
  | Some createFilterBtn =>
      click createFilterBtn;;
      console Log ["[Gmail Auto-Label] Clicked create filter button"];;
      waitForLabels 5000;;
      fromInput ← findInputByLabel "From";
      match fromInput with
      | None => throw (Error "Could not find 'From' input field")
      | Some fromInput =>
          assign_value fromInput senderEmail;;
          dispatch_input fromInput;;
          console Log ["[Gmail Auto-Label] Filled in From field"];;
          doesntHaveInput ← findInputByLabel "Doesn't have";
          match doesntHaveInput with
          | Some doesntHaveInput =>
              let metadataString := String.append METADATA_PREFIX labelName in
              assign_value doesntHaveInput metadataString;;
              dispatch_input doesntHaveInput;;
              console Log ["[Gmail Auto-Label] Added metadata"]
          | None => mret tt
          end;;
          sleep 300;;
          d ← the_document;
          match find (has_text "Create filter")
                     (document_querySelectorAll d sel_buttons) with
          | None => throw (Error "Could not find proceed button")
          | Some proceedBtn =>
              click (fst proceedBtn);;
              console Log ["[Gmail Auto-Label] Proceeding to actions step..."];;
              sleep 800;;
              applyLabelCheckbox ← findInputByLabel "Apply the label:";
              match applyLabelCheckbox with
              | None => throw (Error "Could not find 'Apply the label' checkbox")
              | Some applyLabelCheckbox =>
                  d ← the_document;
                  (if negb (is_checked d applyLabelCheckbox) then
                     click applyLabelCheckbox;;
                     console Log
                       ["[Gmail Auto-Label] Checked 'Apply label' checkbox"];;
                     sleep 500
                   else mret tt);;
                  console Log
                    [cat ["[Gmail Auto-Label] NOTE: You need to manually select the label ";
                          dq; labelName; dq; " and click Create filter"]];;
                  alert (cat ["Please:"; String (ascii_of_nat 10) "";
                              "1. Select the label "; dq; labelName; dq;
                              " from the dropdown"; String (ascii_of_nat 10) "";
                              "2. Click the "; dq; "Create filter"; dq;
                              " button to finish"])
              end
          end
      end
  end.

(** *** [index.ts]: [updateExistingFilter] *)

Definition value_of (d : node) (el : path) : option string :=
  match data d el with
  | Some e => value e
  | None => None
  end.

Definition updateExistingFilter (filterElement : path)
    (newSenderEmail : string) : M unit :=
  click filterElement;;
  sleep 1000;;
  fromInput ← findInputByLabel "From";
  match fromInput with
  | None => throw (Error "Could not find From input field")
  | Some fromInput =>
      d ← the_document;
      match value_of d fromInput with
      | None =>
          (* [currentValue] is [undefined] *)
          throw (TypeError
                   "Cannot read properties of undefined (reading 'includes')")
      | Some currentValue =>
          if Str.includes currentValue newSenderEmail then
            console Log ["[Gmail Auto-Label] Sender already in filter"];;
            match find (has_text "Cancel")
                       (document_querySelectorAll d sel_buttons) with
            | Some cancelBtn => click (fst cancelBtn)
            | None => mret tt
            end
          else
            assign_value fromInput
              (cat [currentValue; " | "; newSenderEmail]);;
            dispatch_input fromInput;;
            console Log ["[Gmail Auto-Label] Appended sender to filter"];;
            sleep 500;;
            d' ← the_document;
            match find (has_text "Update filter")
                       (document_querySelectorAll d' sel_buttons) with
            | Some updateBtn =>
                click (fst updateBtn);;
                console Log ["[Gmail Auto-Label] Clicked Update filter button"];;
                sleep 500
            | None => mret tt
            end
      end
  end.

(** *** [index.ts]: [createOrUpdateFilter] and [handleAutoLabelClick] *)

Definition createOrUpdateFilter (senderEmail labelName : string) : M unit :=
  originalHash ← get_hash;
  try_catch
    (navigateToFiltersSettings;;
     d ← the_document;
     match findFilterByMetadata d labelName with
     | Some existingFilter =>
         console Log ["[Gmail Auto-Label] Found existing filter, updating..."];;
         updateExistingFilter existingFilter senderEmail
     | None =>
         console Log ["[Gmail Auto-Label] Creating new filter..."];;
         createNewFilter senderEmail labelName
     end;;
     set_hash originalHash)
    (fun err =>
       console Err ["[Gmail Auto-Label] Filter operation failed:"; message err];;
       throw err).

(** [!labelName || labelName.trim() === ""] for an answer that is a string. *)
Definition blank (labelName : string) : bool :=
  negb (Str.truthy labelName) || String.eqb (Str.trim labelName) "".

Definition handleAutoLabelClick (rightClickedElement : option path) : M unit :=
  try_catch
    (match rightClickedElement with
     | None =>
         console Err ["[Gmail Auto-Label] No element was right-clicked"]
     | Some element =>
         d ← the_document;
         match extractSenderFromElement d element with
         | None =>
             console Err ["[Gmail Auto-Label] Could not detect sender email"];;
             alert "Could not detect sender email. Please try right-clicking directly on the email."
         | Some senderEmail =>
             console Log ["[Gmail Auto-Label] Found sender:"; senderEmail];;
             labelName ← prompt
               (cat ["Enter the label name to auto-apply for emails from:";
                     String (ascii_of_nat 10) ""; senderEmail]);
             match labelName with
             | None =>
                 console Log
                   ["[Gmail Auto-Label] User cancelled or entered empty label name"]
             | Some name =>
                 if blank name then
                   console Log
                     ["[Gmail Auto-Label] User cancelled or entered empty label name"]
                 else
                   console Log
                     [cat ["[Gmail Auto-Label] Creating filter for "; senderEmail;
                           " with label "; dq; name; dq]];;
                   createOrUpdateFilter senderEmail (Str.trim name);;
                   console Log
                     ["[Gmail Auto-Label] Filter created/updated successfully!"];;
                   alert (cat ["✓ Added filter for "; senderEmail;
                               " with label "; dq; name; dq])
             end
         end
     end)
    (fun err =>
       console Err ["[Gmail Auto-Label] Error:"; message err];;
       alert (cat ["Failed to create filter: "; message err])).

End Script.

(** ** Specification-side notions *)

(** What it is for a list of segments to be a match of an expression,
    followed by the unread [rest] of the input. *)
Fixpoint conforms (r : regex) (bos : bool) (segs : segments)
    (rest : list ascii) : Prop :=
  match r, segs with
  | [], [] => True
  | One p :: r', [c] :: segs' => p c = true /\ conforms r' false segs' rest
  | Plus p :: r', seg :: segs' =>
      seg <> [] /\ forallb p seg = true /\ conforms r' false segs' rest
  | Bos :: r', [] :: segs' => bos = true /\ conforms r' bos segs' rest
  | Eos :: r', [] :: segs' =>
      concat segs' ++ rest = [] /\ conforms r' bos segs' rest
  | _, _ => False
  end.

(** [body] is an angle-bracket segment of [l]: [l] reads [pre<body>post]
    with [body] not empty and without [>]. *)
Definition bracket_at (pre body post l : list ascii) : Prop :=
  l = pre ++ "<"%char :: body ++ ">"%char :: post
  /\ body <> [] /\ ~ In ">"%char body.

Definition has_bracket_segment (s : string) : Prop :=
  exists pre body post, bracket_at pre body post (Str.chars s).

(** The shape of a valid address: [x@y.z] with [x], [y], [z] not empty and
    free of white space and [@]. *)
Definition address_shape (l : list ascii) : Prop :=
  exists x y z,
    l = x ++ "@"%char :: y ++ "."%char :: z
    /\ x <> [] /\ y <> [] /\ z <> []
    /\ forallb not_space_at x = true
    /\ forallb not_space_at y = true
    /\ forallb not_space_at z = true.


(** ** Sample pages and hosts *)

Module Sample.

Definition el (t : string) (a : list (string * string)) (kids : list node)
    : node :=
  Elem {| tag := t; attrs := a; value := None; checked := false |} kids.

Definition input (a : list (string * string)) (v : string) : node :=
  Elem {| tag := "input"; attrs := a; value := Some v; checked := false |} [].

(** A marker prefix. *)
Definition prefix : string := "autolabel:".

(** A host that never changes the page; the user answers [answer]. *)
Definition inert (answer : option string) : host :=
  {| on_click := fun _ p => p;
     on_input := fun _ p => p;
     on_wait := fun _ p => p;
     prompt_answer := fun _ => answer |}.

Definition start_of (d : node) (frag : string) : world :=
  {| pg := {| doc := d; fragment := frag |}; now := 0; trace := [] |}.

(** A message list: one row shows its sender as text, one as an
    attribute, one shows a bracketed text that is not an address. *)
Definition inbox : node :=
  el "div" [("class", "AO")] [
    el "table" [] [
      el "tr" [("class", "zA")] [
        el "td" [] [el "span" [("class", "bA4")] [
          el "span" [("class", "yP gD")] [Text "Jane Doe <jane@example.com>"]]];
        el "td" [] [el "span" [("class", "bog")] [Text "Hello"]]];
      el "tr" [("class", "zA")] [
        el "td" [] [el "span" [("email", "bob@example.org")] [Text "Bob"]];
        el "td" [] [el "span" [("class", "bog")] [Text "Invoice"]]];
      el "tr" [("class", "zA")] [
        el "td" [] [el "span" [("class", "go")] [Text "x <bad> good@a.com"]];
        el "td" [] [el "span" [("class", "bog")] [Text "Offer"]]]]].

(** The subject cell of the first, second and third row. *)
Definition subject1 : path := [0; 1; 0; 0]%nat.
Definition subject2 : path := [0; 1; 1; 0]%nat.
Definition subject3 : path := [0; 1; 2; 0]%nat.
Definition row3 : path := [2; 0]%nat.

(** [n] nested [div]s around a node. *)
Fixpoint nest (n : nat) (inner : node) : node :=
  match n with
  | O => inner
  | S n' => el "div" [] [nest n' inner]
  end.

(** A sender shown beside a chain of [n] nested [div]s; [deep n] refers
    to the innermost of them. *)
Definition beside (n : nat) : node :=
  el "div" [] [
    nest n (Text "click here");
    el "span" [("class", "gD")] [Text "Jane Doe <jane@example.com>"]].

Definition deep (n : nat) : path := repeat 0%nat n.

(** The settings view: three rules, the second carries the marker of the
    label Newsletter; below, the link that opens the creation form, and the
    form of the rule being edited. *)
Definition settings (from : string) : node :=
  el "div" [] [
    el "div" [("class", "Tm aeJ")] [
      el "table" [] [
        el "tr" [("data-filter-id", "1")] [
          Text "Matches: from:(boss@example.com) Do this: Star it"];
        el "tr" [("data-filter-id", "2")] [
          Text "Matches: from:(old@example.com) -{autolabel:Newsletter} Do this: Apply label Newsletter"];
        el "tr" [("data-filter-id", "3")] [
          Text "Matches: subject:(Newsletter) Do this: Skip Inbox"]];
      el "span" [("role", "link")] [Text "Create filter"];
      el "span" [("role", "link")] [Text "Create a new filter"]];
    el "div" [("class", "ZF")] [
      el "label" [("for", "from")] [Text "From"];
      input [("id", "from")] from;
      el "label" [("for", "not")] [Text "Doesn't have"];
      input [("id", "not")] "";
      el "button" [] [Text "Cancel"];
      el "button" [] [Text "Update filter"]]].

Definition rule2 : path := [1; 0; 0]%nat.
Definition from_input : path := [1; 1]%nat.
Definition cancel_button : path := [4; 1]%nat.
Definition update_button : path := [5; 1]%nat.
Definition short_link : path := [1; 0]%nat.
Definition long_link : path := [2; 0]%nat.

(** A settings view with no rule and nothing to create one. *)
Definition bare_settings : node :=
  el "div" [] [el "div" [("class", "aKh")] [Text "Filters"]].

End Sample.

(** ** Specification-side notions for the walk and the searches *)

(** An element and its ancestors, innermost first. *)
Fixpoint self_and_ancestors (el : path) : list path :=
  el :: match el with
        | [] => []
        | _ :: up => self_and_ancestors up
        end.

(** The first result of [f] along a list. *)
Definition first_some {A B} (f : A -> option B) (l : list A) : option B :=
  head (omap f l).

(** The heuristics of a level as the specification words them, each
    written from what it reads of the page.  A candidate counts when it
    passes the validation. *)
Definition validated (candidate : string) : option string :=
  if validateEmail candidate then Some candidate else None.

(** The address attribute of the first descendant that has one. *)
Definition descendant_address (d : node) (cur : path) : option string :=
  found ← head (querySelectorAll d cur [[HasAttr "email"]]);
  match snd found with
  | Elem e _ => getAttribute e "email" ≫= validated
  | Text _ => None
  end.

(** The address attribute of the element itself. *)
Definition own_address (d : node) (cur : path) : option string :=
  e ← data d cur; getAttribute e "email" ≫= validated.

(** The address parsed from the text of the first descendant marked as a
    sender display (class [go], [gD] or [g2]). *)
Definition displayed_address (d : node) (cur : path) : option string :=
  found ← head (querySelectorAll d cur [[Class "go"]; [Class "gD"]; [Class "g2"]]);
  validated (extractEmailAddress (textContent (snd found))).

(** The heuristics in the order they are tried. *)
Definition heuristics : list (node -> path -> option string) :=
  [descendant_address; own_address; displayed_address].

(** [x] is the first element of [l] that satisfies [f]. *)
Definition first_such {A} (f : A -> bool) (l : list A) (x : A) : Prop :=
  exists before after,
    l = before ++ x :: after /\ f x = true
    /\ forall y, In y before -> f y = false.

(** The page when [updateExistingFilter] reads the From input: after the
    click on the row and the settle delay. *)
Definition opened (H : host) (row : path) (p : page) : page :=
  on_wait H 1000 (on_click H row p).

(** The page when it looks for the update button: after the write, the
    input event and the settle delay. *)
Definition written (H : host) (inp : path) (v : string) (p : page) : page :=
  on_wait H 500
    (on_input H inp {| doc := write_value (doc p) inp v; fragment := fragment p |}).

(** The From field as the update path reads it: the input found by its
    label, and the value it holds. *)
Definition from_field (p : page) : option (path * string) :=
  match lookup_input (doc p) "From" with
  | inl inp => (fun v => (inp, v)) <$> value_of (doc p) inp
  | inr _ => None
  end.

(** A reaction of the page that keeps the From field once it is shown: a
    From input is still found by its label, and its value contains the
    value it had before (the page may move the field and add to it). *)
Definition keeps_from (f : page -> page) : Prop :=
  forall p inp v,
    from_field p = Some (inp, v) ->
    exists inp' v',
      from_field (f p) = Some (inp', v') /\ Str.includes v' v = true.

(** The host keeps the From field: each of its reactions does. *)
Definition keeps_from_field (H : host) : Prop :=
  (forall el, keeps_from (on_click H el))
  /\ (forall el, keeps_from (on_input H el))
  /\ (forall ms, keeps_from (on_wait H ms)).

(** The From field is shown and its value contains [text]. *)
Definition shows (text : string) (p : page) : Prop :=
  exists inp v, from_field p = Some (inp, v) /\ Str.includes v text = true.

(** A string without line feed and carriage return: what a text input
    keeps as it is. *)
Definition no_line_break (s : string) : Prop :=
  forallb (fun c => negb (Str.is_line_break c)) (Str.chars s) = true.

(** A tree without the values of its elements: what the queries of the
    script see of it. *)
Definition forget (d : edata) : edata :=
  {| tag := tag d; attrs := attrs d; value := None; checked := checked d |}.

Fixpoint erase (n : node) : node :=
  match n with
  | Text s => Text s
  | Elem d kids => Elem (forget d) (map erase kids)
  end.

Definition erased (e : path * node) : path * node := (fst e, erase (snd e)).

Definition is_write (e : event) : bool :=
  match e with
  | SetValue _ _ => true
  | _ => false
  end.

Definition is_navigation (e : event) : bool :=
  match e with
  | SetHash _ => true
  | _ => false
  end.

Definition is_notification (e : event) : bool :=
  match e with
  | InputEvent _ => true
  | _ => false
  end.

(** The first button with a given text. *)
Definition button (text : string) (d : node) : option path :=
  fst <$> find (has_text text) (document_querySelectorAll d sel_buttons).

(** The page after [k] periods of [ms] milliseconds in which the script is
    suspended. *)
Definition after_waits (H : host) (ms : Z) (k : nat) (p : page) : page :=
  Nat.iter k (on_wait H ms) p.

Definition has_labels (p : page) : bool :=
  (0 <? length (document_querySelectorAll (doc p) sel_label))%nat.

Definition has_settings (p : page) : bool :=
  match document_querySelector (doc p) sel_settings with
  | Some _ => true
  | None => false
  end.

(** A computation only adds to the trace. *)
Definition grows {A} (m : M A) : Prop :=
  forall w r w', m w = (r, w') -> exists t, trace w' = trace w ++ t.

(** What holds of the world whenever a computation returns normally. *)
Definition ensures {A} (Q : world -> Prop) (m : M A) : Prop :=
  forall w a w', m w = (Ok a, w') -> Q w'.

(** The host leaves the location to the script: none of its reactions
    changes the fragment. *)
Definition keeps_location (H : host) : Prop :=
  forall p,
    (forall el, fragment (on_click H el p) = fragment p)
    /\ (forall el, fragment (on_input H el p) = fragment p)
    /\ (forall ms, fragment (on_wait H ms p) = fragment p).

(** A computation that leaves the location as it is. *)
Definition stays {A} (m : M A) : Prop :=
  forall w r w', m w = (r, w') -> fragment (pg w') = fragment (pg w).

(** ** Notions for the properties of the whole workflow *)

(** The world [k] runs of a timer of period [ms] after the start [start]
    of a wait that began on page [p0] with trace [t0]. *)
Definition tick (H : host) (ms : Z) (start : Z) (p0 : page) (t0 : list event)
    (k : nat) : world :=
  {| pg := after_waits H ms k p0; now := start + ms * Z.of_nat k; trace := t0 |}.

(** A computation all of whose events satisfy [Q]. *)
Definition emits_only (Q : event -> Prop) {A} (m : M A) : Prop :=
  forall w r w', m w = (r, w') -> exists t, trace w' = trace w ++ t /\ Forall Q t.

(** A computation that always settles, after at most [b] ms of waiting. *)
Definition settles (b : Z) {A} (m : M A) : Prop :=
  forall w r w', m w = (r, w') -> r <> Pending /\ now w <= now w' <= now w + b.

(** The instructions shown when the creation path hands over to the
    user. *)
Definition hand_off (labelName : string) : string :=
  cat ["Please:"; String (ascii_of_nat 10) "";
       "1. Select the label "; dq; labelName; dq;
       " from the dropdown"; String (ascii_of_nat 10) "";
       "2. Click the "; dq; "Create filter"; dq;
       " button to finish"].

(** What the workflow for a sender and a label may do to the page, when
    it started at the location [original]: write the sender, the marker of
    the label, or a value with the sender appended; set the location to the
    settings view or back to [original]; show the hand-over instructions.
    It never prompts. *)
Definition workflow_event (P senderEmail labelName original : string)
    (e : event) : Prop :=
  match e with
  | SetValue _ v =>
      v = senderEmail \/ v = String.append P labelName
      \/ exists cur, v = cat [cur; " | "; senderEmail]
  | SetHash v => v = "settings/filters" \/ v = original
  | Alert msg => msg = hand_off labelName
  | Prompt _ => False
  | Click _ | InputEvent _ | Console _ _ => True
  end.

(** *** [index.ts]: [injectContextMenuItem]

    The function reads and writes the subtree of the menu only, so the menu
    is taken as the root of its own tree.  The two [cssText] assignments set
    the [style] attribute of the new elements; the attribute's value is the
    browser's serialisation of the declarations and is left as a parameter.
    The listeners attached to the new item are not part of the tree. *)
Definition sel_injected : selector := [[HasAttr "data-auto-label-sender"]].

Section Menu.

Variable item_style : string.
Variable separator_style : string.

(** A [div] made by [document.createElement]. *)
Definition created (a : list (string * string)) (kids : list node) : node :=
  Elem {| tag := "div"; attrs := a; value := None; checked := false |} kids.

Definition menuItem : node :=
  created [("role", "menuitem"); ("data-auto-label-sender", "true");
           ("style", item_style)]
          [Text "Auto-Label Sender"].

Definition separator : node := created [("style", separator_style)] [].

Definition injectContextMenuItem (menu : node) : node :=
  match menu with
  | Text _ => menu
  | Elem d kids =>
      match querySelector menu [] sel_injected with
      | Some _ => menu
      | None => Elem d (menuItem :: separator :: kids)
      end
  end.

End Menu.

(** The element descendants that the children [l] of an element contribute,
    when the first of them has index [i]. *)
Fixpoint children_from (i : nat) (l : list node) : list (path * node) :=
  match l with
  | [] => []
  | k :: l' =>
      match k with
      | Elem _ _ => [([i], k)]
      | Text _ => []
      end
      ++ map (fun '(q, m) => (q ++ [i], m)) (descendants k)
      ++ children_from (S i) l'
  end.

(** The elements of a menu that carry the script's mark. *)
Definition injected (menu : node) : list (path * node) :=
  querySelectorAll menu [] sel_injected.

(** More sample pages. *)
Module Pages.
Import Sample.

(** A rule opened for editing, without a button to submit it. *)
Definition unsaved_form : node :=
  el "div" [] [
    el "tr" [("data-filter-id", "7")] [Text "Matches: from:(old@example.com)"];
    el "label" [("for", "from")] [Text "From"];
    input [("id", "from")] "old@example.com";
    el "button" [] [Text "Cancel"]].

Definition unsaved_row : path := [0]%nat.
Definition unsaved_from : path := [2]%nat.

(** A settings view with the link that opens the creation form, which
    never shows up. *)
Definition only_link : node :=
  el "div" [("class", "aKh")] [
    el "span" [("role", "link")] [Text "Create a new filter"]].

Definition the_link : path := [0]%nat.

(** A settings view whose only link carries the last of the button texts. *)
Definition last_variant : node :=
  el "div" [("class", "aKh")] [el "a" [] [Text "Create filter"]].

(** A form whose first label contains the text of the second. *)
Definition two_labels : node :=
  el "div" [] [
    el "label" [("for", "a")] [Text "From address"];
    input [("id", "a")] "";
    el "label" [("for", "b")] [Text " From "];
    input [("id", "b")] ""].

(** A settings view on which every step of the creation form is there at
    once. *)
Definition wizard : node :=
  el "div" [("class", "aKh")] [
    el "span" [("role", "link")] [Text "Create a new filter"];
    el "label" [("for", "from")] [Text "From"];
    input [("id", "from")] "";
    el "label" [("for", "not")] [Text "Doesn't have"];
    input [("id", "not")] "";
    el "button" [] [Text "Create filter"];
    el "label" [("for", "apply")] [Text "Apply the label:"];
    input [("id", "apply"); ("type", "checkbox")] "on"].

(** A context menu of two entries, the second in a group of its own. *)
Definition menu : node :=
  el "div" [("role", "menu")] [
    el "div" [("role", "menuitem")] [Text "Reply"];
    el "div" [] [el "div" [("role", "menuitem")] [Text "Archive"]]].

End Pages.
(** ** Strings and the matcher: basic facts *)

Lemma chars_of_chars l : Str.chars (Str.of_chars l) = l.
Proof. apply list_ascii_of_string_of_list_ascii. Qed.

Lemma of_chars_chars s : Str.of_chars (Str.chars s) = s.
Proof. apply string_of_list_ascii_of_string. Qed.

Lemma chars_app s t : Str.chars (String.append s t) = Str.chars s ++ Str.chars t.
Proof. induction s as [|c s IH]; simpl; [done|]. by rewrite <- IH. Qed.

Lemma chars_inj s t : Str.chars s = Str.chars t -> s = t.
Proof.
  intros E. rewrite <- (of_chars_chars s), <- (of_chars_chars t). by rewrite E.
Qed.

Lemma truthy_chars s : Str.truthy s = true <-> Str.chars s <> [].
Proof. destruct s; cbn; split; intros; congruence. Qed.

Lemma drop_spaces_id l :
  forallb (fun c => negb (Str.is_space c)) l = true -> Str.drop_spaces l = l.
Proof.
  destruct l as [|c l]; simpl; [done|].
  intros [Hc _]%andb_prop. by destruct (Str.is_space c).
Qed.

Lemma trim_chars_id l :
  forallb (fun c => negb (Str.is_space c)) l = true -> Str.trim_chars l = l.
Proof.
  intros Hl. unfold Str.trim_chars. rewrite (drop_spaces_id l Hl).
  rewrite drop_spaces_id; [apply rev_involutive|].
  apply forallb_forall. intros c Hc%in_rev.
  by apply (proj1 (forallb_forall _ _) Hl).
Qed.

Lemma drop_spaces_In c l : In c (Str.drop_spaces l) -> In c l.
Proof.
  induction l as [|a l IH]; simpl; [done|].
  destruct (Str.is_space a); simpl; tauto.
Qed.

Lemma trim_chars_In c l : In c (Str.trim_chars l) -> In c l.
Proof.
  unfold Str.trim_chars.
  intros Hc%in_rev%drop_spaces_In. apply in_rev in Hc.
  by apply drop_spaces_In.
Qed.

Module RegexFacts.

Lemma plus_greedy_not_nil p k s : plus_greedy p k s <> Some [].
Proof.
  destruct s as [|c s]; simpl; [done|].
  destruct (p c); [|done].
  destruct (plus_greedy p k s) as [[|seg segs]|]; [|done|];
    destruct (k s); done.
Qed.

(** A greedy [+] stops where the class stops, when the continuation
    accepts what follows. *)
Lemma plus_greedy_stop p k body rest segs :
  body <> [] -> forallb p body = true ->
  match rest with [] => True | c :: _ => p c = false end ->
  k rest = Some segs ->
  plus_greedy p k (body ++ rest) = Some (body :: segs).
Proof.
  intros Hne Hall Hstop Hk.
  induction body as [|c body IH]; [done|].
  simpl in Hall. apply andb_prop in Hall as [Hc Hall].
  simpl. rewrite Hc.
  destruct body as [|c' body].
  - simpl. replace (plus_greedy p k rest) with (@None segments).
    + by rewrite Hk.
    + destruct rest as [|c' rest]; simpl; [done|]. by rewrite Hstop.
  - rewrite IH; done.
Qed.

Lemma plus_greedy_sound p k (Q : segments -> list ascii -> Prop) :
  (forall s segs, k s = Some segs ->
     exists rest, s = concat segs ++ rest /\ Q segs rest) ->
  forall s out, plus_greedy p k s = Some out ->
    exists seg segs rest,
      out = seg :: segs /\ seg <> [] /\ forallb p seg = true
      /\ s = seg ++ concat segs ++ rest /\ Q segs rest.
Proof.
  intros Hk. induction s as [|c s IH]; simpl; [done|].
  intros out. destruct (p c) eqn:Hc; [|done].
  destruct (plus_greedy p k s) as [[|seg segs]|] eqn:Hg.
  - by destruct (plus_greedy_not_nil p k s).
  - intros [= <-].
    destruct (IH _ eq_refl) as (seg' & segs' & rest & [= -> ->] & Hne & Hall & -> & HQ).
    exists (c :: seg'), segs', rest. simpl. rewrite Hc, Hall. done.
  - destruct (k s) as [segs|] eqn:Hks; simpl; [|done].
    intros [= <-]. destruct (Hk _ _ Hks) as (rest & -> & HQ).
    exists [c], segs, rest. simpl. rewrite Hc. done.
Qed.

Lemma plus_greedy_complete p k seg s :
  seg <> [] -> forallb p seg = true -> is_Some (k s) ->
  is_Some (plus_greedy p k (seg ++ s)).
Proof.
  intros Hne Hall Hk. induction seg as [|c seg IH]; [done|].
  simpl in Hall. apply andb_prop in Hall as [Hc Hall].
  simpl. rewrite Hc.
  destruct seg as [|c' seg].
  - simpl. destruct Hk as [segs Hk].
    destruct (plus_greedy p k s) as [[|? ?]|]; rewrite ?Hk; simpl; eauto.
  - destruct IH as [out Hout]; [done..|]. rewrite Hout.
    destruct out as [|? ?]; [|eauto].
    by destruct (plus_greedy_not_nil p k ((c' :: seg) ++ s)).
Qed.

Lemma match_here_sound r : forall bos s segs,
  match_here r bos s = Some segs ->
  exists rest, s = concat segs ++ rest /\ conforms r bos segs rest.
Proof.
  induction r as [|a r IH]; intros bos s segs; simpl.
  - intros [= <-]. by exists s.
  - destruct a as [p|p| |].
    + destruct s as [|c s]; [done|]. destruct (p c) eqn:Hc; [|done].
      destruct (match_here r false s) as [segs'|] eqn:Hm; simpl; [|done].
      intros [= <-]. destruct (IH _ _ _ Hm) as (rest & -> & Hconf).
      by exists rest.
    + intros Hg.
      destruct (plus_greedy_sound p (match_here r false)
                  (conforms r false) (IH false) s segs Hg)
        as (seg & segs' & rest & -> & Hne & Hall & -> & Hconf).
      exists rest. simpl. rewrite <- app_assoc. done.
    + destruct bos; [|done].
      destruct (match_here r true s) as [segs'|] eqn:Hm; simpl; [|done].
      intros [= <-]. destruct (IH _ _ _ Hm) as (rest & -> & Hconf).
      by exists rest.
    + destruct s as [|c s]; [|done].
      destruct (match_here r bos []) as [segs'|] eqn:Hm; simpl; [|done].
      intros [= <-]. destruct (IH _ _ _ Hm) as (rest & Hs & Hconf).
      exists rest. simpl. done.
Qed.

Lemma match_here_complete r : forall bos segs rest,
  conforms r bos segs rest ->
  is_Some (match_here r bos (concat segs ++ rest)).
Proof.
  induction r as [|a r IH]; intros bos segs rest; simpl.
  - destruct segs; [eauto|done].
  - destruct a as [p|p| |]; destruct segs as [|seg segs]; try done.
    + destruct seg as [|c [|? ?]]; try done. intros [Hc Hconf].
      simpl. rewrite Hc. destruct (IH _ _ _ Hconf) as [out ->]. simpl. eauto.
    + intros (Hne & Hall & Hconf). simpl. rewrite <- app_assoc.
      apply plus_greedy_complete; auto.
    + destruct seg; [|done]. intros [-> Hconf]. simpl.
      destruct (IH _ _ _ Hconf) as [out ->]. simpl. eauto.
    + destruct seg; [|done]. intros [Hnil Hconf]. simpl. rewrite Hnil.
      specialize (IH _ _ _ Hconf). rewrite Hnil in IH.
      destruct IH as [out ->]. simpl. eauto.
Qed.

Lemma search_from_sound r : forall s bos segs,
  search_from r bos s = Some segs ->
  exists pre rest bos',
    s = pre ++ concat segs ++ rest /\ conforms r bos' segs rest.
Proof.
  induction s as [|c s IH]; intros bos segs; simpl.
  - destruct (match_here r bos []) eqn:Hm; [|done]. intros [= ->].
    destruct (match_here_sound _ _ _ _ Hm) as (rest & Hs & Hconf).
    by exists [], rest, bos.
  - destruct (match_here r bos (c :: s)) eqn:Hm.
    + intros [= ->].
      destruct (match_here_sound _ _ _ _ Hm) as (rest & Hs & Hconf).
      by exists [], rest, bos.
    + intros Hs. destruct (IH _ _ Hs) as (pre & rest & bos' & -> & Hconf).
      by exists (c :: pre), rest, bos'.
Qed.

Lemma search_from_anchored r s : search_from (Bos :: r) false s = None.
Proof. induction s as [|c s IH]; simpl; done. Qed.

Lemma exec_anchored r s :
  exec (Bos :: r) s = match_here (Bos :: r) true (Str.chars s).
Proof.
  unfold exec. destruct (Str.chars s) as [|c l]; simpl.
  - by destruct (match_here r true []).
  - destruct (match_here r true (c :: l)); simpl; [done|].
    apply search_from_anchored.
Qed.

End RegexFacts.

(** ** [validateEmail] and [extractEmailAddress] *)

Module Address.
Import RegexFacts.

Lemma lit_eq c x : lit c x = true <-> x = c.
Proof. unfold lit. rewrite Ascii.eqb_eq. split; congruence. Qed.

Lemma but_all c l : forallb (but c) l = true <-> ~ In c l.
Proof.
  unfold but. induction l as [|a l IH]; simpl; [tauto|].
  rewrite andb_true_iff, IH, negb_true_iff, Ascii.eqb_neq. intuition congruence.
Qed.

Lemma forallb_impl (p q : ascii -> bool) l :
  (forall c, p c = true -> q c = true) ->
  forallb p l = true -> forallb q l = true.
Proof. rewrite !forallb_forall. auto. Qed.

Lemma word_dot_dash_not_space_at c :
  word_dot_dash c = true -> not_space_at c = true.
Proof.
  destruct c as [b0 b1 b2 b3 b4 b5 b6 b7].
  destruct b0, b1, b2, b3, b4, b5, b6, b7; vm_compute; congruence.
Qed.

Lemma is_word_not_space_at c : Str.is_word c = true -> not_space_at c = true.
Proof.
  destruct c as [b0 b1 b2 b3 b4 b5 b6 b7].
  destruct b0, b1, b2, b3, b4, b5, b6, b7; vm_compute; congruence.
Qed.

Lemma not_space_at_char c :
  not_space_at c = true -> Str.is_space c = false /\ c <> "@"%char.
Proof.
  unfold not_space_at. rewrite andb_true_iff, !negb_true_iff, Ascii.eqb_neq.
  tauto.
Qed.

(** The validation expression accepts exactly the texts [x@y.z]. *)
Lemma validateEmail_shape s :
  validateEmail s = true <-> address_shape (Str.chars s).
Proof.
  unfold validateEmail, test, email_re. rewrite exec_anchored. split.
  - destruct (match_here _ true (Str.chars s)) as [segs|] eqn:Hm; [|done].
    intros _. apply match_here_sound in Hm as (rest & Hs & Hconf).
    destruct segs as [|[|? ?] [|x [|[|a [|? ?]] [|y [|[|d [|? ?]] [|z [|[|? ?] [|? ?]]]]]]]];
      cbn [conforms] in Hconf; try tauto.
    destruct Hconf as (_ & Hx & Hxa & Ha & Hy & Hya & Hd & Hz & Hza & Hend & _).
    apply lit_eq in Ha as ->. apply lit_eq in Hd as ->.
    simpl in Hend. subst rest. exists x, y, z.
    rewrite Hs. simpl. rewrite !app_nil_r.
    repeat split; done.
  - intros (x & y & z & Hs & Hx & Hy & Hz & Hxa & Hya & Hza).
    replace (Str.chars s)
      with (concat [[]; x; ["@"%char]; y; ["."%char]; z; []] ++ [])
      by (rewrite Hs; cbn [concat app]; by rewrite !app_nil_r).
    destruct (match_here_complete
      [Bos; Plus not_space_at; One (lit "@"); Plus not_space_at;
       One (lit "."); Plus not_space_at; Eos]
      true [[]; x; ["@"%char]; y; ["."%char]; z; []] []) as [segs ->]; [|done].
    cbn [conforms]. unfold lit. rewrite !Ascii.eqb_refl. repeat split; done.
Qed.

Lemma validateEmail_has_at s :
  validateEmail s = true -> In "@"%char (Str.chars s).
Proof.
  intros (x & y & z & -> & _)%validateEmail_shape.
  apply in_or_app. right. by left.
Qed.

Lemma validateEmail_no_space s :
  validateEmail s = true ->
  forallb (fun c => negb (Str.is_space c)) (Str.chars s) = true.
Proof.
  intros (x & y & z & -> & _ & _ & _ & Hx & Hy & Hz)%validateEmail_shape.
  assert (Hns : forall l, forallb not_space_at l = true ->
            forallb (fun c => negb (Str.is_space c)) l = true).
  { intros l. apply forallb_impl. intros c [Hc _]%not_space_at_char.
    by rewrite Hc. }
  rewrite forallb_app. simpl. rewrite forallb_app. simpl.
  by rewrite !Hns.
Qed.

Lemma validateEmail_truthy s : validateEmail s = true -> Str.truthy s = true.
Proof.
  intros Hv%validateEmail_has_at. apply truthy_chars.
  by destruct (Str.chars s).
Qed.

(** *** The bracket expression *)

Lemma bracket_here_sound bos l segs :
  match_here bracket_re bos l = Some segs ->
  exists body post,
    bracket_at [] body post l /\ segs = [["<"%char]; body; [">"%char]].
Proof.
  intros (rest & Hs & Hconf)%match_here_sound. unfold bracket_re in Hconf.
  destruct segs as [|[|a [|? ?]] [|body [|[|b [|? ?]] [|? ?]]]];
    cbn [conforms] in Hconf; try tauto.
  destruct Hconf as (Ha & Hne & Hall & Hb & _).
  apply lit_eq in Ha as ->. apply lit_eq in Hb as ->.
  exists body, rest. split; [|done].
  split; [|split; [done|by apply but_all]].
  rewrite Hs. cbn [concat app]. by rewrite <- app_assoc.
Qed.

Lemma bracket_here_complete bos body post :
  body <> [] -> ~ In ">"%char body ->
  match_here bracket_re bos ("<"%char :: body ++ ">"%char :: post)
  = Some [["<"%char]; body; [">"%char]].
Proof.
  intros Hne Hno. simpl.
  rewrite (plus_greedy_stop _ _ body (">"%char :: post) [[">"%char]]);
    try done.
  by apply but_all.
Qed.

Lemma bracket_search_sound l : forall bos segs,
  search_from bracket_re bos l = Some segs ->
  exists pre body post,
    bracket_at pre body post l /\ segs = [["<"%char]; body; [">"%char]].
Proof.
  induction l as [|c l IH]; intros bos segs.
  - simpl. done.
  - cbn [search_from].
    destruct (match_here bracket_re bos (c :: l)) as [m|] eqn:Hm.
    + intros [= <-]. apply bracket_here_sound in Hm as (body & post & Hb & ->).
      by exists [], body, post.
    + intros (pre & body & post & (-> & Hne & Hno) & ->)%IH.
      exists (c :: pre), body, post. done.
Qed.

(** The search returns an angle-bracket segment whenever there is one, and
    one that starts no later than any given one. *)
Lemma bracket_search_finds pre : forall bos body post,
  body <> [] -> ~ In ">"%char body ->
  exists pre' body' post',
    bracket_at pre' body' post' (pre ++ "<"%char :: body ++ ">"%char :: post)
    /\ (length pre' <= length pre)%nat
    /\ search_from bracket_re bos (pre ++ "<"%char :: body ++ ">"%char :: post)
       = Some [["<"%char]; body'; [">"%char]].
Proof.
  induction pre as [|c pre IH]; intros bos body post Hne Hno.
  - exists [], body, post. split; [done|]. split; [done|].
    cbn [app search_from]. by rewrite bracket_here_complete.
  - cbn [app search_from].
    destruct (match_here bracket_re bos (c :: _)) as [m|] eqn:Hm.
    + apply bracket_here_sound in Hm as (body' & post' & Hb & ->).
      exists [], body', post'. split; [done|]. split; [simpl; lia|done].
    + destruct (IH false body post Hne Hno)
        as (pre' & body' & post' & (E & Hne' & Hno') & Hlen & Hs).
      exists (c :: pre'), body', post'. split.
      * split; [|done]. simpl. by rewrite E.
      * split; [simpl; lia|done].
Qed.

Lemma bracket_search_leftmost pre : forall bos body post,
  ~ In "<"%char pre -> body <> [] -> ~ In ">"%char body ->
  search_from bracket_re bos (pre ++ "<"%char :: body ++ ">"%char :: post)
  = Some [["<"%char]; body; [">"%char]].
Proof.
  induction pre as [|c pre IH]; intros bos body post Hpre Hne Hno.
  - cbn [app search_from]. by rewrite bracket_here_complete.
  - cbn [app search_from].
    assert (Hc : lit "<" c = false).
    { apply not_true_is_false. intros ->%lit_eq. apply Hpre. by left. }
    replace (match_here bracket_re bos (c :: _)) with (@None segments)
      by (unfold bracket_re; cbn [match_here]; by rewrite Hc).
    apply IH; try done. intros ?. apply Hpre. by right.
Qed.

Lemma exec_bracket_none s :
  ~ has_bracket_segment s -> exec bracket_re s = None.
Proof.
  intros Hno. unfold exec.
  destruct (search_from bracket_re true (Str.chars s)) as [m|] eqn:Hs; [|done].
  apply bracket_search_sound in Hs as (pre & body & post & Hb & _).
  destruct Hno. by exists pre, body, post.
Qed.

(** *** The bare expression *)

Lemma bare_match_valid s m :
  exec bare_re s = Some m -> validateEmail (whole m) = true.
Proof.
  unfold exec. intros (pre & rest & bos' & _ & Hconf)%search_from_sound.
  unfold bare_re in Hconf.
  destruct m as [|x [|[|a [|? ?]] [|y [|[|d [|? ?]] [|z [|? ?]]]]]];
    cbn [conforms] in Hconf; try tauto.
  destruct Hconf as (Hx & Hxa & Ha & Hy & Hya & Hd & Hz & Hza & _).
  apply lit_eq in Ha as ->. apply lit_eq in Hd as ->.
  apply validateEmail_shape. unfold whole. rewrite chars_of_chars.
  exists x, y, z. simpl. rewrite app_nil_r.
  repeat split; try done.
  - revert Hxa. apply forallb_impl, word_dot_dash_not_space_at.
  - revert Hya. apply forallb_impl, word_dot_dash_not_space_at.
  - revert Hza. apply forallb_impl, is_word_not_space_at.
Qed.

(** *** [extractEmailAddress] *)

Lemma extract_bracket s pre body post :
  bracket_at pre body post (Str.chars s) -> ~ In "<"%char pre ->
  extractEmailAddress s = Str.of_chars body.
Proof.
  intros (E & Hne & Hno) Hpre. unfold extractEmailAddress, exec.
  by rewrite E, bracket_search_leftmost.
Qed.

Lemma extract_some_bracket s :
  has_bracket_segment s ->
  exists pre body post,
    bracket_at pre body post (Str.chars s)
    /\ extractEmailAddress s = Str.of_chars body.
Proof.
  intros (pre & body & post & E & Hne & Hno).
  destruct (bracket_search_finds pre true body post Hne Hno)
    as (pre' & body' & post' & Hb & _ & Hs).
  exists pre', body', post'. rewrite <- E in Hb, Hs. split; [done|].
  unfold extractEmailAddress, exec. by rewrite Hs.
Qed.

Lemma extract_chars_In s c :
  In c (Str.chars (extractEmailAddress s)) -> In c (Str.chars s).
Proof.
  unfold extractEmailAddress, exec.
  destruct (search_from bracket_re true (Str.chars s)) as [m|] eqn:Hb.
  - apply bracket_search_sound in Hb as (pre & body & post & (E & _) & ->).
    unfold segment. simpl. rewrite chars_of_chars, E. intros Hc.
    apply in_or_app. right. right. apply in_or_app. by left.
  - destruct (search_from bare_re true (Str.chars s)) as [m|] eqn:Hm.
    + apply search_from_sound in Hm as (pre & rest & _ & E & _).
      unfold whole. rewrite chars_of_chars, E. intros Hc.
      apply in_or_app. right. apply in_or_app. by left.
    + unfold Str.trim. rewrite chars_of_chars. apply trim_chars_In.
Qed.

Lemma parse_sender_text_valid text a :
  parse_sender_text text = Some a ->
  a = extractEmailAddress text /\ validateEmail a = true.
Proof.
  unfold parse_sender_text.
  destruct (Str.truthy _ && validateEmail _) eqn:E; [|done].
  intros [= <-]. by apply andb_prop in E as [_ ?].
Qed.

Lemma parse_sender_text_of_valid text :
  validateEmail (extractEmailAddress text) = true ->
  parse_sender_text text = Some (extractEmailAddress text).
Proof.
  intros Hv. unfold parse_sender_text.
  by rewrite Hv, (validateEmail_truthy _ Hv).
Qed.

End Address.

(** ** Running the script *)

Module Run.

Lemma bind_run {A B} (m : M A) (f : A -> M B) w :
  (m ≫= f) w
  = match m w with
    | (Ok a, w') => f a w'
    | (Throw e, w') => (Throw e, w')
    | (Pending, w') => (Pending, w')
    end.
Proof. reflexivity. Qed.

Lemma bind_ok {A B} (m : M A) (f : A -> M B) w a w' :
  m w = (Ok a, w') -> (m ≫= f) w = f a w'.
Proof. intros E. by rewrite bind_run, E. Qed.

(** Unfolding of the primitive effects. *)
Ltac prims :=
  cbv [click dispatch_input assign_value set_hash console alert prompt emit
       on_page sleep gets the_document Date_now get_hash throw pending
       mbind M_bind mret M_ret];
  cbn [pg now trace doc fragment].

Lemma grows_ret {A} (a : A) : grows (mret a).
Proof. intros w r w' [= <- <-]. exists []. by rewrite app_nil_r. Qed.

Lemma grows_throw {A} e : grows (@throw A e).
Proof. intros w r w' [= <- <-]. exists []. by rewrite app_nil_r. Qed.

Lemma grows_pending {A} : grows (@pending A).
Proof. intros w r w' [= <- <-]. exists []. by rewrite app_nil_r. Qed.

Lemma grows_gets {A} (f : world -> A) : grows (gets f).
Proof. intros w r w' [= <- <-]. exists []. by rewrite app_nil_r. Qed.

Lemma grows_emit e : grows (emit e).
Proof. intros w r w' [= <- <-]. by exists [e]. Qed.

Lemma grows_on_page f : grows (on_page f).
Proof. intros w r w' [= <- <-]. exists []. by rewrite app_nil_r. Qed.

Lemma grows_sleep H ms : grows (sleep H ms).
Proof. intros w r w' [= <- <-]. exists []. by rewrite app_nil_r. Qed.

Lemma grows_bind {A B} (m : M A) (f : A -> M B) :
  grows m -> (forall a, grows (f a)) -> grows (m ≫= f).
Proof.
  intros Hm Hf w r w'. rewrite bind_run.
  destruct (m w) as [[a|e|] w1] eqn:E; destruct (Hm _ _ _ E) as [t Ht].
  - intros [t' Ht']%Hf. exists (t ++ t'). by rewrite Ht', Ht, app_assoc.
  - intros [= <- <-]. by exists t.
  - intros [= <- <-]. by exists t.
Qed.

Lemma grows_try_catch {A} (m : M A) handler :
  grows m -> (forall e, grows (handler e)) -> grows (try_catch m handler).
Proof.
  intros Hm Hh w r w'. unfold try_catch.
  destruct (m w) as [[a|e|] w1] eqn:E; destruct (Hm _ _ _ E) as [t Ht].
  - intros [= <- <-]. by exists t.
  - intros [t' Ht']%Hh. exists (t ++ t'). by rewrite Ht', Ht, app_assoc.
  - intros [= <- <-]. by exists t.
Qed.

Create HintDb grows.
#[export] Hint Resolve grows_ret grows_throw grows_pending grows_gets
  grows_emit grows_on_page grows_sleep : grows.

Ltac grows :=
  repeat first
    [ progress intros
    | solve [auto with grows]
    | apply grows_bind
    | apply grows_try_catch
    | match goal with
      | |- grows (match ?x with _ => _ end) => destruct x
      | |- grows (if ?b then _ else _) => destruct b
      | |- grows (let _ := _ in _) => cbv zeta
      end ].

Lemma grows_console lvl args : grows (console lvl args).
Proof. apply grows_emit. Qed.

Lemma grows_alert msg : grows (alert msg).
Proof. apply grows_emit. Qed.

Lemma grows_the_document : grows the_document.
Proof. apply grows_gets. Qed.

Lemma grows_Date_now : grows Date_now.
Proof. apply grows_gets. Qed.

Lemma grows_get_hash : grows get_hash.
Proof. apply grows_gets. Qed.

Lemma grows_set_hash v : grows (set_hash v).
Proof. unfold set_hash. grows. Qed.

Lemma grows_assign_value el v : grows (assign_value el v).
Proof. unfold assign_value. grows. Qed.

Lemma grows_click H el : grows (click H el).
Proof. unfold click. grows. Qed.

Lemma grows_dispatch_input H el : grows (dispatch_input H el).
Proof. unfold dispatch_input. grows. Qed.

Lemma grows_prompt H msg : grows (prompt H msg).
Proof. unfold prompt. grows. Qed.

#[export] Hint Resolve grows_console grows_alert grows_the_document
  grows_Date_now grows_get_hash grows_set_hash grows_assign_value grows_click
  grows_dispatch_input grows_prompt : grows.

Lemma grows_findInputByLabel labelText : grows (findInputByLabel labelText).
Proof. unfold findInputByLabel. grows. Qed.

Lemma grows_waitForLabels_poll H fuel start timeout :
  grows (waitForLabels_poll H fuel start timeout).
Proof. induction fuel as [|fuel IH]; cbn [waitForLabels_poll]; grows. Qed.

#[export] Hint Resolve grows_findInputByLabel grows_waitForLabels_poll : grows.

Lemma grows_waitForLabels H timeout : grows (waitForLabels H timeout).
Proof. unfold waitForLabels. grows. Qed.

#[export] Hint Resolve grows_waitForLabels : grows.

(** *** Computations that leave the location as it is *)

Lemma stays_ret {A} (a : A) : stays (mret a).
Proof. by intros w r w' [= <- <-]. Qed.

Lemma stays_throw {A} e : stays (@throw A e).
Proof. by intros w r w' [= <- <-]. Qed.

Lemma stays_pending {A} : stays (@pending A).
Proof. by intros w r w' [= <- <-]. Qed.

Lemma stays_gets {A} (f : world -> A) : stays (gets f).
Proof. by intros w r w' [= <- <-]. Qed.

Lemma stays_emit e : stays (emit e).
Proof. by intros w r w' [= <- <-]. Qed.

Lemma stays_bind {A B} (m : M A) (f : A -> M B) :
  stays m -> (forall a, stays (f a)) -> stays (m ≫= f).
Proof.
  intros Hm Hf w r w'. rewrite bind_run.
  destruct (m w) as [[a|e|] w1] eqn:E; pose proof (Hm _ _ _ E) as Hw1.
  - intros Hfa%Hf. congruence.
  - by intros [= <- <-].
  - by intros [= <- <-].
Qed.

Lemma stays_assign_value el v : stays (assign_value el v).
Proof. by intros w r w' [= <- <-]. Qed.

Lemma stays_console lvl args : stays (console lvl args).
Proof. apply stays_emit. Qed.

Lemma stays_alert msg : stays (alert msg).
Proof. apply stays_emit. Qed.

Lemma stays_the_document : stays the_document.
Proof. apply stays_gets. Qed.

Lemma stays_Date_now : stays Date_now.
Proof. apply stays_gets. Qed.

Create HintDb stays.
#[export] Hint Resolve stays_ret stays_throw stays_pending stays_gets
  stays_emit stays_assign_value stays_console stays_alert stays_the_document
  stays_Date_now : stays.

Ltac stays :=
  repeat first
    [ progress intros
    | solve [auto with stays]
    | apply stays_bind
    | match goal with
      | |- stays (match ?x with _ => _ end) => destruct x
      | |- stays (if ?b then _ else _) => destruct b
      | |- stays (let _ := _ in _) => cbv zeta
      end ].

Section KeepsLocation.

Variable H : host.
Hypothesis Hkeeps : keeps_location H.

Lemma stays_sleep ms : stays (sleep H ms).
Proof. intros w r w' [= <- <-]. apply Hkeeps. Qed.

Lemma stays_click el : stays (click H el).
Proof. intros w r w' [= <- <-]. apply Hkeeps. Qed.

Lemma stays_dispatch_input el : stays (dispatch_input H el).
Proof. intros w r w' [= <- <-]. apply Hkeeps. Qed.

Lemma stays_findInputByLabel labelText : stays (findInputByLabel labelText).
Proof. unfold findInputByLabel. stays. Qed.

Hint Resolve stays_sleep stays_click stays_dispatch_input
  stays_findInputByLabel : stays.

Lemma stays_waitForLabels_poll fuel start timeout :
  stays (waitForLabels_poll H fuel start timeout).
Proof.
  induction fuel as [|fuel IH]; cbn [waitForLabels_poll]; stays.
Qed.

Hint Resolve stays_waitForLabels_poll : stays.

Lemma stays_waitForLabels timeout : stays (waitForLabels H timeout).
Proof. unfold waitForLabels. stays. Qed.

Lemma stays_navigate_poll fuel start : stays (navigate_poll H fuel start).
Proof.
  induction fuel as [|fuel IH]; cbn [navigate_poll]; stays.
Qed.

Hint Resolve stays_waitForLabels stays_navigate_poll : stays.

Lemma stays_updateExistingFilter row sender :
  stays (updateExistingFilter H row sender).
Proof. unfold updateExistingFilter. stays. Qed.

Lemma stays_createNewFilter P senderEmail labelName :
  stays (createNewFilter H P senderEmail labelName).
Proof. unfold createNewFilter. stays. Qed.

End KeepsLocation.

End Run.

(** ** The expressions on sample texts *)

Example validate_plain : validateEmail "jane@example.com" = true.
Proof. reflexivity. Qed.

Example validate_dots : validateEmail "a.b@c.d.e" = true.
Proof. reflexivity. Qed.

Example validate_no_dot : validateEmail "jane@example" = false.
Proof. reflexivity. Qed.

Example validate_space : validateEmail "ja ne@example.com" = false.
Proof. reflexivity. Qed.

Example extract_named :
  extractEmailAddress "Jane Doe <jane@example.com>" = "jane@example.com".
Proof. reflexivity. Qed.

Example extract_bare :
  extractEmailAddress "mail from jane@example.com today" = "jane@example.com".
Proof. reflexivity. Qed.

Example extract_trim : extractEmailAddress "  hello  " = "hello".
Proof. reflexivity. Qed.

Example extract_empty_brackets : extractEmailAddress "<> <a@b.c>" = "a@b.c".
Proof. reflexivity. Qed.

(** ** The text-parsing step *)

Module ParseClaims.
Import Address.

Lemma no_lt_no_segment s :
  ~ In "<"%char (Str.chars s) -> ~ has_bracket_segment s.
Proof.
  intros Hno (pre & body & post & E & _). apply Hno. rewrite E.
  apply in_or_app. right. by left.
Qed.

Lemma named_text_chars name addr :
  Str.chars (cat [name; " <"; addr; ">"])
  = (Str.chars name ++ [" "%char]) ++ "<"%char :: Str.chars addr ++ [">"%char].
Proof.
  unfold cat. cbn [fold_right]. rewrite !chars_app. cbn [Str.chars list_ascii_of_string].
  rewrite app_nil_r, <- app_assoc. done.
Qed.

(** C4, as the code has it: a text [Name <addr>] whose name has no [<] and
    whose valid address has no [>] is parsed to that address; a valid
    address without an angle-bracket segment, taken alone, is parsed to an
    address that passes the validation; a text without [@] is parsed to
    nothing. *)
Theorem C4_parse_sender_text :
  (forall name addr,
      validateEmail addr = true ->
      ~ In "<"%char (Str.chars name) -> ~ In ">"%char (Str.chars addr) ->
      parse_sender_text (cat [name; " <"; addr; ">"]) = Some addr)
  /\ (forall addr,
      validateEmail addr = true -> ~ has_bracket_segment addr ->
      exists a, parse_sender_text addr = Some a /\ validateEmail a = true)
  /\ (forall text,
      ~ In "@"%char (Str.chars text) -> parse_sender_text text = None).
Proof.
  split; [|split].
  - intros name addr Hv Hname Haddr.
    assert (Hx : extractEmailAddress (cat [name; " <"; addr; ">"]) = addr).
    { rewrite <- (of_chars_chars addr) at 2.
      apply (extract_bracket _ (Str.chars name ++ [" "%char]) _ []).
      - split; [apply named_text_chars|]. split; [|done].
        apply validateEmail_has_at in Hv. by destruct (Str.chars addr).
      - intros [H|[H|[]]]%in_app_or; [done|discriminate]. }
    rewrite <- Hx at 2. apply parse_sender_text_of_valid. by rewrite Hx.
  - intros addr Hv Hno.
    exists (extractEmailAddress addr).
    assert (Hx : validateEmail (extractEmailAddress addr) = true).
    { unfold extractEmailAddress. rewrite (exec_bracket_none _ Hno).
      destruct (exec bare_re addr) as [m|] eqn:Hm.
      - by apply bare_match_valid with addr.
      - unfold Str.trim.
        rewrite (trim_chars_id _ (validateEmail_no_space _ Hv)).
        by rewrite of_chars_chars. }
    split; [by apply parse_sender_text_of_valid|done].
  - intros text Hno. unfold parse_sender_text.
    destruct (validateEmail (extractEmailAddress text)) eqn:Hv.
    + apply validateEmail_has_at, extract_chars_In in Hv. done.
    + by rewrite andb_false_r.
Qed.

(** C4 on three texts: a named address, a bare address, a text without
    [@]. *)
Lemma C4_parse_sender_text_witness :
  parse_sender_text "Jane Doe <jane@example.com>" = Some "jane@example.com"
  /\ (exists a, parse_sender_text "jane@example.com" = Some a
                /\ validateEmail a = true)
  /\ parse_sender_text "Jane Doe" = None.
Proof.
  destruct C4_parse_sender_text as (Hnamed & Hbare & Hnone).
  split; [|split].
  - apply (Hnamed "Jane Doe" "jane@example.com").
    + reflexivity.
    + vm_compute. intuition discriminate.
    + vm_compute. intuition discriminate.
  - apply (Hbare "jane@example.com").
    + reflexivity.
    + apply no_lt_no_segment. vm_compute. intuition discriminate.
  - apply (Hnone "Jane Doe"). vm_compute. intuition discriminate.
Defined.

(** C4 as stated fails: a display name may contain [<], quoted or not, and
    a text that passes the validation may contain an angle-bracket segment;
    in each case the bracket expression captures something that is not an
    address and the step yields nothing. *)
Lemma C4_counterexample :
  validateEmail "jane@example.com" = true
  /\ extractEmailAddress "I <3 cats <jane@example.com>"
     = "3 cats <jane@example.com"
  /\ parse_sender_text "I <3 cats <jane@example.com>" = None
  /\ parse_sender_text (cat [dq; "I <3 cats"; dq; " <jane@example.com>"]) = None
  /\ validateEmail "<a>@b.c" = true
  /\ extractEmailAddress "<a>@b.c" = "a"
  /\ parse_sender_text "<a>@b.c" = None.
Proof. repeat split; reflexivity. Qed.

(** C10: a text with an angle-bracket segment is parsed to the contents of
    a segment, whatever else it holds: the leftmost one when no [<] comes
    before it.  The contents are returned as they are; the step yields them
    when they pass the validation and nothing otherwise, even when the text
    holds a valid bare address, as in a row of the sample message list. *)
Theorem C10_bracket_wins :
  (forall text,
      has_bracket_segment text ->
      exists pre body post,
        bracket_at pre body post (Str.chars text)
        /\ extractEmailAddress text = Str.of_chars body
        /\ parse_sender_text text
           = if validateEmail (Str.of_chars body)
             then Some (Str.of_chars body) else None)
  /\ (forall text pre body post,
      bracket_at pre body post (Str.chars text) -> ~ In "<"%char pre ->
      extractEmailAddress text = Str.of_chars body)
  /\ (extractEmailAddress "x <bad> good@a.com" = "bad"
      /\ parse_sender_text "x <bad> good@a.com" = None
      /\ (whole <$> exec bare_re "x <bad> good@a.com") = Some "good@a.com"
      /\ validateEmail "good@a.com" = true
      /\ method3 Sample.inbox Sample.row3 = None).
Proof.
  split; [|split].
  - intros text (pre & body & post & Hb & Hx)%extract_some_bracket.
    exists pre, body, post. split; [done|]. split; [done|].
    unfold parse_sender_text. rewrite Hx.
    destruct (validateEmail (Str.of_chars body)) eqn:Hv.
    + by rewrite (validateEmail_truthy _ Hv).
    + by rewrite andb_false_r.
  - intros text pre body post. apply extract_bracket.
  - repeat split; reflexivity.
Qed.

(** C10 on the text of the example. *)
Lemma C10_bracket_wins_witness :
  exists pre body post,
    bracket_at pre body post (Str.chars "x <bad> good@a.com")
    /\ extractEmailAddress "x <bad> good@a.com" = Str.of_chars body
    /\ parse_sender_text "x <bad> good@a.com"
       = if validateEmail (Str.of_chars body)
         then Some (Str.of_chars body) else None.
Proof.
  apply (proj1 C10_bracket_wins "x <bad> good@a.com").
  exists (Str.chars "x "), (Str.chars "bad"), (Str.chars " good@a.com").
  split; [reflexivity|]. split; [discriminate|].
  vm_compute. intuition discriminate.
Defined.

End ParseClaims.

(** ** The walk up the ancestors and the search of the rules *)

Module SearchFacts.

Lemma first_some_cons {A B} (f : A -> option B) x l :
  first_some f (x :: l)
  = match f x with Some y => Some y | None => first_some f l end.
Proof. unfold first_some. simpl. by destruct (f x). Qed.

Lemma first_some_None {A B} (f : A -> option B) l :
  first_some f l = None <-> forall x, In x l -> f x = None.
Proof.
  induction l as [|x l IH].
  - split; [intros _ ? []|done].
  - rewrite first_some_cons. destruct (f x) eqn:Hx.
    + split; [done|]. intros Hall. rewrite <- Hx. apply Hall. by left.
    + rewrite IH. split.
      * intros Hall y [<-|Hy]; auto.
      * intros Hall y Hy. apply Hall. by right.
Qed.

Lemma first_some_Some {A B} (f : A -> option B) l y :
  first_some f l = Some y ->
  exists before x after,
    l = before ++ x :: after /\ f x = Some y
    /\ forall z, In z before -> f z = None.
Proof.
  induction l as [|x l IH]; [done|].
  rewrite first_some_cons. destruct (f x) eqn:Hx.
  - intros [= ->]. exists [], x, l. done.
  - intros (before & x' & after & -> & Hx' & Hb)%IH.
    exists (x :: before), x', after. split; [done|]. split; [done|].
    intros z [<-|Hz]; auto.
Qed.

Lemma first_some_found {A B} (f : A -> option B) before x after y :
  f x = Some y -> (forall z, In z before -> f z = None) ->
  first_some f (before ++ x :: after) = Some y.
Proof.
  intros Hx. induction before as [|b before IH]; intros Hb; cbn [app].
  - by rewrite first_some_cons, Hx.
  - rewrite first_some_cons, (Hb b) by (by left).
    apply IH. intros z Hz. apply Hb. by right.
Qed.

Lemma find_first_such {A} (f : A -> bool) l x :
  find f l = Some x <-> first_such f l x.
Proof.
  induction l as [|a l IH]; simpl.
  - split; [done|]. intros (before & after & E & _). by destruct before.
  - destruct (f a) eqn:Ha.
    + split.
      * intros [= ->]. exists [], l. done.
      * intros (before & after & E & Hx & Hb).
        destruct before as [|b before]; simpl in E.
        -- congruence.
        -- injection E as <- E. rewrite Hb in Ha; [done|by left].
    + rewrite IH. split.
      * intros (before & after & -> & Hx & Hb).
        exists (a :: before), after. split; [done|]. split; [done|].
        intros y [<-|Hy]; auto.
      * intros (before & after & E & Hx & Hb).
        destruct before as [|b before]; simpl in E.
        -- injection E as -> _. congruence.
        -- injection E as <- ->. exists before, after.
           split; [done|]. split; [done|]. intros y Hy. apply Hb. by right.
Qed.

Lemma find_None {A} (f : A -> bool) l :
  find f l = None <-> forall x, In x l -> f x = false.
Proof.
  split; [apply find_none|].
  induction l as [|a l IH]; simpl; [done|].
  intros Hall. rewrite (Hall a) by (by left). apply IH. auto.
Qed.

Lemma validated_truthy a :
  (if Str.truthy a && validateEmail a then Some a else None) = validated a.
Proof. unfold validated. by destruct a. Qed.

(** The three methods of the loop body read what the heuristics say. *)
Lemma method1_descendant d cur : method1 d cur = descendant_address d cur.
Proof.
  unfold method1, descendant_address, querySelector.
  destruct (head _) as [[q [s|e kids]]|]; cbn; try done.
  destruct (getAttribute e "email") as [a|]; cbn; [|done].
  apply validated_truthy.
Qed.

Lemma method2_own d cur : method2 d cur = own_address d cur.
Proof.
  unfold method2, own_address, hasAttribute.
  destruct (data d cur) as [e|]; cbn; [|done].
  destruct (getAttribute e "email") as [a|]; cbn; [|done].
  apply validated_truthy.
Qed.

Lemma method3_displayed d cur : method3 d cur = displayed_address d cur.
Proof.
  unfold method3, displayed_address, querySelector, parse_sender_text.
  destruct (head _) as [[q n]|]; cbn; [|done].
  apply validated_truthy.
Qed.

Lemma level_candidate_heuristics d cur :
  level_candidate d cur = first_some (fun h => h d cur) heuristics.
Proof.
  unfold level_candidate, heuristics. rewrite !first_some_cons.
  rewrite method1_descendant, method2_own, method3_displayed.
  destruct (descendant_address d cur), (own_address d cur),
    (displayed_address d cur); done.
Qed.

Lemma walk_up_levels d left : forall el,
  walk_up d left (Some el)
  = first_some (level_candidate d) (take left (self_and_ancestors el)).
Proof.
  induction left as [|left IH]; intros el.
  - by destruct el.
  - destruct el as [|i up]; cbn [walk_up self_and_ancestors take];
      rewrite first_some_cons;
      destruct (level_candidate d _); try done.
    + by destruct left.
    + cbn [parentElement]. apply IH.
Qed.

Lemma method1_valid d cur email :
  method1 d cur = Some email -> validateEmail email = true.
Proof.
  unfold method1. destruct (querySelector _ _ _) as [[? [|emailEl ?]]|]; try done.
  destruct (getAttribute _ _) as [e|]; [|done].
  destruct (Str.truthy e && validateEmail e) eqn:E; [|done].
  intros [= <-]. by apply andb_prop in E as [_ ?].
Qed.

Lemma method2_valid d cur email :
  method2 d cur = Some email -> validateEmail email = true.
Proof.
  unfold method2. destruct (data _ _) as [c|]; [|done].
  destruct (hasAttribute _ _); [|done].
  destruct (getAttribute _ _) as [e|]; [|done].
  destruct (Str.truthy e && validateEmail e) eqn:E; [|done].
  intros [= <-]. by apply andb_prop in E as [_ ?].
Qed.

Lemma method3_valid d cur email :
  method3 d cur = Some email -> validateEmail email = true.
Proof.
  unfold method3. destruct (querySelector _ _ _) as [[? senderEl]|]; [|done].
  by intros [_ ?]%Address.parse_sender_text_valid.
Qed.

Lemma level_candidate_valid d cur email :
  level_candidate d cur = Some email -> validateEmail email = true.
Proof.
  unfold level_candidate.
  destruct (method1 d cur) eqn:H1.
  { intros [= <-]. by apply method1_valid in H1. }
  destruct (method2 d cur) eqn:H2.
  { intros [= <-]. by apply method2_valid in H2. }
  apply method3_valid.
Qed.

Lemma first_row_with_find marker rows :
  first_row_with marker rows
  = fst <$> find (fun row => Str.includes (textContent (snd row)) marker) rows.
Proof.
  induction rows as [|row rows IH]; simpl; [done|].
  by destruct (Str.includes _ _).
Qed.

End SearchFacts.

Module DomClaims.
Import SearchFacts.

(** C5: the walk looks at the element and at most fourteen of its
    ancestors, fifteen levels in all.  At each level it tries, in this
    order, the address attribute of the first descendant that has one, the
    address attribute of the element itself, and the address parsed from
    the text of the first descendant marked as a sender display, each
    counting only when it passes the validation.  Its result is the first
    address so obtained, in the order of the levels and, within a level, of
    the heuristics; every address it returns passes the validation; it
    returns nothing exactly when no heuristic yields an address at any of
    these levels. *)
Theorem C5_extractSenderFromElement (d : node) (el : path) :
  let levels := take 15 (self_and_ancestors el) in
  (length levels <= 15)%nat
  /\ extractSenderFromElement d el
     = first_some (fun cur => first_some (fun h => h d cur) heuristics) levels
  /\ (forall email,
        extractSenderFromElement d el = Some email ->
        validateEmail email = true
        /\ exists before cur after,
             levels = before ++ cur :: after
             /\ first_some (fun h => h d cur) heuristics = Some email
             /\ forall up h, In up before -> In h heuristics -> h d up = None)
  /\ (extractSenderFromElement d el = None <->
      forall cur h, In cur levels -> In h heuristics -> h d cur = None).
Proof.
  intros levels.
  assert (Hw : extractSenderFromElement d el
               = first_some (fun cur => first_some (fun h => h d cur) heuristics)
                   levels).
  { unfold extractSenderFromElement. rewrite walk_up_levels. fold levels.
    induction levels as [|cur l IH]; [done|].
    by rewrite !first_some_cons, level_candidate_heuristics, IH. }
  split; [|split; [done|split]].
  - unfold levels. rewrite length_take. lia.
  - intros email He. rewrite Hw in He.
    apply first_some_Some in He as (before & cur & after & E & Hc & Hb).
    split.
    + rewrite <- level_candidate_heuristics in Hc.
      by apply level_candidate_valid in Hc.
    + exists before, cur, after. split; [done|]. split; [done|].
      intros up h Hup Hh. specialize (Hb up Hup).
      by apply (proj1 (first_some_None _ _) Hb).
  - rewrite Hw, first_some_None. split.
    + intros Hall cur h Hcur Hh.
      by apply (proj1 (first_some_None _ _) (Hall cur Hcur)).
    + intros Hall cur Hcur. apply first_some_None. intros h Hh. by apply Hall.
Qed.

(** The bound of C5 on the sample pages: a sender shown fourteen levels
    above the element is found, one shown fifteen levels above is not. *)
Example walk_reaches_fifteen_levels :
  extractSenderFromElement (Sample.beside 14) (Sample.deep 14)
  = Some "jane@example.com"
  /\ extractSenderFromElement (Sample.beside 15) (Sample.deep 15) = None
  /\ extractSenderFromElement Sample.inbox Sample.subject1
     = Some "jane@example.com"
  /\ extractSenderFromElement Sample.inbox Sample.subject2
     = Some "bob@example.org".
Proof. repeat split; reflexivity. Qed.

(** What the heuristics read on the sample message list: the element's own
    attribute where it has no descendant with one, and the attribute of a
    descendant from the row above it. *)
Example heuristics_read_the_page :
  let sender2 : path := [0; 0; 1; 0]%nat in
  let row2 : path := [1; 0]%nat in
  descendant_address Sample.inbox sender2 = None
  /\ own_address Sample.inbox sender2 = Some "bob@example.org"
  /\ extractSenderFromElement Sample.inbox sender2 = Some "bob@example.org"
  /\ descendant_address Sample.inbox row2 = Some "bob@example.org"
  /\ own_address Sample.inbox row2 = None
  /\ extractSenderFromElement Sample.inbox row2 = Some "bob@example.org"
  /\ displayed_address Sample.inbox Sample.subject1 = None
  /\ displayed_address Sample.inbox [0; 0]%nat = Some "jane@example.com".
Proof. repeat split; reflexivity. Qed.

(** C6: the search returns nothing when no rendered row contains the
    marker of the label, and the first row that contains it otherwise,
    whatever the other rows hold; running it leaves the world as it is. *)
Theorem C6_findFilterByMetadata (P : string) (d : node) (labelName : string) :
  let marker := String.append P labelName in
  let rows := document_querySelectorAll d sel_filter_rows in
  let contains row := Str.includes (textContent (snd row)) marker in
  ((forall row, In row rows -> contains row = false) ->
   findFilterByMetadata P d labelName = None)
  /\ (forall row, first_such contains rows row ->
      findFilterByMetadata P d labelName = Some (fst row))
  /\ (forall w : world,
      doc (pg w) = d ->
      (d' ← the_document; mret (findFilterByMetadata P d' labelName)) w
      = (Ok (findFilterByMetadata P d labelName), w)).
Proof.
  intros marker rows contains.
  assert (Hf : findFilterByMetadata P d labelName = fst <$> find contains rows).
  { unfold findFilterByMetadata. by rewrite first_row_with_find. }
  split; [|split].
  - intros Hall. apply find_None in Hall. by rewrite Hf, Hall.
  - intros row Hrow%find_first_such. by rewrite Hf, Hrow.
  - intros w <-. reflexivity.
Qed.

(** C6 on the sample settings view: the rule of the label Newsletter is
    the second row; there is no rule for the label Work. *)
Lemma C6_findFilterByMetadata_witness :
  findFilterByMetadata Sample.prefix (Sample.settings "old@example.com")
    "Newsletter" = Some Sample.rule2
  /\ findFilterByMetadata Sample.prefix (Sample.settings "old@example.com")
       "Work" = None.
Proof.
  split.
  - refine (proj1 (proj2 (C6_findFilterByMetadata Sample.prefix
              (Sample.settings "old@example.com") "Newsletter"))
              (Sample.rule2, _) _).
    eexists [_], [_]. split; [reflexivity|]. split; [reflexivity|].
    intros y [<-|[]]. reflexivity.
  - apply (proj1 (C6_findFilterByMetadata Sample.prefix
             (Sample.settings "old@example.com") "Work")).
    intros row Hrow. vm_compute in Hrow.
    destruct Hrow as [<-|[<-|[<-|[]]]]; reflexivity.
Defined.

End DomClaims.

(** ** What a write leaves as it is *)

Module ShapeFacts.

Lemma node_nested_ind (P : node -> Prop) :
  (forall s, P (Text s)) ->
  (forall d kids, Forall P kids -> P (Elem d kids)) ->
  forall n, P n.
Proof.
  intros HT HE. fix IH 1. intros [s|d kids]; [apply HT|].
  apply HE. induction kids as [|k kids IHk]; constructor; [apply IH|apply IHk].
Qed.

Lemma textContent_erase n : textContent (erase n) = textContent n.
Proof.
  induction n as [s|d kids IH] using node_nested_ind; [done|].
  cbn [erase textContent].
  induction IH as [|k kids Hk _ IHkids]; [done|].
  cbn [map]. by rewrite Hk, IHkids.
Qed.

Lemma matches_erase sel n : matches sel (erase n) = matches sel n.
Proof. by destruct n. Qed.

Lemma children_from_erase kids :
  Forall (fun k => descendants (erase k) = map erased (descendants k)) kids ->
  forall i,
    children_from i (map erase kids) = map erased (children_from i kids).
Proof.
  induction 1 as [|k kids Hk _ IH]; intros i; [done|].
  cbn [map children_from]. rewrite !map_app, Hk, IH, !map_map.
  f_equal; [by destruct k|]. f_equal.
  apply map_ext. by intros [q m].
Qed.

Lemma descendants_erase n :
  descendants (erase n) = map erased (descendants n).
Proof.
  induction n as [s|d kids IH] using node_nested_ind; [done|].
  change (children_from 0 (map erase kids)
          = map erased (children_from 0 kids)).
  by apply children_from_erase.
Qed.

Lemma elements_erase d : elements (erase d) = map erased (elements d).
Proof.
  destruct d as [s|e kids]; [done|].
  unfold elements. cbn [map]. f_equal.
  apply (descendants_erase (Elem e kids)).
Qed.

Lemma select_erase sel l :
  select sel (map erased l) = map erased (select sel l).
Proof.
  unfold select. induction l as [|[q m] l IH]; [done|].
  cbn [map]. rewrite !filter_cons. cbn [erased fst snd].
  rewrite matches_erase.
  destruct (decide (matches sel m = true)); cbn [map]; by rewrite IH.
Qed.

Lemma find_erased (f g : path * node -> bool) l :
  (forall e, f (erased e) = g e) ->
  find f (map erased l) = erased <$> find g l.
Proof.
  intros Hfg. induction l as [|e l IH]; [done|].
  cbn [map find]. rewrite Hfg. by destruct (g e).
Qed.

Lemma find_label_erase d labelText :
  find_label (erase d) labelText = erased <$> find_label d labelText.
Proof.
  unfold find_label, document_querySelectorAll. cbv zeta.
  rewrite elements_erase, select_erase.
  set (labels := select sel_label (elements d)).
  rewrite (find_erased
             (fun l => String.eqb (Str.trim (textContent (snd l))) labelText)
             (fun l => String.eqb (Str.trim (textContent (snd l))) labelText))
    by (intros e; cbn [erased snd]; by rewrite textContent_erase).
  rewrite (find_erased
             (fun l => Str.includes (Str.toLowerCase (textContent (snd l)))
                         (Str.toLowerCase labelText))
             (fun l => Str.includes (Str.toLowerCase (textContent (snd l)))
                         (Str.toLowerCase labelText)))
    by (intros e; cbn [erased snd]; by rewrite textContent_erase).
  by destruct (find _ labels).
Qed.

Lemma getElementById_erase d id :
  getElementById (erase d) id = erased <$> getElementById d id.
Proof.
  unfold getElementById. rewrite elements_erase.
  apply find_erased. by intros [q [s|e kids]].
Qed.

(** The lookup of an input by its label does not depend on the values. *)
Lemma lookup_input_erase d labelText :
  lookup_input (erase d) labelText = lookup_input d labelText.
Proof.
  unfold lookup_input. rewrite find_label_erase.
  destruct (find_label d labelText) as [[q [s|e kids]]|];
    cbn [fmap option_fmap option_map erased snd fst erase]; try done.
  change (getAttribute (forget e) "for") with (getAttribute e "for").
  destruct (getAttribute e "for") as [[|c id]|]; try done.
  rewrite getElementById_erase.
  by destruct (getElementById d (String c id)).
Qed.

Lemma erase_update_at f p : forall n,
  (forall d, forget (f d) = forget d) ->
  erase (update_at f p n) = erase n.
Proof.
  intros n Hf. revert n.
  induction p as [|i p IH]; intros [s|d kids]; cbn [update_at erase]; try done.
  - by rewrite Hf.
  - f_equal. revert i. induction kids as [|k kids IHk]; intros [|i]; try done.
    + cbn. by rewrite IH.
    + cbn. f_equal. apply IHk.
Qed.

Lemma lookup_input_write d el v labelText :
  lookup_input (write_value d el v) labelText = lookup_input d labelText.
Proof.
  rewrite <- (lookup_input_erase (write_value d el v)),
    <- (lookup_input_erase d).
  unfold write_value. by rewrite erase_update_at.
Qed.

End ShapeFacts.

(** ** The update path, run symbolically *)

Module UpdateFacts.
Import Run.

Lemma starts_with_refl l : Str.starts_with l l = true.
Proof. induction l as [|c l IH]; simpl; [done|]. by rewrite Ascii.eqb_refl. Qed.

Lemma includes_chars_suffix x y : Str.includes_chars (x ++ y) y = true.
Proof.
  induction x as [|c x IH]; simpl.
  - destruct y; simpl; [done|]. by rewrite Ascii.eqb_refl, starts_with_refl.
  - by rewrite IH, orb_true_r.
Qed.

(** The value written by the update path contains the sender. *)
Lemma appended_includes cur sender :
  Str.includes (cat [cur; " | "; sender]) sender = true.
Proof.
  unfold Str.includes, cat. cbn [fold_right].
  rewrite !chars_app. cbn [Str.chars list_ascii_of_string].
  rewrite app_nil_r, app_assoc. apply includes_chars_suffix.
Qed.

Lemma findInputByLabel_run labelText w :
  findInputByLabel labelText w
  = match lookup_input (doc (pg w)) labelText with
    | inl input => (Ok (Some input), w)
    | inr warning =>
        (Ok None,
         {| pg := pg w; now := now w;
            trace := trace w ++ [Console Warn [warning]] |})
    end.
Proof.
  unfold findInputByLabel. rewrite (bind_ok _ _ w (doc (pg w)) w) by done.
  destruct (lookup_input _ _); [by destruct w|done].
Qed.

(** What a run of [updateExistingFilter] does, case by case. *)
Lemma updateExistingFilter_run H row sender w :
  updateExistingFilter H row sender w
  = let p1 := opened H row (pg w) in
    match lookup_input (doc p1) "From" with
    | inr warning =>
        (Throw (Error "Could not find From input field"),
         {| pg := p1; now := now w + 1000;
            trace := trace w ++ [Click row; Console Warn [warning]] |})
    | inl inp =>
        match value_of (doc p1) inp with
        | None =>
            (Throw (TypeError
                      "Cannot read properties of undefined (reading 'includes')"),
             {| pg := p1; now := now w + 1000; trace := trace w ++ [Click row] |})
        | Some cur =>
            if Str.includes cur sender then
              (Ok tt,
               {| pg := match button "Cancel" (doc p1) with
                        | Some c => on_click H c p1
                        | None => p1
                        end;
                  now := now w + 1000;
                  trace := trace w ++
                    [Click row;
                     Console Log ["[Gmail Auto-Label] Sender already in filter"]]
                    ++ match button "Cancel" (doc p1) with
                       | Some c => [Click c]
                       | None => []
                       end |})
            else
              let v := cat [cur; " | "; sender] in
              let p2 := written H inp v p1 in
              match button "Update filter" (doc p2) with
              | Some u =>
                  (Ok tt,
                   {| pg := on_wait H 500 (on_click H u p2);
                      now := now w + 2000;
                      trace := trace w ++
                        [Click row; SetValue inp v; InputEvent inp;
                         Console Log ["[Gmail Auto-Label] Appended sender to filter"];
                         Click u;
                         Console Log
                           ["[Gmail Auto-Label] Clicked Update filter button"]] |})
              | None =>
                  (Ok tt,
                   {| pg := p2; now := now w + 1500;
                      trace := trace w ++
                        [Click row; SetValue inp v; InputEvent inp;
                         Console Log ["[Gmail Auto-Label] Appended sender to filter"]]
                   |})
              end
        end
    end.
Proof.
  unfold updateExistingFilter.
  do 2 (erewrite bind_ok by reflexivity).
  rewrite bind_run, findInputByLabel_run.
  cbn [pg doc now trace]. fold (opened H row (pg w)).
  set (p1 := opened H row (pg w)). cbv zeta.
  destruct (lookup_input (doc p1) "From") as [inp|warning].
  2:{ cbn. by rewrite <- !app_assoc. }
  erewrite bind_ok by reflexivity. cbn [pg doc].
  destruct (value_of (doc p1) inp) as [cur|]; [|done].
  destruct (Str.includes cur sender).
  - erewrite bind_ok by reflexivity. unfold button.
    destruct (find _ _) as [c|]; prims; cbn [fmap option_fmap option_map];
      rewrite <- ?app_assoc; done.
  - do 5 (erewrite bind_ok by reflexivity).
    cbn [pg doc now trace]. fold (written H inp (cat [cur; " | "; sender]) p1).
    unfold button. destruct (find _ _) as [u|]; prims;
      cbn [fmap option_fmap option_map]; rewrite <- ?app_assoc.
    + f_equal. f_equal. lia.
    + f_equal. f_equal. lia.
Qed.

Lemma at_path_update f p : forall n,
  at_path (update_at f p n) p
  = match at_path n p with
    | Some (Elem d kids) => Some (Elem (f d) kids)
    | other => other
    end.
Proof.
  induction p as [|i p IH]; intros [s|d kids]; try done.
  cbn [update_at at_path]. rewrite list_lookup_alter_eq.
  destruct (kids !! i) as [k|]; [|done]. cbn. apply IH.
Qed.

Lemma value_of_write d el v cur :
  value_of d el = Some cur ->
  value_of (write_value d el v) el = Some (strip_newlines v).
Proof.
  unfold value_of, data, resolve, write_value. rewrite at_path_update.
  by destruct (at_path d (rev el)) as [[?|? ?]|].
Qed.

(** A run writes the From input at most once, and only a value that
    contains the sender. *)
Lemma update_writes_once H row sender w r w' :
  updateExistingFilter H row sender w = (r, w') ->
  exists t,
    trace w' = trace w ++ t
    /\ (length (filter (fun e => is_write e = true) t) <= 1)%nat
    /\ forall el x, In (SetValue el x) t -> Str.includes x sender = true.
Proof.
  rewrite updateExistingFilter_run. cbv zeta.
  destruct (lookup_input _ _) as [inp|warning].
  2:{ intros [= <- <-]. eexists. split; [done|]. split; [vm_compute; lia|].
      intros el x [|[|[]]]; done. }
  destruct (value_of _ _) as [cur|].
  2:{ intros [= <- <-]. eexists. split; [done|]. split; [vm_compute; lia|].
      intros el x [|[]]; done. }
  destruct (Str.includes cur sender) eqn:Hin.
  - intros [= <- <-]. eexists. split; [done|].
    destruct (button "Cancel" _); (split; [vm_compute; lia|]).
    + intros el x [|[|[|[]]]]; done.
    + intros el x [|[|[]]]; done.
  - destruct (button "Update filter" _); intros [= <- <-];
      (eexists; split; [done|]; split; [vm_compute; lia|]).
    + intros el x [|[E|[|[|[|[|[]]]]]]]; try done.
      injection E as <- <-. apply appended_includes.
    + intros el x [|[E|[|[|[]]]]]; try done.
      injection E as <- <-. apply appended_includes.
Qed.

Lemma starts_with_iff needle : forall hay,
  Str.starts_with needle hay = true <-> exists post, hay = needle ++ post.
Proof.
  induction needle as [|a needle IH]; intros hay; cbn [Str.starts_with].
  - split; [by exists hay|done].
  - destruct hay as [|b hay].
    + split; [done|]. by intros [post [=]].
    + rewrite andb_true_iff, IH, Ascii.eqb_eq. split.
      * intros [-> [post ->]]. by exists post.
      * intros [post [= -> ->]]. split; [done|]. by exists post.
Qed.

Lemma includes_chars_iff needle : forall hay,
  Str.includes_chars hay needle = true
  <-> exists pre post, hay = pre ++ needle ++ post.
Proof.
  induction hay as [|h hay IH]; cbn [Str.includes_chars];
    rewrite orb_true_iff, starts_with_iff.
  - split.
    + intros [[post ->]|]; [|done]. by exists [], post.
    + intros (pre & post & E). left. destruct pre; [by exists post|done].
  - rewrite IH. split.
    + intros [[post ->]|(pre & post & ->)]; [by exists [], post|].
      by exists (h :: pre), post.
    + intros ([|p pre] & post & E).
      * left. by exists post.
      * right. injection E as -> ->. by exists pre, post.
Qed.

Lemma includes_trans a b c :
  Str.includes a b = true -> Str.includes b c = true ->
  Str.includes a c = true.
Proof.
  unfold Str.includes. rewrite !includes_chars_iff.
  intros (p1 & q1 & ->) (p2 & q2 & ->).
  exists (p1 ++ p2), (q2 ++ q1). by rewrite <- !app_assoc.
Qed.

Lemma includes_self a : Str.includes a a = true.
Proof.
  unfold Str.includes. apply includes_chars_iff.
  exists [], []. by rewrite app_nil_r.
Qed.

Lemma chars_strip_newlines s :
  Str.chars (strip_newlines s)
  = List.filter (fun c => negb (Str.is_line_break c)) (Str.chars s).
Proof. apply chars_of_chars. Qed.

(** What the From input keeps of the value written by the update path
    contains the sender, when the sender has no line break. *)
Lemma written_includes cur sender :
  no_line_break sender ->
  Str.includes (strip_newlines (cat [cur; " | "; sender])) sender = true.
Proof.
  intros Hsender. unfold Str.includes. rewrite chars_strip_newlines.
  unfold cat. cbn [fold_right]. rewrite !chars_app, !List.filter_app.
  cbn [Str.chars list_ascii_of_string]. rewrite app_nil_r.
  replace (List.filter _ (list_ascii_of_string sender))
    with (list_ascii_of_string sender).
  - rewrite app_assoc. apply includes_chars_suffix.
  - symmetry. unfold no_line_break, Str.chars in Hsender.
    induction (list_ascii_of_string sender) as [|c l IH]; [done|].
    cbn in Hsender. apply andb_prop in Hsender as [Hc Hl].
    cbn [List.filter]. rewrite Hc. f_equal. by apply IH.
Qed.

(** An address that passes the validation has no line break. *)
Lemma valid_no_line_break email :
  validateEmail email = true -> no_line_break email.
Proof.
  intros Hspace%Address.validateEmail_no_space. unfold no_line_break.
  rewrite forallb_forall in *. intros c Hc. specialize (Hspace c Hc).
  destruct (Str.is_line_break c) eqn:Hbreak; [|done].
  unfold Str.is_line_break in Hbreak. unfold Str.is_space in Hspace.
  cbv zeta in Hbreak, Hspace.
  apply orb_prop in Hbreak as [E%N.eqb_eq|E%N.eqb_eq];
    by rewrite E in Hspace.
Qed.

Lemma from_field_written p inp cur v :
  from_field p = Some (inp, cur) ->
  from_field {| doc := write_value (doc p) inp v; fragment := fragment p |}
  = Some (inp, strip_newlines v).
Proof.
  unfold from_field. cbn [doc]. rewrite ShapeFacts.lookup_input_write.
  destruct (lookup_input (doc p) "From") as [inp'|]; [|done].
  destruct (value_of (doc p) inp') as [cur'|] eqn:Hcur; [|done].
  intros [= -> ->]. by rewrite (value_of_write _ _ _ cur).
Qed.

Lemma shows_step text f p : keeps_from f -> shows text p -> shows text (f p).
Proof.
  intros Hf (inp & v & Hp & Hv).
  destruct (Hf p inp v Hp) as (inp' & v' & Hp' & Hv').
  exists inp', v'. split; [done|]. by apply includes_trans with v.
Qed.

(** A run that does not return normally has written nothing. *)
Lemma update_failed_writes_nothing H row sender w r w' :
  updateExistingFilter H row sender w = (r, w') ->
  r <> Ok tt ->
  exists t,
    trace w' = trace w ++ t /\ filter (fun e => is_write e = true) t = [].
Proof.
  rewrite updateExistingFilter_run. cbv zeta.
  destruct (lookup_input _ _) as [inp|warning].
  2:{ intros [= <- <-] _. by eexists. }
  destruct (value_of _ _) as [cur|].
  2:{ intros [= <- <-] _. by eexists. }
  destruct (Str.includes cur sender).
  - by intros [= <- <-].
  - by destruct (button "Update filter" _); intros [= <- <-].
Qed.

(** A run that finds the sender in the From field. *)
Lemma update_when_shown H row sender w :
  shows sender (opened H row (pg w)) ->
  exists inp v,
    lookup_input (doc (opened H row (pg w))) "From" = inl inp
    /\ value_of (doc (opened H row (pg w))) inp = Some v
    /\ Str.includes v sender = true
    /\ updateExistingFilter H row sender w
       = (Ok tt,
          {| pg := match button "Cancel" (doc (opened H row (pg w))) with
                   | Some c => on_click H c (opened H row (pg w))
                   | None => opened H row (pg w)
                   end;
             now := now w + 1000;
             trace := trace w ++
               [Click row;
                Console Log ["[Gmail Auto-Label] Sender already in filter"]]
               ++ match button "Cancel" (doc (opened H row (pg w))) with
                  | Some c => [Click c]
                  | None => []
                  end |}).
Proof.
  intros (inp & v & Hfield & Hin). unfold from_field in Hfield.
  destruct (lookup_input _ "From") as [inp'|] eqn:Hfrom; [|done].
  destruct (value_of _ inp') as [v'|] eqn:Hv; [|done].
  injection Hfield as -> ->.
  exists inp, v. split; [done|]. split; [done|]. split; [done|].
  rewrite updateExistingFilter_run. cbv zeta. by rewrite Hfrom, Hv, Hin.
Qed.

Section KeepsFrom.

Variable H : host.
Hypothesis Hkeeps : keeps_from_field H.

Lemma shows_click text el p : shows text p -> shows text (on_click H el p).
Proof. apply shows_step, Hkeeps. Qed.

Lemma shows_input text el p : shows text p -> shows text (on_input H el p).
Proof. apply shows_step, Hkeeps. Qed.

Lemma shows_wait text ms p : shows text p -> shows text (on_wait H ms p).
Proof. apply shows_step, Hkeeps. Qed.

(** After a run that returns normally the From field is shown and holds
    the sender. *)
Lemma first_run_shows row sender w w1 :
  no_line_break sender ->
  updateExistingFilter H row sender w = (Ok tt, w1) ->
  shows sender (pg w1).
Proof.
  intros Hsender. rewrite updateExistingFilter_run. cbv zeta.
  set (p1 := opened H row (pg w)).
  destruct (lookup_input (doc p1) "From") as [inp|] eqn:Hfrom; [|done].
  destruct (value_of (doc p1) inp) as [cur|] eqn:Hcur; [|done].
  assert (Hfield : from_field p1 = Some (inp, cur)).
  { unfold from_field. by rewrite Hfrom, Hcur. }
  destruct (Str.includes cur sender) eqn:Hin.
  - assert (Hp1 : shows sender p1) by (by exists inp, cur).
    intros [= <-]. cbn [pg].
    destruct (button "Cancel" (doc p1)); [by apply shows_click|done].
  - assert (Hp2 : shows sender (written H inp (cat [cur; " | "; sender]) p1)).
    { apply shows_wait, shows_input.
      exists inp, (strip_newlines (cat [cur; " | "; sender])).
      split; [by apply from_field_written with cur|].
      by apply written_includes. }
    destruct (button "Update filter" _); intros [= <-]; cbn [pg]; [|done].
    by apply shows_wait, shows_click.
Qed.

End KeepsFrom.

End UpdateFacts.

(** ** The workflow *)

Module WorkflowClaims.
Import Run UpdateFacts.

(** C7: when a sender is found and the user cancels the prompt, or answers
    with nothing but white space, the handler returns normally; the page,
    its location and the clock are as before, and all the script has done
    is to log the sender, ask for the label and log the cancellation: no
    click, no write, no navigation, no alert and no error. *)
Theorem C7_blank_label_is_noop (H : host) (P : string) (el : path)
    (sender : string) (w : world) :
  let question :=
    cat ["Enter the label name to auto-apply for emails from:";
         String (ascii_of_nat 10) ""; sender] in
  extractSenderFromElement (doc (pg w)) el = Some sender ->
  (prompt_answer H question = None
   \/ exists answer,
        prompt_answer H question = Some answer /\ Str.trim answer = "") ->
  handleAutoLabelClick H P (Some el) w
  = (Ok tt,
     {| pg := pg w; now := now w;
        trace := trace w ++
          [Console Log ["[Gmail Auto-Label] Found sender:"; sender];
           Prompt question;
           Console Log
             ["[Gmail Auto-Label] User cancelled or entered empty label name"]]
     |}).
Proof.
  intros question Hsender Hanswer.
  unfold handleAutoLabelClick, try_catch.
  rewrite (bind_ok _ _ w (doc (pg w)) w) by reflexivity.
  rewrite Hsender.
  do 2 (erewrite bind_ok by reflexivity). fold question.
  destruct Hanswer as [->|(answer & -> & Hblank)].
  - cbn. by rewrite <- !app_assoc.
  - unfold blank. rewrite Hblank, orb_true_r. cbn. by rewrite <- !app_assoc.
Qed.

(** C7 on the sample message list, with a user who answers two spaces. *)
Lemma C7_blank_label_is_noop_witness :
  handleAutoLabelClick (Sample.inert (Some "  ")) Sample.prefix
    (Some Sample.subject1) (Sample.start_of Sample.inbox "inbox")
  = (Ok tt,
     {| pg := {| doc := Sample.inbox; fragment := "inbox" |}; now := 0;
        trace :=
          [Console Log ["[Gmail Auto-Label] Found sender:"; "jane@example.com"];
           Prompt
             (cat ["Enter the label name to auto-apply for emails from:";
                   String (ascii_of_nat 10) ""; "jane@example.com"]);
           Console Log
             ["[Gmail Auto-Label] User cancelled or entered empty label name"]]
     |}).
Proof.
  apply (C7_blank_label_is_noop (Sample.inert (Some "  ")) Sample.prefix
           Sample.subject1 "jane@example.com"
           (Sample.start_of Sample.inbox "inbox")).
  - reflexivity.
  - right. exists "  ". split; reflexivity.
Defined.

(** C9: when the From input of the opened rule holds [old@example.com],
    the update path for [jane@example.com] writes
    [old@example.com | jane@example.com] into it and dispatches the input
    event on it.  After the settle delay it looks for the first [button],
    or [span] of role [link], whose text contains [Update filter]: when
    there is one it clicks it, once, logs and waits again; when there is
    none it clicks nothing more and returns normally all the same.  Right
    after the write the input holds the new value. *)
Theorem C9_update_appends_sender (H : host) (row inp : path) (w : world) :
  let p1 := opened H row (pg w) in
  let v := "old@example.com | jane@example.com" in
  let p2 :=
    on_wait H 500
      (on_input H inp
         {| doc := write_value (doc p1) inp v; fragment := fragment p1 |}) in
  let update_button :=
    fst <$> find (fun el => Str.includes (textContent (snd el)) "Update filter")
              (document_querySelectorAll (doc p2)
                 [[Tag "button"]; [Tag "span"; AttrIs "role" "link"]]) in
  lookup_input (doc p1) "From" = inl inp ->
  value_of (doc p1) inp = Some "old@example.com" ->
  updateExistingFilter H row "jane@example.com" w
  = match update_button with
    | Some upd =>
        (Ok tt,
         {| pg := on_wait H 500 (on_click H upd p2);
            now := now w + 2000;
            trace := trace w ++
              [Click row; SetValue inp v; InputEvent inp;
               Console Log ["[Gmail Auto-Label] Appended sender to filter"];
               Click upd;
               Console Log ["[Gmail Auto-Label] Clicked Update filter button"]]
         |})
    | None =>
        (Ok tt,
         {| pg := p2; now := now w + 1500;
            trace := trace w ++
              [Click row; SetValue inp v; InputEvent inp;
               Console Log ["[Gmail Auto-Label] Appended sender to filter"]] |})
    end
  /\ value_of (write_value (doc p1) inp v) inp = Some v.
Proof.
  intros p1 v p2 update_button Hfrom Hold. split.
  - rewrite updateExistingFilter_run. cbv zeta. fold p1.
    rewrite Hfrom, Hold.
    change (Str.includes "old@example.com" "jane@example.com") with false.
    change (cat ["old@example.com"; " | "; "jane@example.com"]) with v.
    cbv iota.
    change (written H inp v p1) with p2.
    change (button "Update filter" (doc p2)) with update_button.
    by destruct update_button.
  - by rewrite (value_of_write _ _ _ "old@example.com").
Qed.

(** C9 on the sample settings view, where the update button is there, with
    a host that leaves the page as the script makes it. *)
Lemma C9_update_appends_sender_witness :
  updateExistingFilter (Sample.inert None) Sample.rule2 "jane@example.com"
    (Sample.start_of (Sample.settings "old@example.com") "settings/filters")
  = (Ok tt,
     {| pg := {| doc := Sample.settings "old@example.com | jane@example.com";
                 fragment := "settings/filters" |};
        now := 2000;
        trace :=
          [Click Sample.rule2;
           SetValue Sample.from_input "old@example.com | jane@example.com";
           InputEvent Sample.from_input;
           Console Log ["[Gmail Auto-Label] Appended sender to filter"];
           Click Sample.update_button;
           Console Log ["[Gmail Auto-Label] Clicked Update filter button"]] |}).
Proof.
  pose proof (C9_update_appends_sender (Sample.inert None) Sample.rule2
                Sample.from_input
                (Sample.start_of (Sample.settings "old@example.com")
                   "settings/filters")) as Hrun.
  cbv zeta in Hrun.
  exact (proj1 (Hrun ltac:(reflexivity) ltac:(reflexivity))).
Defined.

(** The claim of C9 fails where the form has no update button: the From
    input holds [old@example.com], the update path writes and notifies, and
    then returns normally with the row as the only element it has clicked,
    500 ms earlier than with a button. *)
Lemma C9_counterexample :
  value_of Pages.unsaved_form Pages.unsaved_from = Some "old@example.com"
  /\ Str.includes "old@example.com" "jane@example.com" = false
  /\ updateExistingFilter (Sample.inert None) Pages.unsaved_row
       "jane@example.com"
       (Sample.start_of Pages.unsaved_form "settings/filters")
     = (Ok tt,
        {| pg := {| doc := write_value Pages.unsaved_form Pages.unsaved_from
                             "old@example.com | jane@example.com";
                    fragment := "settings/filters" |};
           now := 1500;
           trace :=
             [Click Pages.unsaved_row;
              SetValue Pages.unsaved_from "old@example.com | jane@example.com";
              InputEvent Pages.unsaved_from;
              Console Log ["[Gmail Auto-Label] Appended sender to filter"]] |})
  /\ value_of (write_value Pages.unsaved_form Pages.unsaved_from
                 "old@example.com | jane@example.com") Pages.unsaved_from
     = Some "old@example.com | jane@example.com"
  /\ find (fun el => Str.includes (textContent (snd el)) "Update filter")
       (document_querySelectorAll
          (write_value Pages.unsaved_form Pages.unsaved_from
             "old@example.com | jane@example.com")
          [[Tag "button"]; [Tag "span"; AttrIs "role" "link"]])
     = None.
Proof. repeat split; vm_compute; reflexivity. Qed.



(** Why C3 asks for a sender without line break: a text input drops the
    line breaks of what is assigned to it, so a sender that has one, which
    the validation never lets through, is not found again and is appended
    by the second run as well. *)
Example line_break_is_appended_twice :
  let sender := cat ["jane"; String (ascii_of_nat 10) ""; "@example.com"] in
  let w := Sample.start_of (Sample.settings "old@example.com")
             "settings/filters" in
  let run := updateExistingFilter (Sample.inert None) Sample.rule2 sender in
  validateEmail sender = false
  /\ value_of (doc (pg (snd (run w)))) Sample.from_input
     = Some "old@example.com | jane@example.com"
  /\ value_of (doc (pg (snd (run (snd (run w)))))) Sample.from_input
     = Some "old@example.com | jane@example.com | jane@example.com"
  /\ length (filter (fun e => is_write e = true)
               (trace (snd (run (snd (run w)))))) = 2%nat.
Proof. repeat split; vm_compute; reflexivity. Qed.

(** C8: the creation path looks for its button among the [button] and
    [a] elements and the [span] and [div] elements of role [link], trying
    its four texts in their order: the button is the first candidate, in
    document order, that contains the first text that some candidate
    contains.  When there is one the path clicks it right after its first
    log line; there is none exactly when no candidate contains any of the
    texts, and then the path throws the error of the missing button, having
    done nothing but log. *)
Theorem C8_create_button_or_fail (H : host) (P senderEmail labelName : string)
    (w : world) :
  let d := doc (pg w) in
  let candidates :=
    document_querySelectorAll d
      [[Tag "button"]; [Tag "a"]; [Tag "span"; AttrIs "role" "link"];
       [Tag "div"; AttrIs "role" "link"]] in
  let variants :=
    ["Create a new filter"; "Create new filter"; "New filter"; "Create filter"] in
  let contains (text : string) (el : path * node) :=
    Str.includes (textContent (snd el)) text in
  let w0 :=
    {| pg := pg w; now := now w;
       trace := trace w ++
         [Console Log
            ["[Gmail Auto-Label] Looking for 'Create filter' button..."]] |} in
  find_create_button d buttonTexts
  = fst <$> first_some (fun text => find (contains text) candidates) variants
  /\ (forall b,
        find_create_button d buttonTexts = Some b <->
        exists earlier text later n,
          variants = earlier ++ text :: later
          /\ first_such (contains text) candidates (b, n)
          /\ forall t el,
               In t earlier -> In el candidates -> contains t el = false)
  /\ (forall b,
        find_create_button d buttonTexts = Some b ->
        exists r w' t,
          createNewFilter H P senderEmail labelName w = (r, w')
          /\ trace w' = trace w0 ++ Click b :: t)
  /\ (find_create_button d buttonTexts = None <->
      forall text el,
        In text variants -> In el candidates -> contains text el = false)
  /\ (find_create_button d buttonTexts = None ->
      createNewFilter H P senderEmail labelName w
      = (Throw (Error "Could not find 'Create a new filter' button"), w0)).
Proof.
  intros d candidates variants contains w0.
  assert (Hloop : forall texts,
    find_create_button d texts
    = fst <$> first_some (fun text => find (contains text) candidates) texts).
  { induction texts as [|text texts IH]; [done|].
    cbn [find_create_button].
    change (document_querySelectorAll d sel_create_buttons) with candidates.
    change (has_text text) with (contains text).
    rewrite SearchFacts.first_some_cons.
    by destruct (find (contains text) candidates). }
  split; [exact (Hloop buttonTexts)|].
  split; [|split; [|split]].
  - intros b. rewrite Hloop. change buttonTexts with variants. split.
    + intros Hb.
      destruct (first_some _ variants) as [[b' n]|] eqn:Hfirst; [|done].
      injection Hb as ->.
      apply SearchFacts.first_some_Some in Hfirst
        as (earlier & text & later & E & Hfound & Hearlier).
      exists earlier, text, later, n. split; [done|].
      split; [by apply SearchFacts.find_first_such|].
      intros t el Ht. by apply SearchFacts.find_None, Hearlier.
    + intros (earlier & text & later & n & -> & Hfound & Hearlier).
      rewrite (SearchFacts.first_some_found _ earlier text later (b, n));
        [done|by apply SearchFacts.find_first_such|].
      intros t Ht. apply SearchFacts.find_None. intros el. by apply Hearlier.
  - intros b Hb. unfold createNewFilter.
    do 2 (erewrite bind_ok by reflexivity). cbn [pg doc]. fold d. rewrite Hb.
    erewrite bind_ok by reflexivity.
    match goal with
    | |- exists r w' t, ?m ?w1 = (r, w') /\ _ =>
        destruct (m w1) as [r w'] eqn:E;
        assert (G : grows m) by grows;
        destruct (G _ _ _ E) as [t Ht]
    end.
    exists r, w', t. split; [done|]. rewrite Ht. cbn.
    by rewrite <- !app_assoc.
  - rewrite Hloop. change buttonTexts with variants.
    destruct (first_some _ variants) as [found|] eqn:Hfirst.
    + split; [done|]. intros Hnone.
      apply SearchFacts.first_some_Some in Hfirst
        as (earlier & text & later & E & Hfound & _).
      apply find_some in Hfound as [Hin Hc].
      rewrite (Hnone text found) in Hc; [done| |done].
      rewrite E. apply in_elt.
    + split; [|done]. intros _ text el Htext.
      apply (SearchFacts.find_None (contains text) candidates).
      by apply (proj1 (SearchFacts.first_some_None _ _) Hfirst).
  - intros Hb. unfold createNewFilter.
    do 2 (erewrite bind_ok by reflexivity). cbn [pg doc]. fold d. by rewrite Hb.
Qed.

(** C8 on the sample pages: the link with the first text is taken although
    a link with the fourth text comes before it; a link with the fourth
    text is taken when it is the only one; with no candidate the path
    throws. *)
Lemma C8_create_button_or_fail_witness :
  find_create_button (Sample.settings "old@example.com") buttonTexts
  = Some Sample.long_link
  /\ find_create_button Pages.last_variant buttonTexts = Some Pages.the_link
  /\ createNewFilter (Sample.inert None) Sample.prefix "jane@example.com"
       "Newsletter" (Sample.start_of Sample.bare_settings "settings/filters")
     = (Throw (Error "Could not find 'Create a new filter' button"),
        {| pg := {| doc := Sample.bare_settings; fragment := "settings/filters" |};
           now := 0;
           trace :=
             [Console Log
                ["[Gmail Auto-Label] Looking for 'Create filter' button..."]] |}).
Proof.
  split; [reflexivity|]. split; [reflexivity|].
  pose proof (C8_create_button_or_fail (Sample.inert None) Sample.prefix
                "jane@example.com" "Newsletter"
                (Sample.start_of Sample.bare_settings "settings/filters"))
    as Hcreate.
  cbv zeta in Hcreate. apply Hcreate. reflexivity.
Defined.

End WorkflowClaims.

(** ** The polling waits and the restoration of the location *)

Module WaitFacts.
Import Run.

Lemma waitForLabels_poll_timeout H timeout start p0 t0 :
  0 <= timeout ->
  (forall k, has_labels (after_waits H 100 k p0) = false) ->
  forall r k fuel,
    (0 < r <= fuel)%nat ->
    Z.of_nat k + Z.of_nat r = timeout / 100 + 1 ->
    waitForLabels_poll H fuel start timeout
      {| pg := after_waits H 100 k p0; now := start + 100 * Z.of_nat k;
         trace := t0 |}
    = (Throw (Error "Timeout waiting for form labels"),
       {| pg := after_waits H 100 (k + r) p0;
          now := start + 100 * (timeout / 100 + 1);
          trace := t0 |}).
Proof.
  intros Htimeout Hnever.
  pose proof (Z.mul_div_le timeout 100 eq_refl) as Hlo.
  pose proof (Z.mul_succ_div_gt timeout 100 eq_refl) as Hhi.
  induction r as [|r IH]; intros k fuel Hr Hk; [lia|].
  destruct fuel as [|fuel]; [lia|].
  cbn [waitForLabels_poll].
  do 3 (erewrite bind_ok by reflexivity). cbn [pg doc now trace].
  change (on_wait H 100 (after_waits H 100 k p0))
    with (after_waits H 100 (S k) p0).
  specialize (Hnever (S k)). unfold has_labels in Hnever. rewrite Hnever.
  destruct (decide (r = 0)%nat) as [->|Hr0].
  - replace (timeout <? start + 100 * Z.of_nat k + 100 - start)%Z with true
      by (symmetry; apply Z.ltb_lt; lia).
    unfold throw. replace (k + 1)%nat with (S k) by lia.
    f_equal. f_equal. lia.
  - replace (timeout <? start + 100 * Z.of_nat k + 100 - start)%Z with false
      by (symmetry; apply Z.ltb_ge; lia).
    replace (start + 100 * Z.of_nat k + 100)
      with (start + 100 * Z.of_nat (S k)) by lia.
    rewrite IH by lia. by replace (S k + r)%nat with (k + S r)%nat by lia.
Qed.

Lemma navigate_poll_timeout H start p0 t0 :
  (forall k, has_settings (after_waits H 200 k p0) = false) ->
  forall r k fuel,
    (0 < r <= fuel)%nat -> (k + r = 50)%nat ->
    navigate_poll H fuel start
      {| pg := after_waits H 200 k p0; now := start + 200 * Z.of_nat k;
         trace := t0 |}
    = (Ok tt,
       {| pg := after_waits H 200 50 p0; now := start + 10000; trace := t0 |}).
Proof.
  intros Hnever.
  induction r as [|r IH]; intros k fuel Hr Hk; [lia|].
  destruct fuel as [|fuel]; [lia|].
  cbn [navigate_poll].
  erewrite bind_ok by reflexivity. cbn [pg doc now trace].
  destruct (decide (r = 0)%nat) as [->|Hr0].
  - replace (start + 10000 <=? start + 200 * Z.of_nat k + 200)%Z with true
      by (symmetry; apply Z.leb_le; lia).
    unfold sleep. cbn [pg doc now trace].
    replace (start + 10000 - (start + 200 * Z.of_nat k)) with 200 by lia.
    change (on_wait H 200 (after_waits H 200 k p0))
      with (after_waits H 200 (S k) p0).
    replace (S k) with 50%nat by lia. f_equal. f_equal. lia.
  - replace (start + 10000 <=? start + 200 * Z.of_nat k + 200)%Z with false
      by (symmetry; apply Z.leb_gt; lia).
    do 2 (erewrite bind_ok by reflexivity). cbn [pg doc now trace].
    change (on_wait H 200 (after_waits H 200 k p0))
      with (after_waits H 200 (S k) p0).
    specialize (Hnever (S k)). unfold has_settings in Hnever.
    destruct (document_querySelector _ _); [done|].
    replace (start + 200 * Z.of_nat k + 200)
      with (start + 200 * Z.of_nat (S k)) by lia.
    apply IH; lia.
Qed.

Lemma ensures_bind {A B} Q (m : M A) (f : A -> M B) :
  (forall a, ensures Q (f a)) -> ensures Q (m ≫= f).
Proof.
  intros Hf w b w'. rewrite bind_run.
  destruct (m w) as [[a|e|] w1]; [apply Hf|done|done].
Qed.

Lemma ensures_throw {A} Q e : ensures Q (@throw A e).
Proof. by intros w a w'. Qed.

Lemma ensures_try_catch {A} Q (m : M A) handler :
  ensures Q m -> (forall e, ensures Q (handler e)) ->
  ensures Q (try_catch m handler).
Proof.
  intros Hm Hh w a w'. unfold try_catch.
  destruct (m w) as [[a'|e|] w1] eqn:E; [|apply Hh|done].
  intros [= <- <-]. by apply (Hm _ _ _ E).
Qed.

Lemma ensures_set_hash v :
  ensures (fun w' => fragment (pg w') = strip_hash v) (set_hash v).
Proof. by intros w a w' [= _ <-]. Qed.

(** Reading the location and assigning what was read gives it back. *)
Lemma strip_hash_location p :
  (if String.eqb (strip_hash (location_hash p)) ""
   then "" else String "#" (strip_hash (location_hash p)))
  = location_hash p.
Proof.
  unfold location_hash.
  destruct (String.eqb (fragment p) "") eqn:E; [done|].
  cbn [strip_hash]. by rewrite E.
Qed.

(** When the workflow returns normally the location is the one it started
    from. *)
Lemma createOrUpdateFilter_restores H P senderEmail labelName w w' :
  createOrUpdateFilter H P senderEmail labelName w = (Ok tt, w') ->
  location_hash (pg w') = location_hash (pg w).
Proof.
  unfold createOrUpdateFilter.
  rewrite (bind_ok _ _ w (location_hash (pg w)) w) by reflexivity.
  intros Hrun.
  assert (Hfrag : fragment (pg w') = strip_hash (location_hash (pg w))).
  { revert Hrun.
    apply (ensures_try_catch
             (fun w' => fragment (pg w') = strip_hash (location_hash (pg w)))).
    - do 3 (apply ensures_bind; intros ?). apply ensures_set_hash.
    - intros e. apply ensures_bind. intros _. apply ensures_throw. }
  rewrite <- (strip_hash_location (pg w)), <- Hfrag. done.
Qed.

Lemma after_waits_inert answer ms k p :
  after_waits (Sample.inert answer) ms k p = p.
Proof. induction k as [|k IH]; [done|]. cbn. apply IH. Qed.

End WaitFacts.

Module TimingClaims.
Import Run WaitFacts.

(** C1 fails on the code: the location is assigned back only at the end of
    the [try] block, and the handler of the workflow logs and throws again.
    So whenever the workflow throws, on a page that leaves the location to
    the script, the location it ends at is the settings view, whatever
    location it started from. *)
Theorem C1_failure_leaves_settings (H : host) (P senderEmail labelName : string)
    (w w' : world) (e : js_error) :
  keeps_location H ->
  createOrUpdateFilter H P senderEmail labelName w = (Throw e, w') ->
  location_hash (pg w') = "#settings/filters".
Proof.
  intros Hkeeps. unfold createOrUpdateFilter.
  rewrite (bind_ok _ _ w (location_hash (pg w)) w) by reflexivity.
  unfold try_catch. rewrite bind_run.
  assert (Hnav : forall r w1, navigateToFiltersSettings H w = (r, w1) ->
            fragment (pg w1) = "settings/filters").
  { unfold navigateToFiltersSettings. intros r w1.
    do 3 (erewrite bind_ok by reflexivity).
    by intros ->%(stays_navigate_poll H Hkeeps). }
  assert (Hshown : forall p, fragment p = "settings/filters" ->
            location_hash p = "#settings/filters").
  { intros p Hp. unfold location_hash. by rewrite Hp. }
  assert (Hhandler : forall e1 w2,
            fragment (pg w2) = "settings/filters" ->
            (console Err ["[Gmail Auto-Label] Filter operation failed:"; message e1]
             ≫= fun _ => @throw unit e1) w2 = (Throw e, w') ->
            location_hash (pg w') = "#settings/filters").
  { intros e1 w2 Hw2 [= _ <-]. by apply Hshown. }
  destruct (navigateToFiltersSettings H w) as [[[]|e2|] w3] eqn:En;
    pose proof (Hnav _ _ eq_refl) as Hw3; [|by apply Hhandler|done].
  erewrite bind_ok by reflexivity. rewrite bind_run.
  match goal with
  | |- context [match ?branch w3 with _ => _ end] =>
      assert (Hbranch : stays branch)
        by (destruct (findFilterByMetadata P (doc (pg w3)) labelName);
            apply stays_bind; intros;
            auto using stays_console, stays_updateExistingFilter,
              stays_createNewFilter);
      destruct (branch w3) as [[[]|e3|] w4] eqn:Eb;
      pose proof (Hbranch _ _ _ Eb) as Hw4
  end.
  - done.
  - apply Hhandler. congruence.
  - done.
Qed.

(** C1 on a settings view without a rule for the label and without a
    button to create one: the creation path throws and the workflow, which
    started from the inbox, ends at the settings view. *)
Lemma C1_failure_leaves_settings_witness :
  let w := Sample.start_of Sample.bare_settings "inbox" in
  let run := createOrUpdateFilter (Sample.inert None) Sample.prefix
               "jane@example.com" "Newsletter" w in
  location_hash (pg w) = "#inbox"
  /\ fst run = Throw (Error "Could not find 'Create a new filter' button")
  /\ location_hash (pg (snd run)) = "#settings/filters"
  /\ filter (fun e => is_navigation e = true) (trace (snd run))
     = [SetHash "settings/filters"].
Proof.
  intros w run. split; [reflexivity|]. split; [reflexivity|]. split.
  - apply (C1_failure_leaves_settings (Sample.inert None) Sample.prefix
             "jane@example.com" "Newsletter" w (snd run)
             (Error "Could not find 'Create a new filter' button")).
    + by intros p.
    + reflexivity.
  - reflexivity.
Defined.

(** C2, as the code has it.  [waitForLabels] first looks at the page one
    interval (100 ms) after the call: when labels are there at that time it
    resolves then; when labels are never there it rejects with the timeout
    error at the first run of its timer later than [timeout], which is no
    later than [timeout + 100] ms after the call.
    [navigateToFiltersSettings] first looks one interval (200 ms) after the
    call and resolves 1000 ms after it has seen the settings content; when
    the content is never there it resolves 10000 ms after the call. *)
Theorem C2_polling_waits (H : host) (w : world) (timeout : Z) :
  let settings_view := assign_hash "settings/filters" (pg w) in
  (has_labels (after_waits H 100 1 (pg w)) = true ->
   waitForLabels H timeout w
   = (Ok tt,
      {| pg := after_waits H 100 1 (pg w); now := now w + 100;
         trace := trace w |}))
  /\ (0 <= timeout ->
      (forall k, has_labels (after_waits H 100 k (pg w)) = false) ->
      exists w',
        waitForLabels H timeout w
        = (Throw (Error "Timeout waiting for form labels"), w')
        /\ now w' = now w + 100 * (timeout / 100 + 1)
        /\ now w + timeout < now w' <= now w + timeout + 100)
  /\ (has_settings (after_waits H 200 1 settings_view) = true ->
      exists w',
        navigateToFiltersSettings H w = (Ok tt, w')
        /\ now w' = now w + 200 + 1000)
  /\ ((forall k, has_settings (after_waits H 200 k settings_view) = false) ->
      exists w',
        navigateToFiltersSettings H w = (Ok tt, w')
        /\ now w' = now w + 10000
        /\ now w' <= now w + 10000 + 200).
Proof.
  intros settings_view. split; [|split; [|split]].
  - intros Hlabels. unfold waitForLabels.
    erewrite bind_ok by reflexivity.
    replace (Z.to_nat (timeout / 100) + 2)%nat
      with (S (Z.to_nat (timeout / 100) + 1)) by lia.
    cbn [waitForLabels_poll].
    do 3 (erewrite bind_ok by reflexivity). cbn [pg doc now trace].
    unfold has_labels, after_waits in Hlabels. cbn [Nat.iter nat_rect] in Hlabels.
    by rewrite Hlabels.
  - intros Htimeout Hnever. eexists. split.
    + unfold waitForLabels. erewrite bind_ok by reflexivity.
      pose proof (Z.div_pos timeout 100 Htimeout eq_refl) as Hq.
      pose proof (waitForLabels_poll_timeout H timeout (now w) (pg w) (trace w)
                    Htimeout Hnever (Z.to_nat (timeout / 100) + 1) 0
                    (Z.to_nat (timeout / 100) + 2)) as Hrun.
      change (Z.of_nat 0) with 0 in Hrun.
      rewrite Z.mul_0_r, Z.add_0_r in Hrun.
      destruct w as [p n t]. apply Hrun; lia.
    + cbn [now].
      pose proof (Z.mul_div_le timeout 100 eq_refl).
      pose proof (Z.mul_succ_div_gt timeout 100 eq_refl).
      lia.
  - intros Hsettings. eexists. split.
    + unfold navigateToFiltersSettings.
      do 3 (erewrite bind_ok by reflexivity). cbn [pg doc now trace].
      change 50%nat with (S 49). cbn [navigate_poll].
      erewrite bind_ok by reflexivity. cbn [pg doc now trace].
      replace (now w + 10000 <=? now w + 200)%Z with false
        by (symmetry; apply Z.leb_gt; lia).
      do 2 (erewrite bind_ok by reflexivity). cbn [pg doc now trace].
      unfold has_settings, after_waits in Hsettings.
      cbn [Nat.iter nat_rect] in Hsettings. fold settings_view.
      destruct (document_querySelector _ _); [|done].
      erewrite bind_ok by reflexivity. cbn [pg doc now trace].
      reflexivity.
    + cbn [now]. lia.
  - intros Hnever. eexists. split.
    + unfold navigateToFiltersSettings.
      do 3 (erewrite bind_ok by reflexivity). cbn [pg doc now trace].
      fold settings_view.
      pose proof (navigate_poll_timeout H (now w) settings_view
                    ((trace w ++
                      [Console Log
                         ["[Gmail Auto-Label] Navigating to filters settings..."]]) ++
                     [SetHash "settings/filters"])
                    Hnever 50 0 50) as Hrun.
      change (Z.of_nat 0) with 0 in Hrun.
      rewrite Z.mul_0_r, Z.add_0_r in Hrun.
      apply Hrun; lia.
    + cbn [now]. lia.
Qed.

(** C2 on the sample pages, with a host that never changes the page: the
    form labels are there, or never there; the settings content is there,
    or never there. *)
Lemma C2_polling_waits_witness :
  waitForLabels (Sample.inert None) 5000
    (Sample.start_of (Sample.settings "old@example.com") "settings/filters")
  = (Ok tt,
     {| pg := {| doc := Sample.settings "old@example.com";
                 fragment := "settings/filters" |};
        now := 100; trace := [] |})
  /\ (exists w',
        waitForLabels (Sample.inert None) 5000
          (Sample.start_of Sample.bare_settings "settings/filters")
        = (Throw (Error "Timeout waiting for form labels"), w')
        /\ now w' = 5100)
  /\ (exists w',
        navigateToFiltersSettings (Sample.inert None)
          (Sample.start_of Sample.bare_settings "inbox") = (Ok tt, w')
        /\ now w' = 1200)
  /\ (exists w',
        navigateToFiltersSettings (Sample.inert None)
          (Sample.start_of Sample.inbox "inbox") = (Ok tt, w')
        /\ now w' = 10000).
Proof.
  split; [|split; [|split]].
  - apply (proj1 (C2_polling_waits (Sample.inert None)
             (Sample.start_of (Sample.settings "old@example.com")
                "settings/filters") 5000)).
    reflexivity.
  - destruct (proj1 (proj2 (C2_polling_waits (Sample.inert None)
                (Sample.start_of Sample.bare_settings "settings/filters") 5000)))
      as (w' & Hrun & Hnow & _).
    + lia.
    + intros k. rewrite after_waits_inert. reflexivity.
    + exists w'. split; [done|]. rewrite Hnow. reflexivity.
  - destruct (proj1 (proj2 (proj2 (C2_polling_waits (Sample.inert None)
                (Sample.start_of Sample.bare_settings "inbox") 5000))))
      as (w' & Hrun & Hnow).
    + reflexivity.
    + exists w'. split; [done|]. rewrite Hnow. reflexivity.
  - destruct (proj2 (proj2 (proj2 (C2_polling_waits (Sample.inert None)
                (Sample.start_of Sample.inbox "inbox") 5000))))
      as (w' & Hrun & Hnow & _).
    + intros k. rewrite after_waits_inert. reflexivity.
    + exists w'. split; [done|]. rewrite Hnow. reflexivity.
Defined.

(** C2 as stated fails: with form labels on the page at all times the wait
    does not resolve at once; its first look at the page is one full
    interval after the call, and so is its resolution.  The wait for the
    settings view, with the settings content there at all times, resolves
    1200 ms after the call. *)
Lemma C2_counterexample :
  let H := Sample.inert None in
  let w := Sample.start_of (Sample.settings "old@example.com")
             "settings/filters" in
  (forall k, has_labels (after_waits H 100 k (pg w)) = true)
  /\ fst (waitForLabels H 5000 w) = Ok tt
  /\ now (snd (waitForLabels H 5000 w)) - now w = 100
  /\ (forall k,
        has_settings
          (after_waits H 200 k (assign_hash "settings/filters" (pg w))) = true)
  /\ fst (navigateToFiltersSettings H w) = Ok tt
  /\ now (snd (navigateToFiltersSettings H w)) - now w = 1200.
Proof.
  intros H w. repeat split; try reflexivity.
  - intros k. unfold H. rewrite after_waits_inert. reflexivity.
  - intros k. unfold H. rewrite after_waits_inert. reflexivity.
Qed.

End TimingClaims.

(** ** More on the address expressions *)

Module TextFacts.
Import RegexFacts Address.

Lemma count_at_none l :
  forallb not_space_at l = true -> count_occ ascii_dec l "@"%char = 0%nat.
Proof.
  intros Hl. apply count_occ_not_In. intros Hin.
  apply (proj1 (forallb_forall _ _) Hl), not_space_at_char in Hin. tauto.
Qed.

Lemma drop_spaces_suffix l : exists pre, l = pre ++ Str.drop_spaces l.
Proof.
  induction l as [|c l [pre IH]]; [by exists []|].
  simpl. destruct (Str.is_space c).
  - exists (c :: pre). simpl. by rewrite <- IH.
  - by exists [].
Qed.

Lemma drop_spaces_nil l :
  Str.drop_spaces l = [] <-> forallb Str.is_space l = true.
Proof.
  induction l as [|c l IH]; simpl; [done|].
  destruct (Str.is_space c); simpl; [done|]. split; done.
Qed.

Lemma drop_spaces_head l c l' :
  Str.drop_spaces l = c :: l' -> Str.is_space c = false.
Proof.
  induction l as [|a l IH]; simpl; [done|].
  destruct (Str.is_space a) eqn:Ha; [done|]. by intros [= <- _].
Qed.

Lemma trim_chars_substring l :
  exists pre post, l = pre ++ Str.trim_chars l ++ post.
Proof.
  unfold Str.trim_chars.
  destruct (drop_spaces_suffix l) as [pre Hpre].
  destruct (drop_spaces_suffix (rev (Str.drop_spaces l))) as [q Hq].
  exists pre, (rev q). rewrite <- rev_app_distr, <- Hq, rev_involutive. done.
Qed.

Lemma trim_chars_nil l :
  Str.trim_chars l = [] <-> forallb Str.is_space l = true.
Proof.
  unfold Str.trim_chars. split.
  - intros E. apply (f_equal (@rev ascii)) in E.
    rewrite rev_involutive in E. cbn [rev] in E.
    apply drop_spaces_nil in E.
    destruct (Str.drop_spaces l) as [|c m] eqn:Em.
    + by apply drop_spaces_nil.
    + apply drop_spaces_head in Em.
      assert (Hc : In c (rev (c :: m))) by (apply in_rev; rewrite rev_involutive; by left).
      apply (proj1 (forallb_forall _ _) E) in Hc. congruence.
  - intros Hl. by rewrite (proj2 (drop_spaces_nil l) Hl).
Qed.

Lemma of_chars_nil l : Str.of_chars l = "" <-> l = [].
Proof.
  split; [|by intros ->].
  intros E. apply (f_equal Str.chars) in E. by rewrite chars_of_chars in E.
Qed.

Lemma bare_here_bos b b' l :
  match_here bare_re b l = match_here bare_re b' l.
Proof. reflexivity. Qed.

Lemma bare_search_complete pre : forall bos l,
  is_Some (match_here bare_re false l) ->
  is_Some (search_from bare_re bos (pre ++ l)).
Proof.
  induction pre as [|c pre IH]; intros bos l Hl.
  - cbn [app]. destruct l as [|c l]; cbn [search_from];
      rewrite (bare_here_bos bos false); by destruct Hl as [m ->].
  - cbn [app search_from].
    destruct (match_here bare_re bos (c :: pre ++ l)); [done|]. by apply IH.
Qed.

Lemma bare_search_has_at bos l m :
  search_from bare_re bos l = Some m -> In "@"%char (concat m).
Proof.
  intros (pre & rest & bos' & _ & Hconf)%search_from_sound.
  unfold bare_re in Hconf.
  destruct m as [|x [|[|a [|? ?]] [|y [|[|d [|? ?]] [|z [|? ?]]]]]];
    cbn [conforms] in Hconf; try tauto.
  destruct Hconf as (_ & _ & Ha & _). apply lit_eq in Ha as ->.
  cbn [concat]. apply in_or_app. right. by left.
Qed.

Lemma extract_substring text :
  exists pre post,
    Str.chars text = pre ++ Str.chars (extractEmailAddress text) ++ post.
Proof.
  unfold extractEmailAddress, exec.
  destruct (search_from bracket_re true (Str.chars text)) as [m|] eqn:Hb.
  { apply bracket_search_sound in Hb as (pre & body & post & (E & _) & ->).
    unfold segment. cbn [nth]. rewrite chars_of_chars.
    exists (pre ++ ["<"%char]), (">"%char :: post).
    rewrite E, <- app_assoc. done. }
  destruct (search_from bare_re true (Str.chars text)) as [m|] eqn:Hm.
  { apply search_from_sound in Hm as (pre & rest & _ & E & _).
    unfold whole. rewrite chars_of_chars. by exists pre, rest. }
  unfold Str.trim. rewrite chars_of_chars. apply trim_chars_substring.
Qed.

End TextFacts.

Module TextExtras.
Import RegexFacts Address TextFacts.

(** X1: [validateEmail] accepts exactly the texts [x@y.z] whose three
    parts are not empty and hold neither white space nor [@]; so an
    accepted text has exactly one [@], no white space and at least five
    characters. *)
Theorem X1_validateEmail_exact (email : string) :
  (validateEmail email = true <-> address_shape (Str.chars email))
  /\ (validateEmail email = true ->
      count_occ ascii_dec (Str.chars email) "@"%char = 1%nat
      /\ forallb (fun c => negb (Str.is_space c)) (Str.chars email) = true
      /\ (5 <= length (Str.chars email))%nat).
Proof.
  split; [apply validateEmail_shape|].
  intros Hv. split; [|split; [by apply validateEmail_no_space|]].
  - apply validateEmail_shape in Hv
      as (x & y & z & -> & _ & _ & _ & Hx & Hy & Hz).
    rewrite count_occ_app, count_occ_cons_eq by done.
    rewrite count_occ_app, count_occ_cons_neq by done.
    rewrite !count_at_none by done. done.
  - apply validateEmail_shape in Hv
      as (x & y & z & -> & Hx & Hy & Hz & _).
    rewrite length_app. cbn [length]. rewrite length_app. cbn [length].
    destruct x, y, z; cbn [length]; try done; lia.
Qed.

(** X2: what [extractEmailAddress] returns is a piece of its input, taken
    as it stands; it is empty exactly when the input is empty or all
    white space. *)
Theorem X2_extract_is_verbatim (text : string) :
  (exists pre post,
      Str.chars text = pre ++ Str.chars (extractEmailAddress text) ++ post)
  /\ (extractEmailAddress text = ""
      <-> forallb Str.is_space (Str.chars text) = true).
Proof.
  split; [apply extract_substring|].
  unfold extractEmailAddress, exec.
  destruct (search_from bracket_re true (Str.chars text)) as [m|] eqn:Hb.
  { apply bracket_search_sound in Hb as (pre & body & post & (E & Hne & _) & ->).
    unfold segment. cbn [nth]. rewrite of_chars_nil. split; [done|].
    intros Hall. rewrite E in Hall.
    rewrite forallb_app in Hall. by apply andb_prop in Hall as [_ ?]. }
  destruct (search_from bare_re true (Str.chars text)) as [m|] eqn:Hm.
  { pose proof (bare_search_has_at _ _ _ Hm) as Hat.
    apply search_from_sound in Hm as (pre & rest & _ & E & _).
    unfold whole. rewrite of_chars_nil. split.
    - intros Hnil. by rewrite Hnil in Hat.
    - intros Hall. rewrite E in Hall.
      assert (Hin : In "@"%char (pre ++ concat m ++ rest)).
      { apply in_or_app. right. apply in_or_app. by left. }
      by apply (proj1 (forallb_forall _ _) Hall) in Hin. }
  unfold Str.trim. rewrite of_chars_nil. apply trim_chars_nil.
Qed.

(** X3: when a text has no angle-bracket segment and holds somewhere an
    address of the bare form (letters, digits, [_], [.], [-] around an [@],
    then a dot and letters, digits or [_]), the parsing step yields an
    address that passes the validation and is a piece of the text. *)
Theorem X3_bare_address_inside_text (text : string) (pre x y z post : list ascii) :
  ~ has_bracket_segment text ->
  Str.chars text = pre ++ x ++ "@"%char :: y ++ "."%char :: z ++ post ->
  x <> [] -> y <> [] -> z <> [] ->
  forallb word_dot_dash x = true -> forallb word_dot_dash y = true ->
  forallb Str.is_word z = true ->
  exists a,
    parse_sender_text text = Some a
    /\ validateEmail a = true
    /\ exists before after, Str.chars text = before ++ Str.chars a ++ after.
Proof.
  intros Hno E Hx Hy Hz Hxa Hya Hza.
  assert (Hfound : is_Some (exec bare_re text)).
  { unfold exec. rewrite E. apply bare_search_complete.
    replace (x ++ "@"%char :: y ++ "."%char :: z ++ post)
      with (concat [x; ["@"%char]; y; ["."%char]; z] ++ post)
      by (cbn [concat app];
          by rewrite app_nil_r, <- app_assoc, <- app_comm_cons, <- app_assoc,
               <- app_comm_cons).
    apply match_here_complete. unfold bare_re. cbn [conforms].
    unfold lit. rewrite !Ascii.eqb_refl. repeat split; done. }
  destruct Hfound as [m Hm].
  assert (Hx' : extractEmailAddress text = whole m).
  { unfold extractEmailAddress. by rewrite (exec_bracket_none _ Hno), Hm. }
  pose proof (bare_match_valid _ _ Hm) as Hv.
  exists (whole m). split; [|split; [done|]].
  - rewrite <- Hx'. apply parse_sender_text_of_valid. by rewrite Hx'.
  - rewrite <- Hx'. apply extract_substring.
Qed.

(** X3 on a sentence that mentions an address. *)
Lemma X3_bare_address_inside_text_witness :
  exists a,
    parse_sender_text "mail from jane@example.com today" = Some a
    /\ validateEmail a = true
    /\ exists before after,
         Str.chars "mail from jane@example.com today"
         = before ++ Str.chars a ++ after.
Proof.
  apply (X3_bare_address_inside_text "mail from jane@example.com today"
           (Str.chars "mail from ") (Str.chars "jane") (Str.chars "example")
           (Str.chars "com") (Str.chars " today")); try done.
  apply ParseClaims.no_lt_no_segment. vm_compute. intuition discriminate.
Defined.

End TextExtras.

(** ** More on [findInputByLabel] *)

Module LabelFacts.
Import SearchFacts.

Lemma select_In sel l x :
  In x (select sel l) -> In x l /\ matches sel (snd x) = true.
Proof.
  unfold select. rewrite <- !list_elem_of_In, list_elem_of_filter. tauto.
Qed.

Lemma matches_label n :
  matches sel_label n = true -> exists d kids, n = Elem d kids /\ tag d = "label".
Proof.
  destruct n as [s|d kids]; [done|]. cbn [matches sel_label existsb forallb matches_simple].
  rewrite orb_false_r, andb_true_r. intros E%String.eqb_eq. eauto.
Qed.

Lemma includes_chars_nil hay : Str.includes_chars hay [] = true.
Proof. by destruct hay. Qed.

Lemma includes_chars_refl l : Str.includes_chars l l = true.
Proof.
  destruct l as [|c l]; [done|].
  cbn [Str.includes_chars]. by rewrite UpdateFacts.starts_with_refl.
Qed.

Lemma find_is_Some {A} (f : A -> bool) l x :
  In x l -> f x = true -> is_Some (find f l).
Proof.
  intros Hin Hx. destruct (find f l) eqn:E; [eauto|].
  rewrite (proj1 (find_None f l) E x Hin) in Hx. done.
Qed.

(** Where the input comes from when [lookup_input] finds one. *)
Lemma lookup_input_sound d labelText input :
  lookup_input d labelText = inl input ->
  exists lp ld lkids id n,
    In (lp, Elem ld lkids) (document_querySelectorAll d sel_label)
    /\ tag ld = "label"
    /\ (Str.trim (textContent (Elem ld lkids)) = labelText
        \/ Str.includes (Str.toLowerCase (textContent (Elem ld lkids)))
             (Str.toLowerCase labelText) = true)
    /\ getAttribute ld "for" = Some id /\ id <> ""
    /\ first_such (has_id id) (elements d) (input, n).
Proof.
  unfold lookup_input.
  destruct (find_label d labelText) as [[lp ln]|] eqn:Hl; [|done].
  assert (Hin : In (lp, ln) (document_querySelectorAll d sel_label)
                /\ (Str.trim (textContent ln) = labelText
                    \/ Str.includes (Str.toLowerCase (textContent ln))
                         (Str.toLowerCase labelText) = true)).
  { unfold find_label in Hl.
    destruct (find _ _) as [l|] eqn:Hexact.
    - injection Hl as ->. apply find_some in Hexact as [Hin E].
      split; [done|]. left. by apply String.eqb_eq.
    - apply find_some in Hl as [Hin E]. split; [done|]. by right. }
  destruct Hin as [Hin Htext].
  destruct (select_In _ _ _ Hin) as [_ (ld & lkids & E & Htag)%matches_label].
  cbn [snd] in E. subst ln. cbn [snd].
  destruct (getAttribute ld "for") as [id|] eqn:Hfor; [|done].
  destruct id as [|c id]; [done|].
  destruct (getElementById d (String c id)) as [[ip n]|] eqn:Hid; [|done].
  intros [= <-]. exists lp, ld, lkids, (String c id), n.
  split; [done|]. split; [done|]. split; [done|]. split; [done|].
  split; [done|]. by apply find_first_such.
Qed.

(** On a form whose first label contains the text of the second, the second
    label, whose trimmed text is the text asked for, gives the input. *)
Example exact_label_wins :
  lookup_input Pages.two_labels "From" = inl [3%nat]
  /\ lookup_input Pages.two_labels "from" = inl [1%nat].
Proof. split; reflexivity. Qed.

End LabelFacts.

Module LabelExtras.
Import SearchFacts LabelFacts.

(** X4: [findInputByLabel] never throws and never touches the page or the
    clock; without a result it logs exactly one warning, with a result it
    logs nothing.  The input it returns is the first element of the
    document whose id is the non-empty [for] attribute of a [label]
    element, one whose trimmed text is the text asked for or whose text
    contains it without regard to case. *)
Theorem X4_findInputByLabel_contract (labelText : string) (w : world) :
  let d := doc (pg w) in
  (exists r w',
      findInputByLabel labelText w = (Ok r, w')
      /\ pg w' = pg w /\ now w' = now w
      /\ match r with
         | Some _ => trace w' = trace w
         | None => exists warning, trace w' = trace w ++ [Console Warn [warning]]
         end)
  /\ (forall input,
        fst (findInputByLabel labelText w) = Ok (Some input) ->
        exists lp ld lkids id n,
          In (lp, Elem ld lkids) (document_querySelectorAll d sel_label)
          /\ tag ld = "label"
          /\ (Str.trim (textContent (Elem ld lkids)) = labelText
              \/ Str.includes (Str.toLowerCase (textContent (Elem ld lkids)))
                   (Str.toLowerCase labelText) = true)
          /\ getAttribute ld "for" = Some id /\ id <> ""
          /\ first_such (has_id id) (elements d) (input, n)).
Proof.
  intros d. rewrite UpdateFacts.findInputByLabel_run. fold d.
  destruct (lookup_input d labelText) as [input|warning] eqn:Hl.
  - split.
    + by exists (Some input), w.
    + intros input' [= <-]. by apply lookup_input_sound.
  - split; [|done]. eexists None, _. split; [done|]. cbn. eauto.
Qed.

(** X5: how [findInputByLabel] chooses the label.  A label whose trimmed
    text is the text asked for wins over an earlier label that merely
    contains it; a label whose text differs from the text asked for only
    in case is enough for a label to be found; and for the empty text a
    label is found as soon as the document has one. *)
Theorem X5_label_choice (d : node) (labelText : string) :
  let labels := document_querySelectorAll d sel_label in
  (forall label,
      first_such (fun l => String.eqb (Str.trim (textContent (snd l))) labelText)
        labels label ->
      find_label d labelText = Some label)
  /\ (forall l,
        In l labels ->
        Str.toLowerCase (textContent (snd l)) = Str.toLowerCase labelText ->
        is_Some (find_label d labelText))
  /\ (find_label d "" = None <-> labels = []).
Proof.
  intros labels. unfold find_label. fold labels. split; [|split].
  - intros label Hfirst%find_first_such. by rewrite Hfirst.
  - intros l Hin Hcase.
    destruct (find _ labels) as [x|]; [eauto|].
    apply (find_is_Some _ _ l Hin).
    unfold Str.includes. rewrite Hcase. apply includes_chars_refl.
  - destruct (find _ labels) as [x|] eqn:Hexact.
    + split; [done|]. intros Hnil. by rewrite Hnil in Hexact.
    + destruct labels as [|l labels']; [done|]. split; [|done].
      cbn [find]. unfold Str.includes. cbn [Str.toLowerCase Str.chars list_ascii_of_string map].
      by rewrite includes_chars_nil.
Qed.

End LabelExtras.

(** ** The polling waits on any page *)

Module SettleFacts.
Import Run.

Lemma waitForLabels_poll_settles H timeout start p0 t0 :
  0 <= timeout ->
  forall rem k0 fuel,
    (0 < rem <= fuel)%nat ->
    (k0 + rem = Z.to_nat (timeout / 100) + 1)%nat ->
    exists k r,
      (k0 < k <= Z.to_nat (timeout / 100) + 1)%nat
      /\ waitForLabels_poll H fuel start timeout (tick H 100 start p0 t0 k0)
         = (r, tick H 100 start p0 t0 k)
      /\ (forall j, (k0 < j < k)%nat -> has_labels (after_waits H 100 j p0) = false)
      /\ if has_labels (after_waits H 100 k p0) then r = Ok tt
         else r = Throw (Error "Timeout waiting for form labels")
              /\ k = (Z.to_nat (timeout / 100) + 1)%nat.
Proof.
  intros Htimeout.
  pose proof (Z.mul_div_le timeout 100 eq_refl) as Hlo.
  pose proof (Z.mul_succ_div_gt timeout 100 eq_refl) as Hhi.
  pose proof (Z.div_pos timeout 100 Htimeout eq_refl) as Hq.
  induction rem as [|rem IH]; intros k0 fuel Hrem Hk0; [lia|].
  destruct fuel as [|fuel]; [lia|].
  cbn [waitForLabels_poll]. unfold tick at 1.
  do 3 (erewrite bind_ok by reflexivity). cbn [pg doc now trace].
  change (on_wait H 100 (after_waits H 100 k0 p0))
    with (after_waits H 100 (S k0) p0).
  replace (start + 100 * Z.of_nat k0 + 100)
    with (start + 100 * Z.of_nat (S k0)) by lia.
  fold (tick H 100 start p0 t0 (S k0)).
  fold (has_labels (after_waits H 100 (S k0) p0)).
  destruct (has_labels (after_waits H 100 (S k0) p0)) eqn:Hseen.
  { exists (S k0), (Ok tt). split; [lia|]. split; [done|].
    split; [intros j ?; lia|]. by rewrite Hseen. }
  destruct (decide (rem = 0)%nat) as [->|Hrem0].
  - replace (timeout <? start + 100 * Z.of_nat (S k0) - start)%Z with true
      by (symmetry; apply Z.ltb_lt; lia).
    exists (S k0), (Throw (Error "Timeout waiting for form labels")).
    split; [lia|]. split; [done|]. split; [intros j ?; lia|].
    rewrite Hseen. split; [done|lia].
  - replace (timeout <? start + 100 * Z.of_nat (S k0) - start)%Z with false
      by (symmetry; apply Z.ltb_ge; lia).
    destruct (IH (S k0) fuel) as (k & r & Hk & Hrun & Hbefore & Hend); [lia..|].
    exists k, r. split; [lia|]. split; [done|]. split; [|done].
    intros j Hj. destruct (decide (j = S k0)) as [->|]; [done|].
    apply Hbefore. lia.
Qed.

Lemma navigate_poll_settles H start p0 t0 :
  forall rem k0 fuel,
    (0 < rem <= fuel)%nat -> (k0 + rem = 50)%nat ->
    exists k w',
      (k0 < k <= 50)%nat
      /\ navigate_poll H fuel start (tick H 200 start p0 t0 k0) = (Ok tt, w')
      /\ now w' = start + Z.min (200 * Z.of_nat k + 1000) 10000
      /\ trace w' = t0
      /\ (forall j, (k0 < j < k)%nat ->
            has_settings (after_waits H 200 j p0) = false)
      /\ ((k < 50)%nat -> has_settings (after_waits H 200 k p0) = true).
Proof.
  induction rem as [|rem IH]; intros k0 fuel Hrem Hk0; [lia|].
  destruct fuel as [|fuel]; [lia|].
  cbn [navigate_poll]. unfold tick at 1.
  erewrite bind_ok by reflexivity. cbn [pg doc now trace].
  destruct (decide (rem = 0)%nat) as [->|Hrem0].
  - replace (start + 10000 <=? start + 200 * Z.of_nat k0 + 200)%Z with true
      by (symmetry; apply Z.leb_le; lia).
    exists 50%nat. eexists. split; [lia|]. split; [reflexivity|].
    cbn [now trace]. split; [lia|]. split; [done|].
    split; [|lia]. intros j ?. lia.
  - replace (start + 10000 <=? start + 200 * Z.of_nat k0 + 200)%Z with false
      by (symmetry; apply Z.leb_gt; lia).
    do 2 (erewrite bind_ok by reflexivity). cbn [pg doc now trace].
    change (on_wait H 200 (after_waits H 200 k0 p0))
      with (after_waits H 200 (S k0) p0).
    destruct (document_querySelector (doc (after_waits H 200 (S k0) p0))
                sel_settings) as [found|] eqn:Hseen.
    + erewrite bind_ok by reflexivity.
      exists (S k0). eexists. split; [lia|]. split; [reflexivity|].
      cbn [now trace pg]. split; [lia|]. split; [done|].
      split; [intros j ?; lia|]. intros _. unfold has_settings. by rewrite Hseen.
    + replace (start + 200 * Z.of_nat k0 + 200)
        with (start + 200 * Z.of_nat (S k0)) by lia.
      fold (tick H 200 start p0 t0 (S k0)).
      destruct (IH (S k0) fuel) as (k & w' & Hk & Hrun & Hnow & Htrace & Hbefore & Hat);
        [lia..|].
      exists k, w'. split; [lia|]. split; [done|]. split; [done|].
      split; [done|]. split; [|done].
      intros j Hj. destruct (decide (j = S k0)) as [->|].
      * unfold has_settings. by rewrite Hseen.
      * apply Hbefore. lia.
Qed.

End SettleFacts.

Module SettleExtras.
Import Run SettleFacts.

(** X6: on any page, [waitForLabels] settles at one of the runs of its
    100 ms timer, having changed nothing but the clock: it resolves at the
    first run at which the page has a [label] element, provided that run is
    not later than the first run past the timeout, and rejects with the
    timeout error at that run otherwise.  A label that shows up at the very
    run where the timeout expires still resolves the wait. *)
Theorem X6_waitForLabels_settles (H : host) (timeout : Z) (w : world) :
  0 <= timeout ->
  exists k r,
    (1 <= k <= Z.to_nat (timeout / 100) + 1)%nat
    /\ waitForLabels H timeout w
       = (r, {| pg := after_waits H 100 k (pg w);
                now := now w + 100 * Z.of_nat k; trace := trace w |})
    /\ (forall j, (1 <= j < k)%nat ->
          has_labels (after_waits H 100 j (pg w)) = false)
    /\ if has_labels (after_waits H 100 k (pg w)) then r = Ok tt
       else r = Throw (Error "Timeout waiting for form labels")
            /\ k = (Z.to_nat (timeout / 100) + 1)%nat.
Proof.
  intros Htimeout. unfold waitForLabels. erewrite bind_ok by reflexivity.
  destruct (waitForLabels_poll_settles H timeout (now w) (pg w) (trace w)
              Htimeout (Z.to_nat (timeout / 100) + 1) 0
              (Z.to_nat (timeout / 100) + 2))
    as (k & r & Hk & Hrun & Hbefore & Hend); [lia..|].
  exists k, r. split; [lia|]. split.
  - unfold tick in Hrun. cbn [after_waits Nat.iter nat_rect] in Hrun.
    change (Z.of_nat 0) with 0 in Hrun.
    rewrite Z.mul_0_r, Z.add_0_r in Hrun. by destruct w.
  - split; [|done]. intros j Hj. apply Hbefore. lia.
Qed.

(** X6 with the default timeout on a page without labels and on a page
    with them. *)
Lemma X6_waitForLabels_settles_witness :
  (exists k r,
      (1 <= k <= Z.to_nat (5000 / 100) + 1)%nat
      /\ waitForLabels (Sample.inert None) 5000
           (Sample.start_of Sample.bare_settings "settings/filters")
         = (r, {| pg := after_waits (Sample.inert None) 100 k
                          {| doc := Sample.bare_settings;
                             fragment := "settings/filters" |};
                  now := 0 + 100 * Z.of_nat k; trace := [] |})
      /\ (forall j, (1 <= j < k)%nat ->
            has_labels (after_waits (Sample.inert None) 100 j
                          {| doc := Sample.bare_settings;
                             fragment := "settings/filters" |}) = false)
      /\ if has_labels (after_waits (Sample.inert None) 100 k
                          {| doc := Sample.bare_settings;
                             fragment := "settings/filters" |})
         then r = Ok tt
         else r = Throw (Error "Timeout waiting for form labels")
              /\ k = (Z.to_nat (5000 / 100) + 1)%nat).
Proof.
  apply (X6_waitForLabels_settles (Sample.inert None) 5000
           (Sample.start_of Sample.bare_settings "settings/filters")).
  lia.
Defined.

(** X7: on any page, [navigateToFiltersSettings] resolves; it never
    throws.  It resolves 1000 ms after the first run of its 200 ms timer
    that sees the settings content, and in any case no later than 10000 ms
    after the call, so between 1200 ms and 10000 ms after the call; all it
    does besides waiting is to log and to set the location to the settings
    view. *)
Theorem X7_navigate_always_resolves (H : host) (w : world) :
  let view := assign_hash "settings/filters" (pg w) in
  exists k w',
    (1 <= k <= 50)%nat
    /\ navigateToFiltersSettings H w = (Ok tt, w')
    /\ now w' = now w + Z.min (200 * Z.of_nat k + 1000) 10000
    /\ now w + 1200 <= now w' <= now w + 10000
    /\ trace w'
       = trace w ++
         [Console Log ["[Gmail Auto-Label] Navigating to filters settings..."];
          SetHash "settings/filters"]
    /\ (forall j, (1 <= j < k)%nat ->
          has_settings (after_waits H 200 j view) = false)
    /\ ((k < 50)%nat -> has_settings (after_waits H 200 k view) = true).
Proof.
  intros view. unfold navigateToFiltersSettings.
  do 3 (erewrite bind_ok by reflexivity). cbn [pg doc now trace].
  fold view.
  destruct (navigate_poll_settles H (now w) view
              ((trace w ++
                [Console Log
                   ["[Gmail Auto-Label] Navigating to filters settings..."]]) ++
               [SetHash "settings/filters"]) 50 0 50)
    as (k & w' & Hk & Hrun & Hnow & Htrace & Hbefore & Hat); [lia..|].
  exists k, w'. split; [lia|]. split.
  - unfold tick in Hrun. cbn [after_waits Nat.iter nat_rect] in Hrun.
    change (Z.of_nat 0) with 0 in Hrun.
    rewrite Z.mul_0_r, Z.add_0_r in Hrun. exact Hrun.
  - split; [done|]. split; [lia|]. split.
    + by rewrite Htrace, <- app_assoc.
    + split; [|done]. intros j Hj. apply Hbefore. lia.
Qed.

End SettleExtras.

(** ** What the workflow does and how long it waits *)

Module FlowFacts.
Import Run SettleFacts.

(** *** Events *)

Section Emits.

Variable Q : event -> Prop.

Lemma emits_ret {A} (a : A) : emits_only Q (mret a).
Proof. intros w r w' [= <- <-]. exists []. by rewrite app_nil_r. Qed.

Lemma emits_throw {A} e : emits_only Q (@throw A e).
Proof. intros w r w' [= <- <-]. exists []. by rewrite app_nil_r. Qed.

Lemma emits_pending {A} : emits_only Q (@pending A).
Proof. intros w r w' [= <- <-]. exists []. by rewrite app_nil_r. Qed.

Lemma emits_gets {A} (f : world -> A) : emits_only Q (gets f).
Proof. intros w r w' [= <- <-]. exists []. by rewrite app_nil_r. Qed.

Lemma emits_on_page f : emits_only Q (on_page f).
Proof. intros w r w' [= <- <-]. exists []. by rewrite app_nil_r. Qed.

Lemma emits_sleep H ms : emits_only Q (sleep H ms).
Proof. intros w r w' [= <- <-]. exists []. by rewrite app_nil_r. Qed.

Lemma emits_emit e : Q e -> emits_only Q (emit e).
Proof. intros He w r w' [= <- <-]. exists [e]. split; [done|]. by constructor. Qed.

Lemma emits_bind {A B} (m : M A) (f : A -> M B) :
  emits_only Q m -> (forall a, emits_only Q (f a)) -> emits_only Q (m ≫= f).
Proof.
  intros Hm Hf w r w'. rewrite bind_run.
  destruct (m w) as [[a|e|] w1] eqn:E; destruct (Hm _ _ _ E) as (t & Ht & HQ).
  - intros (t' & Ht' & HQ')%Hf. exists (t ++ t').
    split; [by rewrite Ht', Ht, app_assoc|]. by apply Forall_app.
  - intros [= <- <-]. by exists t.
  - intros [= <- <-]. by exists t.
Qed.

Lemma emits_try_catch {A} (m : M A) handler :
  emits_only Q m -> (forall e, emits_only Q (handler e)) ->
  emits_only Q (try_catch m handler).
Proof.
  intros Hm Hh w r w'. unfold try_catch.
  destruct (m w) as [[a|e|] w1] eqn:E; destruct (Hm _ _ _ E) as (t & Ht & HQ).
  - intros [= <- <-]. by exists t.
  - intros (t' & Ht' & HQ')%Hh. exists (t ++ t').
    split; [by rewrite Ht', Ht, app_assoc|]. by apply Forall_app.
  - intros [= <- <-]. by exists t.
Qed.

Lemma emits_console lvl args : Q (Console lvl args) -> emits_only Q (console lvl args).
Proof. apply emits_emit. Qed.

Lemma emits_alert msg : Q (Alert msg) -> emits_only Q (alert msg).
Proof. apply emits_emit. Qed.

Lemma emits_the_document : emits_only Q the_document.
Proof. apply emits_gets. Qed.

Lemma emits_Date_now : emits_only Q Date_now.
Proof. apply emits_gets. Qed.

Lemma emits_get_hash : emits_only Q get_hash.
Proof. apply emits_gets. Qed.

Lemma emits_set_hash v : Q (SetHash v) -> emits_only Q (set_hash v).
Proof.
  intros Hv. apply emits_bind; [by apply emits_emit|]. intros _. apply emits_on_page.
Qed.

Lemma emits_assign_value el v :
  Q (SetValue el v) -> emits_only Q (assign_value el v).
Proof.
  intros Hv. apply emits_bind; [by apply emits_emit|]. intros _. apply emits_on_page.
Qed.

Lemma emits_click H el : Q (Click el) -> emits_only Q (click H el).
Proof.
  intros Hv. apply emits_bind; [by apply emits_emit|]. intros _. apply emits_on_page.
Qed.

Lemma emits_dispatch_input H el :
  Q (InputEvent el) -> emits_only Q (dispatch_input H el).
Proof.
  intros Hv. apply emits_bind; [by apply emits_emit|]. intros _. apply emits_on_page.
Qed.

End Emits.

Create HintDb emits.
#[export] Hint Resolve emits_ret emits_throw emits_pending emits_gets
  emits_on_page emits_sleep emits_console emits_alert emits_the_document
  emits_Date_now emits_get_hash emits_set_hash emits_assign_value emits_click
  emits_dispatch_input : emits.
#[export] Hint Extern 1 (workflow_event _ _ _ _ _) => cbn; eauto : emits.

Ltac emits :=
  repeat first
    [ progress intros
    | solve [eauto with emits]
    | apply emits_bind
    | apply emits_try_catch
    | match goal with
      | |- emits_only _ (match ?x with _ => _ end) => destruct x
      | |- emits_only _ (if ?b then _ else _) => destruct b
      | |- emits_only _ (let _ := _ in _) => cbv zeta
      end ].

Section WorkflowEvents.

Variable H : host.
Variables P senderEmail labelName original : string.

Lemma emits_findInputByLabel labelText : emits_only (workflow_event P senderEmail labelName original)
    (findInputByLabel labelText).
Proof. unfold findInputByLabel. emits. Qed.

Hint Resolve emits_findInputByLabel : emits.

Lemma emits_waitForLabels_poll fuel start timeout :
  emits_only (workflow_event P senderEmail labelName original)
    (waitForLabels_poll H fuel start timeout).
Proof. induction fuel as [|fuel IH]; cbn [waitForLabels_poll]; emits. Qed.

Hint Resolve emits_waitForLabels_poll : emits.

Lemma emits_waitForLabels timeout : emits_only (workflow_event P senderEmail labelName original)
    (waitForLabels H timeout).
Proof. unfold waitForLabels. emits. Qed.

Lemma emits_navigate_poll fuel start : emits_only (workflow_event P senderEmail labelName original)
    (navigate_poll H fuel start).
Proof. induction fuel as [|fuel IH]; cbn [navigate_poll]; emits. Qed.

Hint Resolve emits_waitForLabels emits_navigate_poll : emits.

Lemma emits_navigate : emits_only (workflow_event P senderEmail labelName original)
    (navigateToFiltersSettings H).
Proof. unfold navigateToFiltersSettings. emits. Qed.

Lemma emits_updateExistingFilter row :
  emits_only (workflow_event P senderEmail labelName original)
    (updateExistingFilter H row senderEmail).
Proof. unfold updateExistingFilter. emits. Qed.

Lemma emits_createNewFilter :
  emits_only (workflow_event P senderEmail labelName original)
    (createNewFilter H P senderEmail labelName).
Proof. unfold createNewFilter. emits. Qed.

End WorkflowEvents.

(** *** Waiting *)

Lemma settles_ret {A} (a : A) b : 0 <= b -> settles b (mret a).
Proof. intros Hb w r w' [= <- <-]. split; [done|lia]. Qed.

Lemma settles_throw {A} e b : 0 <= b -> settles b (@throw A e).
Proof. intros Hb w r w' [= <- <-]. split; [done|lia]. Qed.

Lemma settles_gets {A} (f : world -> A) : settles 0 (gets f).
Proof. intros w r w' [= <- <-]. split; [done|lia]. Qed.

Lemma settles_emit e : settles 0 (emit e).
Proof. intros w r w' [= <- <-]. split; [done|cbn; lia]. Qed.

Lemma settles_on_page f : settles 0 (on_page f).
Proof. intros w r w' [= <- <-]. split; [done|cbn; lia]. Qed.

Lemma settles_sleep H ms : 0 <= ms -> settles ms (sleep H ms).
Proof. intros Hms w r w' [= <- <-]. split; [done|cbn; lia]. Qed.

Lemma settles_bind_le {A B} (m : M A) (f : A -> M B) b1 b :
  settles b1 m -> b1 <= b -> (forall a, settles (b - b1) (f a)) ->
  settles b (m ≫= f).
Proof.
  intros Hm Hb Hf w r w'. rewrite bind_run.
  destruct (m w) as [[a|e|] w1] eqn:E; destruct (Hm _ _ _ E) as [Hr Hw1].
  - intros [Hr' Hw']%Hf. split; [done|lia].
  - intros [= <- <-]. split; [done|lia].
  - done.
Qed.

Lemma settles_weaken {A} (m : M A) b b' :
  settles b m -> b <= b' -> settles b' m.
Proof. intros Hm Hb w r w' E. destruct (Hm _ _ _ E). split; [done|lia]. Qed.

Lemma settles_try_catch_le {A} (m : M A) handler b1 b :
  settles b1 m -> b1 <= b -> (forall e, settles (b - b1) (handler e)) ->
  settles b (try_catch m handler).
Proof.
  intros Hm Hb Hh w r w'. unfold try_catch.
  destruct (m w) as [[a|e|] w1] eqn:E; destruct (Hm _ _ _ E) as [Hr Hw1].
  - intros [= <- <-]. split; [done|lia].
  - intros [Hr' Hw']%Hh. split; [done|lia].
  - done.
Qed.

Lemma settles_console lvl args : settles 0 (console lvl args).
Proof. apply settles_emit. Qed.

Lemma settles_alert msg : settles 0 (alert msg).
Proof. apply settles_emit. Qed.

Lemma settles_the_document : settles 0 the_document.
Proof. apply settles_gets. Qed.

Lemma settles_Date_now : settles 0 Date_now.
Proof. apply settles_gets. Qed.

Lemma settles_get_hash : settles 0 get_hash.
Proof. apply settles_gets. Qed.

Lemma settles_set_hash v : settles 0 (set_hash v).
Proof. intros w r w' [= <- <-]. split; [done|cbn; lia]. Qed.

Lemma settles_assign_value el v : settles 0 (assign_value el v).
Proof. intros w r w' [= <- <-]. split; [done|cbn; lia]. Qed.

Lemma settles_click H el : settles 0 (click H el).
Proof. intros w r w' [= <- <-]. split; [done|cbn; lia]. Qed.

Lemma settles_dispatch_input H el : settles 0 (dispatch_input H el).
Proof. intros w r w' [= <- <-]. split; [done|cbn; lia]. Qed.

Lemma settles_prompt H msg : settles 0 (prompt H msg).
Proof. intros w r w' [= <- <-]. split; [done|cbn; lia]. Qed.

Lemma settles_findInputByLabel labelText : settles 0 (findInputByLabel labelText).
Proof.
  intros w r w'. rewrite UpdateFacts.findInputByLabel_run.
  destruct (lookup_input _ _); intros [= <- <-]; (split; [done|cbn; lia]).
Qed.

Lemma settles_waitForLabels H timeout :
  0 <= timeout -> settles (timeout + 100) (waitForLabels H timeout).
Proof.
  intros Htimeout w r w'. unfold waitForLabels. erewrite bind_ok by reflexivity.
  pose proof (Z.mul_div_le timeout 100 eq_refl) as Hlo.
  pose proof (Z.div_pos timeout 100 Htimeout eq_refl) as Hq.
  destruct (waitForLabels_poll_settles H timeout (now w) (pg w) (trace w)
              Htimeout (Z.to_nat (timeout / 100) + 1) 0
              (Z.to_nat (timeout / 100) + 2))
    as (k & r' & Hk & Hrun & _ & Hend); [lia..|].
  unfold tick in Hrun. cbn [after_waits Nat.iter nat_rect] in Hrun.
  change (Z.of_nat 0) with 0 in Hrun. rewrite Z.mul_0_r, Z.add_0_r in Hrun.
  replace {| pg := pg w; now := now w; trace := trace w |} with w in Hrun
    by (by destruct w).
  rewrite Hrun. intros [= <- <-]. cbn [now]. split; [|lia].
  destruct (has_labels _); [by rewrite Hend|]. by destruct Hend as [-> _].
Qed.

Lemma settles_navigate H : settles 10000 (navigateToFiltersSettings H).
Proof.
  intros w r w'. unfold navigateToFiltersSettings.
  do 3 (erewrite bind_ok by reflexivity). cbn [pg doc now trace].
  destruct (navigate_poll_settles H (now w)
              (assign_hash "settings/filters" (pg w))
              ((trace w ++
                [Console Log
                   ["[Gmail Auto-Label] Navigating to filters settings..."]]) ++
               [SetHash "settings/filters"]) 50 0 50)
    as (k & w1 & Hk & Hrun & Hnow & _); [lia..|].
  unfold tick in Hrun. cbn [after_waits Nat.iter nat_rect] in Hrun.
  change (Z.of_nat 0) with 0 in Hrun. rewrite Z.mul_0_r, Z.add_0_r in Hrun.
  rewrite Hrun. intros [= <- <-]. split; [done|lia].
Qed.

Create HintDb settles.
#[export] Hint Resolve settles_gets settles_emit settles_on_page settles_console
  settles_alert settles_the_document settles_Date_now settles_get_hash
  settles_set_hash settles_assign_value settles_click settles_dispatch_input
  settles_prompt settles_findInputByLabel settles_navigate : settles.
#[export] Hint Extern 1 (settles _ (sleep _ _)) =>
  apply settles_sleep; lia : settles.
#[export] Hint Extern 1 (settles _ (waitForLabels _ 5000)) =>
  apply (settles_waitForLabels _ 5000); lia : settles.
#[export] Hint Extern 1 (settles _ (mret _)) => apply settles_ret; lia : settles.
#[export] Hint Extern 1 (settles _ (throw _)) => apply settles_throw; lia : settles.

Ltac settles :=
  repeat first
    [ progress intros
    | solve [eauto with settles]
    | solve [eapply settles_weaken; [eauto with settles | lia]]
    | eapply settles_bind_le; [solve [eauto with settles] | lia | ]
    | match goal with
      | |- settles _ (match ?x with _ => _ end) => destruct x
      | |- settles _ (if ?b then _ else _) => destruct b
      | |- settles _ (let _ := _ in _) => cbv zeta
      | |- settles _ ((match ?x with _ => _ end) ≫= _) => destruct x
      | |- settles _ ((if ?b then _ else _) ≫= _) => destruct b
      | |- settles _ (?m ≫= _) =>
          first [ eapply (settles_bind_le m _ 0); [solve [settles] | lia | ]
                | eapply (settles_bind_le m _ 500); [solve [settles] | lia | ] ]
      end ].

Lemma settles_updateExistingFilter H row sender :
  settles 2000 (updateExistingFilter H row sender).
Proof. unfold updateExistingFilter. settles. Qed.

Lemma settles_createNewFilter H P senderEmail labelName :
  settles 6700 (createNewFilter H P senderEmail labelName).
Proof. unfold createNewFilter. settles. Qed.

End FlowFacts.

(** ** More on the update and the creation path *)

Module PathExtras.
Import Run UpdateFacts WaitFacts FlowFacts.

(** X8: the update path throws in two cases only, and in both before it
    has written anything: when no From input is found after the row was
    opened (an error naming the field, after the warning of the lookup),
    and when the element found has no [value] (a type error).  Whenever it
    throws, the trace holds no more writes and input events than
    before. *)
Theorem X8_update_throws_before_writing (H : host) (row : path)
    (sender : string) (w : world) :
  let p1 := opened H row (pg w) in
  (forall warning,
      lookup_input (doc p1) "From" = inr warning ->
      updateExistingFilter H row sender w
      = (Throw (Error "Could not find From input field"),
         {| pg := p1; now := now w + 1000;
            trace := trace w ++ [Click row; Console Warn [warning]] |}))
  /\ (forall inp,
        lookup_input (doc p1) "From" = inl inp ->
        value_of (doc p1) inp = None ->
        updateExistingFilter H row sender w
        = (Throw (TypeError
                    "Cannot read properties of undefined (reading 'includes')"),
           {| pg := p1; now := now w + 1000; trace := trace w ++ [Click row] |}))
  /\ (forall e w',
        updateExistingFilter H row sender w = (Throw e, w') ->
        filter (fun x => is_write x = true) (trace w')
        = filter (fun x => is_write x = true) (trace w)
        /\ filter (fun x => is_notification x = true) (trace w')
           = filter (fun x => is_notification x = true) (trace w)).
Proof.
  intros p1. rewrite updateExistingFilter_run. cbv zeta. fold p1.
  split; [|split].
  - by intros warning ->.
  - by intros inp -> ->.
  - intros e w'.
    destruct (lookup_input (doc p1) "From") as [inp|warning].
    + destruct (value_of (doc p1) inp) as [cur|].
      * destruct (Str.includes cur sender); [done|].
        by destruct (button "Update filter" _).
      * intros [= _ <-]. cbn [trace]. rewrite !filter_app. cbn.
        by rewrite !app_nil_r.
    + intros [= _ <-]. cbn [trace]. rewrite !filter_app. cbn.
      by rewrite !app_nil_r.
Qed.

(** X8 on the sample message list, where opening a row shows no form. *)
Lemma X8_update_throws_before_writing_witness :
  exists warning,
    updateExistingFilter (Sample.inert None) Sample.row3 "jane@example.com"
      (Sample.start_of Sample.inbox "inbox")
    = (Throw (Error "Could not find From input field"),
       {| pg := {| doc := Sample.inbox; fragment := "inbox" |}; now := 0 + 1000;
          trace := [] ++ [Click Sample.row3; Console Warn [warning]] |}).
Proof.
  eexists.
  apply (proj1 (X8_update_throws_before_writing (Sample.inert None) Sample.row3
                  "jane@example.com" (Sample.start_of Sample.inbox "inbox"))).
  reflexivity.
Defined.

(** X9: when the sender is appended and no update button is there after
    the settle delay, the update path returns normally all the same: the
    input has been written and notified, nothing has been clicked to submit
    the change, and nothing is reported. *)
Theorem X9_update_without_button_is_silent (H : host) (row inp : path)
    (sender cur : string) (w : world) :
  let p1 := opened H row (pg w) in
  let v := cat [cur; " | "; sender] in
  let p2 := written H inp v p1 in
  lookup_input (doc p1) "From" = inl inp ->
  value_of (doc p1) inp = Some cur ->
  Str.includes cur sender = false ->
  button "Update filter" (doc p2) = None ->
  updateExistingFilter H row sender w
  = (Ok tt,
     {| pg := p2; now := now w + 1500;
        trace := trace w ++
          [Click row; SetValue inp v; InputEvent inp;
           Console Log ["[Gmail Auto-Label] Appended sender to filter"]] |}).
Proof.
  intros p1 v p2 Hfrom Hcur Hnew Hnone.
  rewrite updateExistingFilter_run. cbv zeta. fold p1.
  rewrite Hfrom, Hcur, Hnew. fold v p2. by rewrite Hnone.
Qed.

(** X9 on a form that has no update button. *)
Lemma X9_update_without_button_is_silent_witness :
  updateExistingFilter (Sample.inert None) Pages.unsaved_row "jane@example.com"
    (Sample.start_of Pages.unsaved_form "settings/filters")
  = (Ok tt,
     {| pg := written (Sample.inert None) Pages.unsaved_from
                (cat ["old@example.com"; " | "; "jane@example.com"])
                (opened (Sample.inert None) Pages.unsaved_row
                   {| doc := Pages.unsaved_form; fragment := "settings/filters" |});
        now := 0 + 1500;
        trace := [] ++
          [Click Pages.unsaved_row;
           SetValue Pages.unsaved_from
             (cat ["old@example.com"; " | "; "jane@example.com"]);
           InputEvent Pages.unsaved_from;
           Console Log ["[Gmail Auto-Label] Appended sender to filter"]] |}).
Proof.
  apply (X9_update_without_button_is_silent (Sample.inert None)
           Pages.unsaved_row Pages.unsaved_from "jane@example.com"
           "old@example.com"
           (Sample.start_of Pages.unsaved_form "settings/filters"));
    reflexivity.
Defined.

(** X10: when the creation form never renders, the creation path has
    clicked the button that should open it and then throws the timeout
    error 5100 ms later; it has written nothing. *)
Theorem X10_create_form_never_renders (H : host) (P senderEmail labelName : string)
    (w : world) (b : path) :
  find_create_button (doc (pg w)) buttonTexts = Some b ->
  (forall k, has_labels (after_waits H 100 k (on_click H b (pg w))) = false) ->
  createNewFilter H P senderEmail labelName w
  = (Throw (Error "Timeout waiting for form labels"),
     {| pg := after_waits H 100 51 (on_click H b (pg w));
        now := now w + 5100;
        trace := trace w ++
          [Console Log ["[Gmail Auto-Label] Looking for 'Create filter' button..."];
           Click b;
           Console Log ["[Gmail Auto-Label] Clicked create filter button"]] |}).
Proof.
  intros Hb Hnever. unfold createNewFilter.
  do 2 (erewrite bind_ok by reflexivity). cbn [pg doc]. rewrite Hb.
  do 2 (erewrite bind_ok by reflexivity).
  rewrite bind_run. unfold waitForLabels.
  erewrite bind_ok by reflexivity. cbn [pg doc now trace].
  pose proof (waitForLabels_poll_timeout H 5000 (now w) (on_click H b (pg w))
                (trace w ++
                 [Console Log
                    ["[Gmail Auto-Label] Looking for 'Create filter' button..."]] ++
                 [Click b] ++
                 [Console Log ["[Gmail Auto-Label] Clicked create filter button"]])
                ltac:(lia) Hnever 51 0 (Z.to_nat (5000 / 100) + 2)) as Hrun.
  cbn [after_waits Nat.iter nat_rect] in Hrun.
  change (Z.of_nat 0) with 0 in Hrun. rewrite Z.mul_0_r, Z.add_0_r in Hrun.
  rewrite <- !app_assoc. rewrite Hrun by (vm_compute; lia).
  reflexivity.
Qed.

(** X10 on a settings view whose link opens nothing. *)
Lemma X10_create_form_never_renders_witness :
  createNewFilter (Sample.inert None) Sample.prefix "jane@example.com" "Work"
    (Sample.start_of Pages.only_link "settings/filters")
  = (Throw (Error "Timeout waiting for form labels"),
     {| pg := after_waits (Sample.inert None) 100 51
                (on_click (Sample.inert None) Pages.the_link
                   {| doc := Pages.only_link; fragment := "settings/filters" |});
        now := 0 + 5100;
        trace := [] ++
          [Console Log ["[Gmail Auto-Label] Looking for 'Create filter' button..."];
           Click Pages.the_link;
           Console Log ["[Gmail Auto-Label] Clicked create filter button"]] |}).
Proof.
  apply (X10_create_form_never_renders (Sample.inert None) Sample.prefix
           "jane@example.com" "Work"
           (Sample.start_of Pages.only_link "settings/filters") Pages.the_link).
  - reflexivity.
  - intros k. rewrite after_waits_inert. reflexivity.
Defined.

End PathExtras.

(** ** More on the workflow and its handler *)

Module WorkflowFacts.
Import Run UpdateFacts WaitFacts SettleFacts FlowFacts.

Lemma grows_updateExistingFilter H row sender :
  grows (updateExistingFilter H row sender).
Proof. unfold updateExistingFilter. grows. Qed.

Lemma grows_createNewFilter H P senderEmail labelName :
  grows (createNewFilter H P senderEmail labelName).
Proof. unfold createNewFilter. grows. Qed.

(** Navigation resolves, having logged and set the location. *)
Lemma navigate_result H w r w1 :
  navigateToFiltersSettings H w = (r, w1) ->
  r = Ok tt
  /\ now w + 1200 <= now w1 <= now w + 10000
  /\ trace w1
     = trace w ++
       [Console Log ["[Gmail Auto-Label] Navigating to filters settings..."];
        SetHash "settings/filters"].
Proof.
  unfold navigateToFiltersSettings.
  do 3 (erewrite bind_ok by reflexivity). cbn [pg doc now trace].
  destruct (navigate_poll_settles H (now w)
              (assign_hash "settings/filters" (pg w))
              ((trace w ++
                [Console Log
                   ["[Gmail Auto-Label] Navigating to filters settings..."]]) ++
               [SetHash "settings/filters"]) 50 0 50)
    as (k & w' & Hk & Hrun & Hnow & Htrace & _); [lia..|].
  unfold tick in Hrun. cbn [after_waits Nat.iter nat_rect] in Hrun.
  change (Z.of_nat 0) with 0 in Hrun. rewrite Z.mul_0_r, Z.add_0_r in Hrun.
  rewrite Hrun. intros [= <- <-]. split; [done|]. split; [lia|].
  by rewrite Htrace, <- app_assoc.
Qed.

(** The part of [createOrUpdateFilter] that follows the navigation. *)
Lemma settles_after_navigation H P senderEmail labelName original :
  settles 6700
    (d ← the_document;
     match findFilterByMetadata P d labelName with
     | Some existingFilter =>
         console Log ["[Gmail Auto-Label] Found existing filter, updating..."];;
         updateExistingFilter H existingFilter senderEmail
     | None =>
         console Log ["[Gmail Auto-Label] Creating new filter..."];;
         createNewFilter H P senderEmail labelName
     end;;
     set_hash original).
Proof.
  eapply settles_bind_le; [apply settles_the_document|lia|]. intros d.
  destruct (findFilterByMetadata P d labelName) as [row|].
  - eapply (settles_bind_le _ _ 2000); [|lia|intros; settles].
    eapply settles_bind_le; [apply settles_console|lia|]. intros _.
    eapply settles_weaken; [apply settles_updateExistingFilter|lia].
  - eapply (settles_bind_le _ _ 6700); [|lia|intros; settles].
    eapply settles_bind_le; [apply settles_console|lia|]. intros _.
    eapply settles_weaken; [apply settles_createNewFilter|lia].
Qed.

Lemma settles_createOrUpdateFilter H P senderEmail labelName :
  settles 16700 (createOrUpdateFilter H P senderEmail labelName).
Proof.
  unfold createOrUpdateFilter.
  eapply settles_bind_le; [apply settles_get_hash|lia|]. intros original.
  eapply (settles_try_catch_le _ _ 16700); [|lia|intros; settles].
  eapply settles_bind_le; [apply settles_navigate|lia|]. intros _.
  eapply settles_weaken; [apply settles_after_navigation|lia].
Qed.

Lemma ensures_last_two args msg :
  ensures (fun w' => exists t, trace w' = t ++ [Console Log args; Alert msg])
    (console Log args ≫= fun _ => alert msg).
Proof.
  intros w a w' [= _ <-]. exists (trace w). cbn [trace].
  by rewrite <- app_assoc.
Qed.

#[export] Hint Extern 1 (settles _ (createOrUpdateFilter _ _ _ _)) =>
  simple apply settles_createOrUpdateFilter : settles.
#[export] Hint Resolve emits_navigate emits_updateExistingFilter
  emits_createNewFilter : emits.

End WorkflowFacts.

Module WorkflowExtras.
Import Run UpdateFacts WaitFacts SettleFacts FlowFacts WorkflowFacts.

(** X11: whatever the page does, a run of [createOrUpdateFilter] only
    does the following to it: it clicks, dispatches input events and logs;
    every value it writes is the sender, the marker of the label, or some
    value with [ | ] and the sender appended; every location it sets is the
    settings view or the location it started from; the only alert it shows
    is the hand-over instructions; and it never prompts. *)
Theorem X11_workflow_events (H : host) (P senderEmail labelName : string)
    (w : world) :
  let run := createOrUpdateFilter H P senderEmail labelName w in
  exists t,
    trace (snd run) = trace w ++ t
    /\ Forall (workflow_event P senderEmail labelName (location_hash (pg w))) t.
Proof.
  intros run.
  assert (Hrun : emits_only
            (workflow_event P senderEmail labelName (location_hash (pg w)))
            (try_catch
               (navigateToFiltersSettings H;;
                d ← the_document;
                match findFilterByMetadata P d labelName with
                | Some existingFilter =>
                    console Log
                      ["[Gmail Auto-Label] Found existing filter, updating..."];;
                    updateExistingFilter H existingFilter senderEmail
                | None =>
                    console Log ["[Gmail Auto-Label] Creating new filter..."];;
                    createNewFilter H P senderEmail labelName
                end;;
                set_hash (location_hash (pg w)))
               (fun err =>
                  console Err
                    ["[Gmail Auto-Label] Filter operation failed:"; message err];;
                  throw err))) by emits.
  apply (Hrun w (fst run) (snd run)).
  unfold run, createOrUpdateFilter.
  rewrite (bind_ok _ _ w (location_hash (pg w)) w) by reflexivity.
  apply surjective_pairing.
Qed.

(** X12: when the creation path returns normally it has written the
    sender into the From input and dispatched the input event on it, and
    the last things it has done are to log the note and to show the
    instructions that hand the choice of the label over to the user. *)
Theorem X12_create_hands_over (H : host) (P senderEmail labelName : string)
    (w w' : world) :
  createNewFilter H P senderEmail labelName w = (Ok tt, w') ->
  (exists fromInput t1 t2,
      trace w'
      = trace w ++ t1 ++ SetValue fromInput senderEmail
                        :: InputEvent fromInput :: t2)
  /\ exists t,
       trace w'
       = t ++ [Console Log
                 [cat ["[Gmail Auto-Label] NOTE: You need to manually select the label ";
                       dq; labelName; dq; " and click Create filter"]];
               Alert (hand_off labelName)].
Proof.
  intros Hrun. split.
  - revert Hrun. unfold createNewFilter.
    do 2 (erewrite bind_ok by reflexivity). cbn [pg doc].
    destruct (find_create_button (doc (pg w)) buttonTexts) as [b|]; [|done].
    do 2 (erewrite bind_ok by reflexivity).
    rewrite bind_run.
    match goal with
    | |- context [waitForLabels H 5000 ?w2] =>
        destruct (waitForLabels H 5000 w2) as [[[]|e|] w3] eqn:Ewait;
        cbv beta iota; [|intros [=]..];
        destruct (grows_waitForLabels _ _ _ _ _ Ewait) as [t3 Ht3];
        clear Ewait
    end.
    rewrite bind_run, findInputByLabel_run.
    destruct (lookup_input (doc (pg w3)) "From") as [fromInput|warning];
      [|intros [=]].
    do 2 (erewrite bind_ok by reflexivity).
    match goal with
    | |- ?rest ?w5 = _ -> _ =>
        intros Hrest; assert (G : grows rest) by grows;
        destruct (G _ _ _ Hrest) as [t5 Ht5]
    end.
    exists fromInput,
      ([Console Log ["[Gmail Auto-Label] Looking for 'Create filter' button..."];
        Click b;
        Console Log ["[Gmail Auto-Label] Clicked create filter button"]] ++ t3),
      t5.
    rewrite Ht5. cbn [trace]. rewrite Ht3. cbn [trace].
    rewrite <- !app_assoc. cbn [app]. reflexivity.
  - assert (He : ensures
              (fun w' =>
                 exists t,
                   trace w'
                   = t ++ [Console Log
                             [cat ["[Gmail Auto-Label] NOTE: You need to manually select the label ";
                                   dq; labelName; dq; " and click Create filter"]];
                           Alert (hand_off labelName)])
              (createNewFilter H P senderEmail labelName)).
    { unfold createNewFilter.
      repeat first
        [ progress intros
        | apply ensures_throw
        | apply ensures_last_two
        | match goal with
          | |- ensures _ (match ?x with _ => _ end) => destruct x
          end
        | apply ensures_bind ]. }
    apply (He w tt w' Hrun).
Qed.

(** X12 on a page that shows the whole creation form. *)
Lemma X12_create_hands_over_witness :
  let w := Sample.start_of Pages.wizard "settings/filters" in
  let w' := snd (createNewFilter (Sample.inert None) Sample.prefix
                   "jane@example.com" "Work" w) in
  (exists fromInput t1 t2,
      trace w'
      = trace w ++ t1 ++ SetValue fromInput "jane@example.com"
                        :: InputEvent fromInput :: t2)
  /\ exists t,
       trace w'
       = t ++ [Console Log
                 [cat ["[Gmail Auto-Label] NOTE: You need to manually select the label ";
                       dq; "Work"; dq; " and click Create filter"]];
               Alert (hand_off "Work")].
Proof.
  intros w w'.
  apply (X12_create_hands_over (Sample.inert None) Sample.prefix
           "jane@example.com" "Work" w w').
  vm_compute. reflexivity.
Defined.

(** X13: when [createOrUpdateFilter] returns normally, the location is the
    one it started from; the first things it has done are to log and to set
    the location to the settings view, and the last is to set the location
    back. *)
Theorem X13_success_restores_location (H : host) (P senderEmail labelName : string)
    (w w' : world) :
  createOrUpdateFilter H P senderEmail labelName w = (Ok tt, w') ->
  location_hash (pg w') = location_hash (pg w)
  /\ exists t,
       trace w'
       = trace w ++
         [Console Log ["[Gmail Auto-Label] Navigating to filters settings..."];
          SetHash "settings/filters"]
         ++ t ++ [SetHash (location_hash (pg w))].
Proof.
  intros Hrun. split; [by apply createOrUpdateFilter_restores in Hrun|].
  revert Hrun. unfold createOrUpdateFilter.
  rewrite (bind_ok _ _ w (location_hash (pg w)) w) by reflexivity.
  unfold try_catch. rewrite bind_run.
  destruct (navigateToFiltersSettings H w) as [r w1] eqn:Enav.
  apply navigate_result in Enav as (-> & _ & Hw1).
  erewrite bind_ok by reflexivity. rewrite bind_run.
  match goal with
  | |- context [match ?branch w1 with _ => _ end] =>
      assert (G : grows branch)
        by (destruct (findFilterByMetadata P (doc (pg w1)) labelName);
            apply grows_bind; intros;
            auto using grows_console, grows_updateExistingFilter,
              grows_createNewFilter);
      destruct (branch w1) as [[[]|e|] w2] eqn:Eb;
      destruct (G _ _ _ Eb) as [t Ht]; clear Eb G
  end.
  - intros [= <-]. exists t. cbn [trace]. rewrite Ht, Hw1.
    by rewrite <- !app_assoc.
  - intros [=].
  - intros [=].
Qed.

(** X13 on the sample settings view, for a label that has a rule. *)
Lemma X13_success_restores_location_witness :
  let w := Sample.start_of (Sample.settings "old@example.com") "inbox" in
  let w' := snd (createOrUpdateFilter (Sample.inert None) Sample.prefix
                   "jane@example.com" "Newsletter" w) in
  location_hash (pg w') = location_hash (pg w)
  /\ exists t,
       trace w'
       = trace w ++
         [Console Log ["[Gmail Auto-Label] Navigating to filters settings..."];
          SetHash "settings/filters"]
         ++ t ++ [SetHash (location_hash (pg w))].
Proof.
  intros w w'.
  apply (X13_success_restores_location (Sample.inert None) Sample.prefix
           "jane@example.com" "Newsletter" w w').
  vm_compute. reflexivity.
Defined.

(** X14: whatever the page does, [createOrUpdateFilter] settles: its
    waits add up to at least 1200 ms (the navigation) and at most 16700 ms
    (10000 ms for the navigation, then at most 5100 + 300 + 800 + 500 ms on
    the creation path or 2000 ms on the update path). *)
Theorem X14_workflow_settles (H : host) (P senderEmail labelName : string)
    (w : world) :
  let run := createOrUpdateFilter H P senderEmail labelName w in
  fst run <> Pending
  /\ now w + 1200 <= now (snd run) <= now w + 16700.
Proof.
  intros run.
  destruct (settles_createOrUpdateFilter H P senderEmail labelName w
              (fst run) (snd run)) as [Hr Hupper]; [apply surjective_pairing|].
  split; [done|]. split; [|lia].
  unfold run, createOrUpdateFilter.
  rewrite (bind_ok _ _ w (location_hash (pg w)) w) by reflexivity.
  unfold try_catch. rewrite bind_run.
  destruct (navigateToFiltersSettings H w) as [r w1] eqn:Enav.
  apply navigate_result in Enav as (-> & Hw1 & _).
  match goal with
  | |- context [match ?rest w1 with _ => _ end] =>
      pose proof (settles_after_navigation H P senderEmail labelName
                    (location_hash (pg w)) w1 (fst (rest w1)) (snd (rest w1))
                    (surjective_pairing _)) as [_ Hw2];
      destruct (rest w1) as [[[]|e|] w2]
  end; prims; cbn [fst snd now] in *; lia.
Qed.

(** X15: the handler of the menu entry never throws and always settles:
    for every clicked element, page and user it returns normally, after at
    most 16700 ms of waiting. *)
Theorem X15_handler_always_returns (H : host) (P : string)
    (rightClickedElement : option path) (w : world) :
  exists w',
    handleAutoLabelClick H P rightClickedElement w = (Ok tt, w')
    /\ now w <= now w' <= now w + 16700.
Proof.
  unfold handleAutoLabelClick, try_catch.
  match goal with
  | |- context [let (_, _) := ?body w in _] =>
      assert (Hs : settles 16700 body)
        by (destruct rightClickedElement; unfold blank; settles);
      destruct (body w) as [[[]|e|] w1] eqn:Eb;
      destruct (Hs _ _ _ Eb) as [Hr Hw1]
  end.
  - by exists w1.
  - eexists. split; [reflexivity|]. cbn [now]. lia.
  - done.
Qed.

(** X16: what the handler reports once a sender is found and the user has
    given a label that is not blank.  The workflow is run with the label
    trimmed.  When it returns normally the handler logs the success and
    shows an alert that names the sender and the label as it was typed;
    when it throws, the handler logs the error and shows an alert with its
    message, and returns normally. *)
Theorem X16_handler_reports (H : host) (P : string) (el : path)
    (sender name : string) (w : world) :
  let question :=
    cat ["Enter the label name to auto-apply for emails from:";
         String (ascii_of_nat 10) ""; sender] in
  let w1 :=
    {| pg := pg w; now := now w;
       trace := trace w ++
         [Console Log ["[Gmail Auto-Label] Found sender:"; sender];
          Prompt question;
          Console Log
            [cat ["[Gmail Auto-Label] Creating filter for "; sender;
                  " with label "; dq; name; dq]]] |} in
  extractSenderFromElement (doc (pg w)) el = Some sender ->
  prompt_answer H question = Some name ->
  blank name = false ->
  (forall w2,
      createOrUpdateFilter H P sender (Str.trim name) w1 = (Ok tt, w2) ->
      handleAutoLabelClick H P (Some el) w
      = (Ok tt,
         {| pg := pg w2; now := now w2;
            trace := trace w2 ++
              [Console Log
                 ["[Gmail Auto-Label] Filter created/updated successfully!"];
               Alert (cat ["✓ Added filter for "; sender;
                           " with label "; dq; name; dq])] |}))
  /\ (forall e w2,
        createOrUpdateFilter H P sender (Str.trim name) w1 = (Throw e, w2) ->
        handleAutoLabelClick H P (Some el) w
        = (Ok tt,
           {| pg := pg w2; now := now w2;
              trace := trace w2 ++
                [Console Err ["[Gmail Auto-Label] Error:"; message e];
                 Alert (cat ["Failed to create filter: "; message e])] |})).
Proof.
  intros question w1 Hsender Hanswer Hblank.
  assert (Hstep : forall k : unit -> M unit,
    handleAutoLabelClick H P (Some el) w
    = try_catch
        (createOrUpdateFilter H P sender (Str.trim name);;
         console Log ["[Gmail Auto-Label] Filter created/updated successfully!"];;
         alert (cat ["✓ Added filter for "; sender; " with label "; dq; name; dq]))
        (fun err =>
           console Err ["[Gmail Auto-Label] Error:"; message err];;
           alert (cat ["Failed to create filter: "; message err])) w1).
  { intros _. unfold handleAutoLabelClick, try_catch.
    rewrite (bind_ok _ _ w (doc (pg w)) w) by reflexivity.
    rewrite Hsender.
    do 2 (erewrite bind_ok by reflexivity). fold question.
    rewrite Hanswer, Hblank.
    erewrite bind_ok by reflexivity.
    replace w1 with
      {| pg := pg w; now := now w;
         trace := ((trace w ++
                    [Console Log ["[Gmail Auto-Label] Found sender:"; sender]]) ++
                   [Prompt question]) ++
                  [Console Log
                     [cat ["[Gmail Auto-Label] Creating filter for "; sender;
                           " with label "; dq; name; dq]]] |}
      by (unfold w1; f_equal; by rewrite <- !app_assoc).
    reflexivity. }
  rewrite (Hstep (fun _ => mret tt)). unfold try_catch. rewrite bind_run.
  split.
  - intros w2 ->. prims. by rewrite <- !app_assoc.
  - intros e w2 ->. prims. by rewrite <- !app_assoc.
Qed.

(** X16 on the sample message list, whose page has no settings view: the
    workflow throws and the handler reports it. *)
Lemma X16_handler_reports_witness :
  let H := Sample.inert (Some " Work ") in
  let w := Sample.start_of Sample.inbox "inbox" in
  let e := Error "Could not find 'Create a new filter' button" in
  exists w2,
    handleAutoLabelClick H Sample.prefix (Some Sample.subject1) w
    = (Ok tt,
       {| pg := pg w2; now := now w2;
          trace := trace w2 ++
            [Console Err ["[Gmail Auto-Label] Error:"; message e];
             Alert (cat ["Failed to create filter: "; message e])] |})
    /\ now w2 = 10000 /\ location_hash (pg w2) = "#settings/filters".
Proof.
  intros H w e.
  eexists. split.
  - pose proof (X16_handler_reports H Sample.prefix Sample.subject1
                  "jane@example.com" " Work " w) as Hreport.
    cbv zeta in Hreport.
    apply (proj2 (Hreport ltac:(reflexivity) ltac:(reflexivity)
                    ltac:(reflexivity)) e).
    vm_compute. reflexivity.
  - split; reflexivity.
Defined.

(** X17: without a clicked element the handler only logs an error; when no
    sender can be found from the clicked element it logs an error and shows
    an alert.  In both cases it returns normally without asking for a label
    and leaves the page, its location and the clock as they were. *)
Theorem X17_handler_without_sender (H : host) (P : string) (w : world) :
  handleAutoLabelClick H P None w
  = (Ok tt,
     {| pg := pg w; now := now w;
        trace := trace w ++
          [Console Err ["[Gmail Auto-Label] No element was right-clicked"]] |})
  /\ forall el,
       extractSenderFromElement (doc (pg w)) el = None ->
       handleAutoLabelClick H P (Some el) w
       = (Ok tt,
          {| pg := pg w; now := now w;
             trace := trace w ++
               [Console Err ["[Gmail Auto-Label] Could not detect sender email"];
                Alert "Could not detect sender email. Please try right-clicking directly on the email."]
          |}).
Proof.
  split; [reflexivity|].
  intros el Hnone. unfold handleAutoLabelClick, try_catch.
  rewrite (bind_ok _ _ w (doc (pg w)) w) by reflexivity.
  rewrite Hnone. prims. by rewrite <- !app_assoc.
Qed.

(** X17 on the sample page where the sender is shown too far above the
    clicked element. *)
Lemma X17_handler_without_sender_witness :
  handleAutoLabelClick (Sample.inert None) Sample.prefix (Some (Sample.deep 15))
    (Sample.start_of (Sample.beside 15) "inbox")
  = (Ok tt,
     {| pg := {| doc := Sample.beside 15; fragment := "inbox" |}; now := 0;
        trace := [] ++
          [Console Err ["[Gmail Auto-Label] Could not detect sender email"];
           Alert "Could not detect sender email. Please try right-clicking directly on the email."]
     |}).
Proof.
  apply (proj2 (X17_handler_without_sender (Sample.inert None) Sample.prefix
                  (Sample.start_of (Sample.beside 15) "inbox"))).
  reflexivity.
Defined.

End WorkflowExtras.

(** ** The menu item *)

Module MenuFacts.

Lemma descendants_children d kids :
  descendants (Elem d kids) = children_from 0 kids.
Proof. reflexivity. Qed.

Lemma select_app sel l1 l2 :
  select sel (l1 ++ l2) = select sel l1 ++ select sel l2.
Proof. unfold select. apply filter_app. Qed.

Lemma select_moved sel (g : path -> path) l :
  length (select sel (map (fun '(q, m) => (g q, m)) l)) = length (select sel l).
Proof.
  unfold select. induction l as [|[q m] l IH]; [done|].
  cbn [map]. rewrite !filter_cons. cbn [snd].
  destruct (decide (matches sel m = true)); cbn [length]; by rewrite IH.
Qed.

Lemma select_child sel i j k :
  length (select sel match k with Elem _ _ => [(i, k)] | Text _ => [] end)
  = length (select sel match k with Elem _ _ => [(j, k)] | Text _ => [] end).
Proof.
  unfold select. destruct k; [done|].
  rewrite !filter_cons. cbn [snd]. by destruct (decide _).
Qed.

(** How many children match does not depend on where they start. *)
Lemma children_from_count sel l : forall i j,
  length (select sel (children_from i l))
  = length (select sel (children_from j l)).
Proof.
  induction l as [|k l IH]; intros i j; [done|].
  cbn [children_from]. rewrite !select_app, !length_app.
  rewrite (select_child sel [i] [j]).
  rewrite (select_moved sel (fun q => q ++ [i])).
  rewrite (select_moved sel (fun q => q ++ [j])).
  by rewrite (IH (S i) (S j)).
Qed.

Lemma injected_count d kids :
  length (injected (Elem d kids))
  = length (select sel_injected (children_from 0 kids)).
Proof.
  unfold injected, querySelectorAll, resolve. cbn [rev at_path].
  by rewrite length_map, descendants_children.
Qed.

(** The new item is the first marked element of the menu it was put in. *)
Lemma injected_first item_style separator_style d kids :
  injected (Elem d (menuItem item_style :: separator separator_style :: kids))
  = ([0%nat], menuItem item_style)
    :: map (fun '(q, m) => (q ++ [], m))
         (select sel_injected (children_from 2 kids)).
Proof. reflexivity. Qed.

(** On the sample menu the new item is the only marked element. *)
Example inject_sample_menu :
  injected (injectContextMenuItem "cursor: pointer;" "height: 1px;" Pages.menu)
  = [([0%nat], menuItem "cursor: pointer;")].
Proof. reflexivity. Qed.

End MenuFacts.

Module MenuExtras.
Import MenuFacts.

(** X18: injecting the menu item is idempotent: a second call on the same
    menu changes nothing, whatever the menu held before the first. *)
Theorem X18_inject_idempotent (item_style separator_style : string)
    (menu : node) :
  injectContextMenuItem item_style separator_style
    (injectContextMenuItem item_style separator_style menu)
  = injectContextMenuItem item_style separator_style menu.
Proof.
  destruct menu as [s|d kids]; [reflexivity|].
  unfold injectContextMenuItem at 2.
  destruct (querySelector (Elem d kids) [] sel_injected) eqn:Hfound.
  - unfold injectContextMenuItem. by rewrite Hfound.
  - unfold injectContextMenuItem. rewrite Hfound. unfold querySelector.
    fold (injected (Elem d (menuItem item_style
                              :: separator separator_style :: kids))).
    by rewrite injected_first.
Qed.

(** X19: after the call a menu element holds as many marked elements as
    before, or one when it held none; its former children are kept in
    order, behind the new item and the separator when these are added. *)
Theorem X19_one_item_per_menu (item_style separator_style : string)
    (d : edata) (kids : list node) :
  let menu := Elem d kids in
  let menu' := injectContextMenuItem item_style separator_style menu in
  length (injected menu') = Nat.max 1 (length (injected menu))
  /\ exists added,
       menu' = Elem d (added ++ kids)
       /\ (added = []
           \/ added = [menuItem item_style; separator separator_style]).
Proof.
  intros menu menu'. subst menu menu'. unfold injectContextMenuItem.
  destruct (querySelector (Elem d kids) [] sel_injected) eqn:Hfound.
  - split; [|exists []; auto].
    unfold querySelector in Hfound. fold (injected (Elem d kids)) in Hfound.
    destruct (injected (Elem d kids)); [done|]. cbn [length]. lia.
  - split;
      [|exists [menuItem item_style; separator separator_style]; auto].
    unfold querySelector in Hfound. fold (injected (Elem d kids)) in Hfound.
    rewrite injected_first. cbn [length]. rewrite length_map.
    pose proof (children_from_count sel_injected kids 2 0) as Hcount.
    rewrite <- (injected_count d) in Hcount.
    destruct (injected (Elem d kids)); [|done].
    cbn [length] in *. unfold path in *. lia.
Qed.

End MenuExtras.

(** ** The marker of a rule *)

Module MarkerFacts.

Lemma includes_chars_shorter hay a b :
  Str.includes_chars hay (a ++ b) = true -> Str.includes_chars hay a = true.
Proof.
  assert (Hs : forall a hay, Str.starts_with (a ++ b) hay = true ->
                             Str.starts_with a hay = true).
  { clear. induction a as [|c a IH]; intros [|h hay]; simpl; try done.
    intros [-> Ha]%andb_true_iff. by rewrite (IH _ Ha). }
  induction hay as [|h hay IH]; simpl.
  - rewrite !orb_false_r. apply Hs.
  - intros [Ha|Ha]%orb_true_iff.
    + by rewrite (Hs _ _ Ha).
    + by rewrite (IH Ha), orb_true_r.
Qed.

Lemma includes_shorter hay a b :
  Str.includes hay (String.append a b) = true -> Str.includes hay a = true.
Proof.
  unfold Str.includes. rewrite chars_app. apply includes_chars_shorter.
Qed.

End MarkerFacts.

Module MarkerExtras.
Import MarkerFacts.

(** X20: the rows are matched by containment of the marker, so a row that
    is found for a label is also found, or another row before it, for every
    label that the first one begins with. *)
Theorem X20_marker_of_a_longer_label (P : string) (d : node)
    (labelName rest : string) (row : path) :
  findFilterByMetadata P d (String.append labelName rest) = Some row ->
  exists row', findFilterByMetadata P d labelName = Some row'.
Proof.
  unfold findFilterByMetadata. cbv zeta.
  induction (document_querySelectorAll d sel_filter_rows) as [|r rows IH];
    [done|].
  cbn [first_row_with].
  destruct (Str.includes (textContent r.2) (String.append P labelName))
    eqn:Hshort; [by eexists|].
  destruct (Str.includes (textContent r.2)
              (String.append P (String.append labelName rest))) eqn:Hlong;
    [|exact IH].
  assert (String.append P (String.append labelName rest)
          = String.append (String.append P labelName) rest) as Eassoc.
  { clear. induction P as [|c P IH]; [done|]. cbn. by rewrite IH. }
  rewrite Eassoc in Hlong. apply includes_shorter in Hlong. congruence.
Qed.

(** X20 on the sample settings view: the rule of the label Newsletter is
    found for the label News. *)
Lemma X20_marker_of_a_longer_label_witness :
  exists row',
    findFilterByMetadata Sample.prefix (Sample.settings "old@example.com")
      "News" = Some row'.
Proof.
  apply (X20_marker_of_a_longer_label Sample.prefix
           (Sample.settings "old@example.com") "News" "letter" Sample.rule2).
  reflexivity.
Defined.

End MarkerExtras.
